(** * Tikhonov regularization for linear least squares (GSL, multifit/multireg.c)

    A shallow embedding of the regularization routines of
    [multifit/multireg.c] and the properties checked against them.

    - A C [double] is an IEEE binary64 number: Rocq's primitive [float].
      Every operation is rounded to binary64, to nearest-even, on its own
      (no excess precision, no fused multiply-add).
    - A [size_t] is a [nat]; the places where the C subtraction can wrap
      go through [size_sub].
    - A [gsl_vector] is the list of its elements, a [gsl_matrix] its two
      sizes and the list of its rows.
    - A function that writes through its arguments returns the status
      together with the new contents of every argument it may write.
    - The C library's [log] and [pow] and the dense linear-algebra kernels
      (BLAS, QR) are parameters of the development. *)

From Stdlib Require Import ZArith NArith Lia Floats.
From stdpp Require Import base list.

(** ** Status codes *)

(** Modelled from the spec: the codes of [gsl_errno.h] (not among the
    sources) that [multireg.c] returns. [GSL_ERROR (msg, code)] reports to
    the error handler and returns [code]; the embedding keeps the returned
    code. *)
Inductive gsl_status : Set :=
  | GSL_SUCCESS
  | GSL_EDOM      (* input domain error *)
  | GSL_EINVAL    (* invalid argument supplied by user *)
  | GSL_EBADLEN   (* matrix, vector lengths are not conformant *)
  | GSL_ENOTSQR.  (* matrix not square *)

Definition is_success (s : gsl_status) : bool :=
  match s with GSL_SUCCESS => true | _ => false end.

(** ** Doubles *)

(** Modelled from the spec: [GSL_DBL_EPSILON] of [gsl_machine.h] (not among
    the sources), the machine epsilon 2.2204460492503131e-16 = 2^-52. *)
Definition GSL_DBL_EPSILON : float := 0x1p-52%float.

(** Modelled from the spec: the macro [GSL_MAX] of [gsl_minmax.h] (not
    among the sources), [((a) > (b) ? (a) : (b))]. *)
Definition GSL_MAX (a b : float) : float := if (b <? a)%float then a else b.

(** Modelled from the spec: [gsl_finite] of [sys/infnan.c] (not among the
    sources), true for every double that is neither a NaN nor an
    infinity. *)
Definition gsl_finite (x : float) : bool := is_finite x.

(** Conversion of a [size_t] to [double] (round to nearest). *)
Definition double_of_size (n : nat) : float :=
  SF2Prim (binary_normalize prec emax (Z.of_nat n) 0 false).

(** Subtraction of two [size_t], which wraps modulo 2^64 when [b > a]. *)
Definition size_sub (a b : nat) : nat :=
  if (b <=? a)%nat then a - b
  else N.to_nat (2 ^ 64 - N.of_nat (b - a)).

(** Modelled from the spec: the macro [GSL_MIN] of [gsl_minmax.h] (not
    among the sources), [((a) < (b) ? (a) : (b))], on sizes. *)
Definition GSL_MIN (a b : nat) : nat := if (a <? b)%nat then a else b.

(** A counted loop [for (i = lo; i < hi; ++i) s = body i s]. *)
Definition for_loop {S : Type} (lo hi : nat) (body : nat -> S -> S) (s : S) : S :=
  foldl (fun s i => body i s) s (seq lo (hi - lo)).

(** ** Vectors

    The vector library ([vector/]) is not among the sources; its
    operations are modelled element-wise on the list of the elements. *)
Abbreviation gsl_vector := (list float) (only parsing).

(** Modelled from the spec: [gsl_vector_get] of the vector library; a read
    out of range yields 0, as the range-checked accessor does after
    reporting. *)
Definition gsl_vector_get (v : gsl_vector) (i : nat) : float :=
  default 0%float (v !! i).

(** Modelled from the spec: [gsl_vector_set] of the vector library; a
    write out of range leaves the vector as it is. *)
Definition gsl_vector_set (v : gsl_vector) (i : nat) (x : float) : gsl_vector :=
  <[i := x]> v.

(** Modelled from the spec: [gsl_vector_set_all] of the vector library. *)
Definition gsl_vector_set_all (v : gsl_vector) (x : float) : gsl_vector :=
  replicate (length v) x.

(** Modelled from the spec: [gsl_vector_set_zero] of the vector library. *)
Definition gsl_vector_set_zero (v : gsl_vector) : gsl_vector :=
  gsl_vector_set_all v 0%float.

(** Modelled from the spec: [gsl_vector_memcpy (dest, src)] of the vector
    library, which refuses vectors of different lengths. *)
Definition gsl_vector_memcpy (dest src : gsl_vector) : gsl_vector :=
  if (length dest =? length src)%nat then src else dest.

(** Modelled from the spec: [gsl_vector_scale (a, x)] of the vector
    library, [a_i *= x]. *)
Definition gsl_vector_scale (a : gsl_vector) (x : float) : gsl_vector :=
  (fun ai => (ai * x)%float) <$> a.

(** Modelled from the spec: [gsl_vector_div (a, b)] of the vector library,
    [a_i /= b_i], refused on different lengths. *)
Definition gsl_vector_div (a b : gsl_vector) : gsl_vector :=
  if (length a =? length b)%nat
  then zip_with (fun ai bi => (ai / bi)%float) a b
  else a.

(** Modelled from the spec: [gsl_vector_subvector (v, off, n)] of the
    vector library, the view of [n] elements from [off]. *)
Definition gsl_vector_subvector (v : gsl_vector) (off n : nat) : gsl_vector :=
  take n (drop off v).

(** The write back through a subvector view at [off]. *)
Definition put_subvector (v : gsl_vector) (off : nat) (u : gsl_vector) : gsl_vector :=
  take off v ++ take (length v - off) u ++ drop (off + length u) v.

(** ** Matrices

    The matrix library ([matrix/]) is not among the sources. A view (row,
    column, superdiagonal, submatrix) is read with its getter and written
    back with the matching [put_]. *)

(** Modelled from the spec: [gsl_matrix] of the matrix library, its two
    sizes and its rows. *)
Record gsl_matrix : Type := Matrix {
  size1 : nat;
  size2 : nat;
  rows : list (list float)
}.

(** The rows of an n1-by-n2 matrix: n1 lists of n2 elements. *)
Definition matrix_wf (m : gsl_matrix) : Prop :=
  length (rows m) = size1 m /\ Forall (fun r => length r = size2 m) (rows m).

Definition with_rows (m : gsl_matrix) (rs : list (list float)) : gsl_matrix :=
  {| size1 := size1 m; size2 := size2 m; rows := rs |}.

(** Modelled from the spec: [gsl_matrix_get] of the matrix library; 0 out
    of range. *)
Definition gsl_matrix_get (m : gsl_matrix) (i j : nat) : float :=
  default 0%float (rows m !! i ≫= (.!! j)).

(** Modelled from the spec: [gsl_matrix_set_all] of the matrix library. *)
Definition gsl_matrix_set_all (m : gsl_matrix) (x : float) : gsl_matrix :=
  with_rows m (replicate (size1 m) (replicate (size2 m) x)).

(** Modelled from the spec: [gsl_matrix_set_zero] of the matrix library. *)
Definition gsl_matrix_set_zero (m : gsl_matrix) : gsl_matrix :=
  gsl_matrix_set_all m 0%float.

(** Modelled from the spec: [gsl_matrix_set_identity] of the matrix
    library, 1 on the diagonal and 0 elsewhere. *)
Definition gsl_matrix_set_identity (m : gsl_matrix) : gsl_matrix :=
  with_rows m
    ((fun i => (fun j => if (i =? j)%nat then 1%float else 0%float)
                 <$> seq 0 (size2 m)) <$> seq 0 (size1 m)).

(** Modelled from the spec: [gsl_matrix_memcpy (dest, src)] of the matrix
    library, which refuses matrices of different sizes. *)
Definition gsl_matrix_memcpy (dest src : gsl_matrix) : gsl_matrix :=
  if ((size1 dest =? size1 src) && (size2 dest =? size2 src))%nat
  then with_rows dest (rows src) else dest.

(** Modelled from the spec: [gsl_matrix_transpose_memcpy (dest, src)] of
    the matrix library, refused unless [dest] has the transposed sizes. *)
Definition gsl_matrix_transpose_memcpy (dest src : gsl_matrix) : gsl_matrix :=
  if ((size2 dest =? size1 src) && (size1 dest =? size2 src))%nat
  then with_rows dest
         ((fun i => (fun j => gsl_matrix_get src j i) <$> seq 0 (size2 dest))
            <$> seq 0 (size1 dest))
  else dest.

(** Modelled from the spec: [gsl_matrix_row (m, i)] of the matrix library. *)
Definition gsl_matrix_row (m : gsl_matrix) (i : nat) : gsl_vector :=
  default [] (rows m !! i).

(** The write back through a row view. *)
Definition put_row (m : gsl_matrix) (i : nat) (v : gsl_vector) : gsl_matrix :=
  with_rows m (<[i := v]> (rows m)).

(** Modelled from the spec: [gsl_matrix_column (m, j)] of the matrix
    library. *)
Definition gsl_matrix_column (m : gsl_matrix) (j : nat) : gsl_vector :=
  (fun r => gsl_vector_get r j) <$> rows m.

(** The write back through a column view. *)
Definition put_column (m : gsl_matrix) (j : nat) (v : gsl_vector) : gsl_matrix :=
  with_rows m (imap (fun i r => <[j := gsl_vector_get v i]> r) (rows m)).

(** Modelled from the spec: [gsl_matrix_subcolumn (m, j, off, n)] of the
    matrix library, the rows [off .. off+n) of column [j]. *)
Definition gsl_matrix_subcolumn (m : gsl_matrix) (j off n : nat) : gsl_vector :=
  take n (drop off (gsl_matrix_column m j)).

(** The write back through a subcolumn view. *)
Definition put_subcolumn (m : gsl_matrix) (j off : nat) (v : gsl_vector) : gsl_matrix :=
  with_rows m
    (imap (fun i r => if ((off <=? i) && (i <? off + length v))%nat
                      then <[j := gsl_vector_get v (i - off)]> r else r)
          (rows m)).

(** Modelled from the spec: [gsl_matrix_superdiagonal (m, k)] of the matrix
    library, the entries [(i, i+k)] for [i < GSL_MIN (size1, size2 - k)]. *)
Definition superdiagonal_length (m : gsl_matrix) (k : nat) : nat :=
  GSL_MIN (size1 m) (size2 m - k).

Definition gsl_matrix_superdiagonal (m : gsl_matrix) (k : nat) : gsl_vector :=
  (fun i => gsl_matrix_get m i (i + k)) <$> seq 0 (superdiagonal_length m k).

(** The write back through a superdiagonal view. *)
Definition put_superdiagonal (m : gsl_matrix) (k : nat) (v : gsl_vector) : gsl_matrix :=
  with_rows m
    (imap (fun i r => if (i <? length v)%nat
                      then <[i + k := gsl_vector_get v i]> r else r)
          (rows m)).

(** Modelled from the spec: [gsl_matrix_submatrix (m, i, j, n1, n2)] of the
    matrix library, the n1-by-n2 block whose upper-left corner is [(i,j)]. *)
Definition gsl_matrix_submatrix (m : gsl_matrix) (i j n1 n2 : nat) : gsl_matrix :=
  {| size1 := n1; size2 := n2;
     rows := (fun r => take n2 (drop j r)) <$> take n1 (drop i (rows m)) |}.

(** The write back through a submatrix view. *)
Definition put_submatrix (m : gsl_matrix) (i j : nat) (s : gsl_matrix) : gsl_matrix :=
  with_rows m
    (imap (fun k r => if ((i <=? k) && (k <? i + size1 s))%nat
                      then put_subvector r j (gsl_matrix_row s (k - i)) else r)
          (rows m)).

(** ** The workspace *)

(** Modelled from the spec: [gsl_multifit_linear_workspace] of
    [gsl_multifit.h] (not among the sources), with the bounds, the current
    sizes and the buffers [multireg.c] touches. Every buffer is an
    allocation of its own. *)
Record gsl_multifit_linear_workspace : Type := Workspace {
  work_nmax : nat;        (* maximum number of observations *)
  work_pmax : nat;        (* maximum number of parameters *)
  work_n : nat;           (* number of observations in current SVD *)
  work_p : nat;           (* number of parameters in current SVD *)
  work_A : gsl_matrix;    (* least squares matrix for SVD, nmax-by-pmax *)
  work_Q : gsl_matrix;    (* pmax-by-pmax *)
  work_QSI : gsl_matrix;  (* pmax-by-pmax *)
  work_S : gsl_vector;    (* singular values, pmax *)
  work_t : gsl_vector;    (* nmax *)
  work_xt : gsl_vector;   (* pmax *)
  work_D : gsl_vector;    (* column scaling, pmax *)
  work_Linv : gsl_matrix  (* pmax-by-pmax *)
}.

Definition set_work_A (w : gsl_multifit_linear_workspace) (a : gsl_matrix) :=
  Workspace (work_nmax w) (work_pmax w) (work_n w) (work_p w) a (work_Q w)
    (work_QSI w) (work_S w) (work_t w) (work_xt w) (work_D w) (work_Linv w).
Definition set_work_Q (w : gsl_multifit_linear_workspace) (q : gsl_matrix) :=
  Workspace (work_nmax w) (work_pmax w) (work_n w) (work_p w) (work_A w) q
    (work_QSI w) (work_S w) (work_t w) (work_xt w) (work_D w) (work_Linv w).
Definition set_work_QSI (w : gsl_multifit_linear_workspace) (q : gsl_matrix) :=
  Workspace (work_nmax w) (work_pmax w) (work_n w) (work_p w) (work_A w) (work_Q w)
    q (work_S w) (work_t w) (work_xt w) (work_D w) (work_Linv w).
Definition set_work_t (w : gsl_multifit_linear_workspace) (v : gsl_vector) :=
  Workspace (work_nmax w) (work_pmax w) (work_n w) (work_p w) (work_A w) (work_Q w)
    (work_QSI w) (work_S w) v (work_xt w) (work_D w) (work_Linv w).
Definition set_work_xt (w : gsl_multifit_linear_workspace) (v : gsl_vector) :=
  Workspace (work_nmax w) (work_pmax w) (work_n w) (work_p w) (work_A w) (work_Q w)
    (work_QSI w) (work_S w) (work_t w) v (work_D w) (work_Linv w).
Definition set_work_D (w : gsl_multifit_linear_workspace) (v : gsl_vector) :=
  Workspace (work_nmax w) (work_pmax w) (work_n w) (work_p w) (work_A w) (work_Q w)
    (work_QSI w) (work_S w) (work_t w) (work_xt w) v (work_Linv w).
Definition set_work_Linv (w : gsl_multifit_linear_workspace) (l : gsl_matrix) :=
  Workspace (work_nmax w) (work_pmax w) (work_n w) (work_p w) (work_A w) (work_Q w)
    (work_QSI w) (work_S w) (work_t w) (work_xt w) (work_D w) l.

(** ** Standard form for a diagonal regularization matrix

    [gsl_multifit_linear_wstdform1 (L, X, w, y, Xs, ys, work)]; [L] and
    [w] may be [NULL] ([None]). Returns the status and the contents of
    [Xs] and [ys] at the return. *)

(** Body of the loop over the rows: [Xs(i,:) *= sqrt(w_i)], [ys_i *= sqrt(w_i)]. *)
Definition wstdform1_weight_row (w : gsl_vector) (i : nat)
    (st : gsl_matrix * gsl_vector) : gsl_matrix * gsl_vector :=
  let '(Xs, ys) := st in
  let wi := gsl_vector_get w i in
  let wi := if (wi <? 0)%float then 0%float else wi in
  let swi := PrimFloat.sqrt wi in
  let Xs := put_row Xs i (gsl_vector_scale (gsl_matrix_row Xs i) swi) in
  let ys := gsl_vector_set ys i (gsl_vector_get ys i * swi)%float in
  (Xs, ys).

(** Body of the loop over the columns; a zero [l_j] returns [GSL_EDOM] from
    inside the loop, so the later columns are skipped once the status is
    an error. *)
Definition wstdform1_scale_column (L : gsl_vector) (j : nat)
    (st : gsl_status * gsl_matrix) : gsl_status * gsl_matrix :=
  let '(status, Xs) := st in
  if is_success status then
    let lj := gsl_vector_get L j in
    if (lj =? 0)%float then (GSL_EDOM, Xs)
    else (GSL_SUCCESS,
          put_column Xs j (gsl_vector_scale (gsl_matrix_column Xs j) (1 / lj)%float))
  else st.

Definition gsl_multifit_linear_wstdform1
    (L : option gsl_vector) (X : gsl_matrix) (w : option gsl_vector)
    (y : gsl_vector) (Xs : gsl_matrix) (ys : gsl_vector)
    (work : gsl_multifit_linear_workspace)
  : gsl_status * gsl_matrix * gsl_vector :=
  let n := size1 X in
  let p := size2 X in
  if ((work_nmax work <? n) || (work_pmax work <? p))%nat then
    (GSL_EBADLEN, Xs, ys)   (* observation matrix larger than workspace *)
  else if match L with Some l => negb (p =? length l)%nat | None => false end then
    (GSL_EBADLEN, Xs, ys)   (* L vector does not match X *)
  else if negb (n =? length y)%nat then
    (GSL_EBADLEN, Xs, ys)   (* y vector does not match X *)
  else if match w with Some wv => negb (n =? length wv)%nat | None => false end then
    (GSL_EBADLEN, Xs, ys)   (* weight vector does not match X *)
  else if (negb (n =? size1 Xs) || negb (p =? size2 Xs))%nat then
    (GSL_EBADLEN, Xs, ys)   (* Xs matrix dimensions do not match X *)
  else if negb (n =? length ys)%nat then
    (GSL_EBADLEN, Xs, ys)   (* ys vector must be length n *)
  else
    let Xs := gsl_matrix_memcpy Xs X in
    let ys := gsl_vector_memcpy ys y in
    let '(Xs, ys) :=
      match w with
      | Some wv => for_loop 0 n (wstdform1_weight_row wv) (Xs, ys)
      | None => (Xs, ys)
      end in
    let '(status, Xs) :=
      match L with
      | Some l => for_loop 0 p (wstdform1_scale_column l) (GSL_SUCCESS, Xs)
      | None => (GSL_SUCCESS, Xs)
      end in
    (status, Xs, ys).

(** ** Back-transformation for a diagonal regularization matrix

    [gsl_multifit_linear_genform1 (L, cs, c, work)]; returns the status
    and the contents of [c]. *)
Definition gsl_multifit_linear_genform1
    (L cs c : gsl_vector) (work : gsl_multifit_linear_workspace)
  : gsl_status * gsl_vector :=
  if (work_pmax work <? length L)%nat then
    (GSL_EBADLEN, c)   (* L vector does not match workspace *)
  else if negb (length L =? length cs)%nat then
    (GSL_EBADLEN, c)   (* cs vector does not match L *)
  else if negb (length L =? length c)%nat then
    (GSL_EBADLEN, c)   (* c vector does not match L *)
  else
    let c := gsl_vector_memcpy c cs in
    let c := gsl_vector_div c L in
    (GSL_SUCCESS, c).

(** ** Derivative operators

    [gsl_multifit_linear_Lk (p, k, L)]; returns the status and the
    contents of [L]. *)
Definition GSL_MULTIFIT_MAXK : nat := 100.

(** One sweep [for (j = 0; j < k + 1; ++j)] of the coefficient recurrence;
    the state is the coefficient vector and [cjm1]. *)
Definition Lk_coeff_step (j : nat) (st : gsl_vector * float) : gsl_vector * float :=
  let '(cv, cjm1) := st in
  let cj := gsl_vector_get cv j in
  (gsl_vector_set cv j (cjm1 - cj)%float, cj).

Definition Lk_coeff_sweep (k : nat) (i : nat) (cv : gsl_vector) : gsl_vector :=
  fst (for_loop 0 (k + 1) Lk_coeff_step (cv, 0%float)).

(** [gsl_vector_set_all (&v.vector, ci)] on the [i]-th superdiagonal. *)
Definition Lk_fill_diagonal (cv : gsl_vector) (i : nat) (L : gsl_matrix) : gsl_matrix :=
  let v := gsl_matrix_superdiagonal L i in
  let ci := gsl_vector_get cv i in
  put_superdiagonal L i (gsl_vector_set_all v ci).

Definition gsl_multifit_linear_Lk (p k : nat) (L : gsl_matrix)
  : gsl_status * gsl_matrix :=
  if (p <=? k)%nat then
    (GSL_EBADLEN, L)   (* p must be larger than derivative order *)
  else if (GSL_MULTIFIT_MAXK - 1 <=? k)%nat then
    (GSL_EBADLEN, L)   (* derivative order k too large *)
  else if (negb (p - k =? size1 L) || negb (p =? size2 L))%nat then
    (GSL_EBADLEN, L)   (* L matrix must be (p-k)-by-p *)
  else if (k =? 0)%nat then
    (GSL_SUCCESS, gsl_matrix_set_identity L)
  else
    let L := gsl_matrix_set_zero L in
    let cv := gsl_vector_set_zero (replicate (k + 1) 0%float) in
    let cv := gsl_vector_set cv 0 (-1)%float in
    let cv := gsl_vector_set cv 1 1%float in
    let cv := for_loop 1 k (Lk_coeff_sweep k) cv in
    let L := for_loop 0 (k + 1) (Lk_fill_diagonal cv) L in
    (GSL_SUCCESS, L).

(** ** Corner of the L-curve

    [gsl_multifit_linear_lcorner] and [gsl_multifit_linear_lcorner2] run
    the same loop on different coordinates. The loop state is the previous
    point [(x1,y1)], the current point [(x2,y2)], the smallest radius so
    far [rmin] and the cell [*idx]. *)
Record corner_state : Type := CornerState {
  st_x1 : float; st_y1 : float;
  st_x2 : float; st_y2 : float;
  st_rmin : float;
  st_idx : nat
}.

(** Radius of the circle through [(x1,y1)], [(x2,y2)], [(x3,y3)], as the
    loop body computes [r]. *)
Definition circle_radius (x1 y1 x2 y2 x3 y3 : float) : float :=
  (let x21 := x2 - x1 in
   let y21 := y2 - y1 in
   let x31 := x3 - x1 in
   let y31 := y3 - y1 in
   let h21 := x21*x21 + y21*y21 in
   let h31 := x31*x31 + y31*y31 in
   let d := abs (2 * (x21*y31 - x31*y21)) in
   PrimFloat.sqrt (h21*h31*((x3-x2)*(x3-x2)+(y3-y2)*(y3-y2))) / d)%float.

(** The loop body once the next point [(x3,y3)] has been read. *)
Definition corner_step (x3 y3 : float) (i : nat) (st : corner_state) : corner_state :=
  let r := circle_radius (st_x1 st) (st_y1 st) (st_x2 st) (st_y2 st) x3 y3 in
  let '(rmin, idx) :=
    if gsl_finite r then
      if ((r <? st_rmin st)%float || (st_rmin st <? 0)%float)
      then (r, i)
      else (st_rmin st, st_idx st)
    else (st_rmin st, st_idx st) in
  {| st_x1 := st_x2 st; st_y1 := st_y2 st;
     st_x2 := x3; st_y2 := y3;
     st_rmin := rmin; st_idx := idx |}.

(** After the loop: [GSL_EINVAL] when no minimum radius was found. *)
Definition corner_result (st : corner_state) : gsl_status * nat :=
  if (st_rmin st <? 0)%float
  then (GSL_EINVAL, st_idx st)   (* failed to find minimum radius *)
  else (GSL_SUCCESS, st_idx st).

(** [gsl_multifit_linear_lcorner2 (reg_param, eta, idx)]; [idx] is the
    value the cell [*idx] holds at the call, the second component of the
    result the value it holds at the return. *)
Definition lcorner2_body (reg_param eta : gsl_vector) (i : nat)
    (st : corner_state) : corner_state :=
  let lamip1 := gsl_vector_get reg_param (i + 1) in
  let etaip1 := gsl_vector_get eta (i + 1) in
  let x3 := (lamip1 * lamip1)%float in
  let y3 := (etaip1 * etaip1)%float in
  corner_step x3 y3 i st.

Definition gsl_multifit_linear_lcorner2 (reg_param eta : gsl_vector) (idx : nat)
  : gsl_status * nat :=
  let n := length reg_param in
  if (n <? 3)%nat then
    (GSL_EBADLEN, idx)   (* at least 3 points are needed for L-curve analysis *)
  else if negb (n =? length eta)%nat then
    (GSL_EBADLEN, idx)   (* size of reg_param and eta vectors do not match *)
  else
    let x1 := gsl_vector_get reg_param 0 in
    let x1 := (x1 * x1)%float in
    let y1 := gsl_vector_get eta 0 in
    let y1 := (y1 * y1)%float in
    let x2 := gsl_vector_get reg_param 1 in
    let x2 := (x2 * x2)%float in
    let y2 := gsl_vector_get eta 1 in
    let y2 := (y2 * y2)%float in
    let st := {| st_x1 := x1; st_y1 := y1; st_x2 := x2; st_y2 := y2;
                 st_rmin := (-1)%float; st_idx := idx |} in
    corner_result (for_loop 1 (n - 1) (lcorner2_body reg_param eta) st).

(** ** The functions that call the C library

    [log] and [pow] of [math.h]. *)
Section Libm.

Variable log : float -> float.
Variable pow : float -> float -> float.

(** [gsl_multifit_linear_lcorner (rho, eta, idx)] *)
Definition lcorner_body (rho eta : gsl_vector) (i : nat)
    (st : corner_state) : corner_state :=
  let x3 := log (gsl_vector_get rho (i + 1)) in
  let y3 := log (gsl_vector_get eta (i + 1)) in
  corner_step x3 y3 i st.

Definition gsl_multifit_linear_lcorner (rho eta : gsl_vector) (idx : nat)
  : gsl_status * nat :=
  let n := length rho in
  if (n <? 3)%nat then
    (GSL_EBADLEN, idx)   (* at least 3 points are needed for L-curve analysis *)
  else if negb (n =? length eta)%nat then
    (GSL_EBADLEN, idx)   (* size of rho and eta vectors do not match *)
  else
    let x1 := log (gsl_vector_get rho 0) in
    let y1 := log (gsl_vector_get eta 0) in
    let x2 := log (gsl_vector_get rho 1) in
    let y2 := log (gsl_vector_get eta 1) in
    let st := {| st_x1 := x1; st_y1 := y1; st_x2 := x2; st_y2 := y2;
                 st_rmin := (-1)%float; st_idx := idx |} in
    corner_result (for_loop 1 (n - 1) (lcorner_body rho eta) st).

(** [gsl_multifit_linear_lreg (smin, smax, reg_param)]; returns the status
    and the contents of [reg_param].

    The loop [for (i = N - 1; i > 0 && i--; )] runs its body with
    [i = N-2, ..., 0]. *)
Fixpoint lreg_loop (ratio : float) (i : nat) (reg_param : gsl_vector) : gsl_vector :=
  match i with
  | O => reg_param
  | S i =>
      let rp1 := gsl_vector_get reg_param (i + 1) in
      lreg_loop ratio i (gsl_vector_set reg_param i (ratio * rp1)%float)
  end.

Definition gsl_multifit_linear_lreg (smin smax : float) (reg_param : gsl_vector)
  : gsl_status * gsl_vector :=
  if (smax <=? 0)%float then
    (GSL_EINVAL, reg_param)   (* smax must be positive *)
  else
    let N := length reg_param in
    let smin_ratio := (16 * GSL_DBL_EPSILON)%float in
    let new_smin := GSL_MAX smin (smax * smin_ratio)%float in
    let reg_param := gsl_vector_set reg_param (size_sub N 1) new_smin in
    let ratio := pow (smax / new_smin)%float (1 / (double_of_size N - 1))%float in
    let reg_param := lreg_loop ratio (size_sub N 1) reg_param in
    (GSL_SUCCESS, reg_param).

End Libm.

(** ** The linear-algebra kernels

    The BLAS and QR routines [multireg.c] calls are not among the sources;
    they are parameters, collected in a record. A routine that works in
    place returns the new contents of the argument it overwrites. *)

(** Modelled from the spec: the flags of [gsl_cblas.h]. *)
Inductive CBLAS_UPLO : Set := CblasUpper | CblasLower.
Inductive CBLAS_TRANSPOSE : Set := CblasNoTrans | CblasTrans.
Inductive CBLAS_DIAG : Set := CblasNonUnit | CblasUnit.

Record linalg : Type := Linalg {
  (* ||x||_2 *)
  gsl_blas_dnrm2 : gsl_vector -> float;
  (* y := alpha op(A) x + beta y *)
  gsl_blas_dgemv : CBLAS_TRANSPOSE -> float -> gsl_matrix -> gsl_vector ->
                   float -> gsl_vector -> gsl_vector;
  (* C := alpha op(A) op(B) + beta C *)
  gsl_blas_dgemm : CBLAS_TRANSPOSE -> CBLAS_TRANSPOSE -> float -> gsl_matrix ->
                   gsl_matrix -> float -> gsl_matrix -> gsl_matrix;
  (* x := inv(op(A)) x *)
  gsl_blas_dtrsv : CBLAS_UPLO -> CBLAS_TRANSPOSE -> CBLAS_DIAG -> gsl_matrix ->
                   gsl_vector -> gsl_vector;
  (* (A, tau) := packed QR factorization of A *)
  gsl_linalg_QR_decomp : gsl_matrix -> gsl_vector ->
                         gsl_status * gsl_matrix * gsl_vector;
  (* A := (I - tau v v^T) A *)
  gsl_linalg_householder_hm : float -> gsl_vector -> gsl_matrix -> gsl_matrix;
  (* v := Q^T v *)
  gsl_linalg_QR_QTvec : gsl_matrix -> gsl_vector -> gsl_vector -> gsl_vector;
  (* A := Q^T A *)
  gsl_linalg_QR_QTmat : gsl_matrix -> gsl_vector -> gsl_matrix -> gsl_matrix
}.

(** Modelled from the spec: [gsl_matrix_alloc] and [gsl_vector_alloc],
    which return storage with unspecified contents; every buffer allocated
    below is overwritten in full before it is read, and the embedding
    starts it at zero. *)
Definition gsl_matrix_alloc (n1 n2 : nat) : gsl_matrix :=
  {| size1 := n1; size2 := n2; rows := replicate n1 (replicate n2 0%float) |}.

Definition gsl_vector_alloc (n : nat) : gsl_vector := replicate n 0%float.

(** What [gsl_multifit_linear_wstdform2] can write. *)
Record stdform2_out : Type := Stdform2Out {
  out_Xs : gsl_matrix;
  out_ys : gsl_vector;
  out_M : gsl_matrix;
  out_work : gsl_multifit_linear_workspace
}.

(** What [gsl_multifit_linear_lcurve] can write. *)
Record lcurve_out : Type := LcurveOut {
  out_reg_param : gsl_vector;
  out_rho : gsl_vector;
  out_eta : gsl_vector;
  out_lwork : gsl_multifit_linear_workspace
}.

Section LinearAlgebra.

Variable pow : float -> float -> float.
Variable K : linalg.

(** [gsl_linalg_Q_unpack (QR, tau, Q)]: the loop
    [for (i = GSL_MIN (M, N); i-- > 0;)] runs its body with
    [i = GSL_MIN (M, N) - 1, ..., 0]. *)
Fixpoint Q_unpack_loop (QR : gsl_matrix) (tau : gsl_vector) (i : nat)
    (Q : gsl_matrix) : gsl_matrix :=
  match i with
  | O => Q
  | S i =>
      let M := size1 QR in
      let c := gsl_matrix_column QR i in
      let h := gsl_vector_subvector c i (M - i) in
      let m := gsl_matrix_submatrix Q i i (M - i) (M - i) in
      let ti := gsl_vector_get tau i in
      let m := gsl_linalg_householder_hm K ti h m in
      Q_unpack_loop QR tau i (put_submatrix Q i i m)
  end.

Definition gsl_linalg_Q_unpack (QR : gsl_matrix) (tau : gsl_vector) (Q : gsl_matrix)
  : gsl_status * gsl_matrix :=
  let M := size1 QR in
  let N := size2 QR in
  if (negb (size1 Q =? M) || negb (size2 Q =? M))%nat then
    (GSL_ENOTSQR, Q)   (* Q matrix must be M x M *)
  else if negb (length tau =? GSL_MIN M N)%nat then
    (GSL_EBADLEN, Q)   (* size of tau must be MIN(M,N) *)
  else
    let Q := gsl_matrix_set_identity Q in
    (GSL_SUCCESS, Q_unpack_loop QR tau (GSL_MIN M N) Q).

(** Row [i] of [Xs] solved against [R^T]. *)
Definition wstdform2_solve_row (R : gsl_matrix) (i : nat) (Xs : gsl_matrix) : gsl_matrix :=
  let v := gsl_matrix_row Xs i in
  put_row Xs i (gsl_blas_dtrsv K CblasUpper CblasTrans CblasNonUnit R v).

(** Row [i] of the view [Lp] of [work->Linv] solved against the view
    [Rp] of [work->Q]. *)
Definition wstdform2_Linv_row (p m : nat) (i : nat)
    (work : gsl_multifit_linear_workspace) : gsl_multifit_linear_workspace :=
  let Rp := gsl_matrix_submatrix (gsl_matrix_submatrix (work_Q work) 0 0 p m) 0 0 m m in
  let Lp := gsl_matrix_submatrix (work_Linv work) 0 0 p m in
  let x := gsl_matrix_row Lp i in
  let Lp := put_row Lp i (gsl_blas_dtrsv K CblasUpper CblasNoTrans CblasNonUnit Rp x) in
  set_work_Linv work (put_submatrix (work_Linv work) 0 0 Lp).

(** Column [i] of [M1] solved against [To]. *)
Definition wstdform2_M1_column (To : gsl_matrix) (i : nat) (M1 : gsl_matrix) : gsl_matrix :=
  let x := gsl_matrix_column M1 i in
  put_column M1 i (gsl_blas_dtrsv K CblasUpper CblasNoTrans CblasNonUnit To x).

(** [gsl_multifit_linear_wstdform2 (L, X, w, y, Xs, ys, M, work)] *)
Definition gsl_multifit_linear_wstdform2
    (L X : gsl_matrix) (w : option gsl_vector) (y : gsl_vector)
    (Xs : gsl_matrix) (ys : gsl_vector) (M : gsl_matrix)
    (work : gsl_multifit_linear_workspace)
  : gsl_status * stdform2_out :=
  let m := size1 L in
  let n := size1 X in
  let p := size2 X in
  if ((work_nmax work <? n) || (work_pmax work <? p))%nat then
    (GSL_EBADLEN, Stdform2Out Xs ys M work)   (* observation matrix larger than workspace *)
  else if negb (p =? size2 L)%nat then
    (GSL_EBADLEN, Stdform2Out Xs ys M work)   (* L and X have different numbers of columns *)
  else if negb (n =? length y)%nat then
    (GSL_EBADLEN, Stdform2Out Xs ys M work)   (* y vector does not match X *)
  else if match w with Some wv => negb (n =? length wv)%nat | None => false end then
    (GSL_EBADLEN, Stdform2Out Xs ys M work)   (* weights vector must be length n *)
  else if (p <=? m)%nat then
    (* square or tall L matrix *)
    if (negb (n =? size1 Xs) || negb (p =? size2 Xs))%nat then
      (GSL_EBADLEN, Stdform2Out Xs ys M work)   (* Xs matrix must be n-by-p *)
    else if negb (n =? length ys)%nat then
      (GSL_EBADLEN, Stdform2Out Xs ys M work)   (* ys vector must have length n *)
    else if (negb (m =? size1 M) || negb (p =? size2 M))%nat then
      (GSL_EBADLEN, Stdform2Out Xs ys M work)   (* M matrix must be m-by-p *)
    else
      let tau := gsl_vector_subvector (work_xt work) 0 (GSL_MIN m p) in
      let M := gsl_matrix_set_zero M in
      (* compute QR decomposition of L *)
      let QR := gsl_matrix_memcpy (gsl_matrix_submatrix M 0 0 m p) L in
      let '(status, QR, tau) := gsl_linalg_QR_decomp K QR tau in
      let M := put_submatrix M 0 0 QR in
      let work := set_work_xt work (put_subvector (work_xt work) 0 tau) in
      if negb (is_success status) then (status, Stdform2Out Xs ys M work)
      else
        let '(status, Xs, ys) :=
          match w with
          | Some wv =>
              (* compute Xs = sqrt(W) X and ys = sqrt(W) y *)
              gsl_multifit_linear_wstdform1 None X (Some wv) y Xs ys work
          | None =>
              let ys := gsl_vector_memcpy ys y in
              let Xs := gsl_matrix_memcpy Xs X in
              (GSL_SUCCESS, Xs, ys)
          end in
        if negb (is_success status) then (status, Stdform2Out Xs ys M work)
        else
          (* compute X~ = X R^{-1} using QR decomposition of L *)
          let R := gsl_matrix_submatrix M 0 0 p p in
          let Xs := for_loop 0 n (wstdform2_solve_row R) Xs in
          (GSL_SUCCESS, Stdform2Out Xs ys M work)
  else
    (* L matrix with m < p *)
    let pm := p - m in
    let npm := size_sub n pm in
    if (negb (npm =? size1 Xs) || negb (m =? size2 Xs))%nat then
      (GSL_EBADLEN, Stdform2Out Xs ys M work)   (* Xs matrix must be (n-p+m)-by-m *)
    else if negb (npm =? length ys)%nat then
      (GSL_EBADLEN, Stdform2Out Xs ys M work)   (* ys vector must be of length (n-p+m) *)
    else if (negb (p =? size1 M) || negb (n =? size2 M))%nat then
      (GSL_EBADLEN, Stdform2Out Xs ys M work)   (* M matrix must be p-by-n *)
    else
      let K_ := gsl_matrix_alloc p p in
      let H := gsl_matrix_alloc n n in
      let M1 := gsl_matrix_alloc pm n in
      let X1 := gsl_matrix_alloc n p in
      let y1 := gsl_vector_alloc n in
      match w with
      | Some wv =>
          (* weights not yet supported for general L; the statements after
             GSL_ERROR in this branch are never reached *)
          (GSL_EINVAL, Stdform2Out Xs ys M work)
      | None =>
          let y1 := gsl_vector_memcpy y1 y in
          let X1 := gsl_matrix_memcpy X1 X in
          (* compute QR decomposition [K,R] = qr(L^T) *)
          let tauv1 := gsl_vector_subvector (work_xt work) 0 (GSL_MIN p m) in
          let LT := gsl_matrix_transpose_memcpy
                      (gsl_matrix_submatrix (work_Q work) 0 0 p m) L in
          let '(status, LT, tauv1) := gsl_linalg_QR_decomp K LT tauv1 in
          let work := set_work_Q work (put_submatrix (work_Q work) 0 0 LT) in
          let work := set_work_xt work (put_subvector (work_xt work) 0 tauv1) in
          if negb (is_success status) then (status, Stdform2Out Xs ys M work)
          else
            let K_ := snd (gsl_linalg_Q_unpack LT tauv1 K_) in
            let Ko := gsl_matrix_submatrix K_ 0 m p pm in
            let Kp := gsl_matrix_submatrix K_ 0 0 p m in
            (* compute QR decomposition [H,T] = qr(X * K_o) *)
            let tauv2 := gsl_vector_subvector (work_t work) 0 (GSL_MIN n pm) in
            let B := gsl_matrix_submatrix (work_A work) 0 0 n pm in
            let B := gsl_blas_dgemm K CblasNoTrans CblasNoTrans 1%float X1 Ko 0%float B in
            let '(_, B, tauv2) := gsl_linalg_QR_decomp K B tauv2 in
            let work := set_work_A work (put_submatrix (work_A work) 0 0 B) in
            let work := set_work_t work (put_subvector (work_t work) 0 tauv2) in
            let H := snd (gsl_linalg_Q_unpack B tauv2 H) in
            let Ho := gsl_matrix_submatrix H 0 0 n pm in
            let To := gsl_matrix_submatrix B 0 0 pm pm in
            (* solve: R_p L_inv^T = K_p^T for L_inv *)
            let Lp := gsl_matrix_memcpy (gsl_matrix_submatrix (work_Linv work) 0 0 p m) Kp in
            let work := set_work_Linv work (put_submatrix (work_Linv work) 0 0 Lp) in
            let work := for_loop 0 p (wstdform2_Linv_row p m) work in
            (* compute: ys = H_q^T y *)
            let y1 := gsl_linalg_QR_QTvec K B tauv2 y1 in
            let ys := gsl_vector_memcpy ys (gsl_vector_subvector y1 pm npm) in
            (* compute: M1 = inv(T_o) * H_o^T *)
            let M1 := gsl_matrix_transpose_memcpy M1 Ho in
            let M1 := for_loop 0 n (wstdform2_M1_column To) M1 in
            (* compute: M = K_o * M1 *)
            let M := gsl_blas_dgemm K CblasNoTrans CblasNoTrans 1%float Ko M1 0%float M in
            (* compute: C = H_q^T X *)
            let X1 := gsl_linalg_QR_QTmat K B tauv2 X1 in
            let C := gsl_matrix_memcpy (gsl_matrix_submatrix (work_A work) 0 0 npm p)
                       (gsl_matrix_submatrix X1 pm 0 npm p) in
            let work := set_work_A work (put_submatrix (work_A work) 0 0 C) in
            (* compute: Xs = C * L_inv *)
            let Lp := gsl_matrix_submatrix (work_Linv work) 0 0 p m in
            let Xs := gsl_blas_dgemm K CblasNoTrans CblasNoTrans 1%float C Lp 0%float Xs in
            (GSL_SUCCESS, Stdform2Out Xs ys M work)
      end.

(** ** The L-curve

    [gsl_multifit_linear_lcurve (y, reg_param, rho, eta, work)]. The
    views [workp] (first column of [work->QSI]) and [workp2] (head of
    [work->D]) are carried through the loops as vectors and written back
    to their buffers after them. *)

(** Body of the loop over the singular values, for one [lambda_sq]. *)
Definition lcurve_filter (S xt : gsl_vector) (lambda_sq : float) (j : nat)
    (st : gsl_vector * gsl_vector) : gsl_vector * gsl_vector :=
  let '(workp, workp2) := st in
  let sj := gsl_vector_get S j in
  let xtj := gsl_vector_get xt j in
  let f := (sj / (sj*sj + lambda_sq))%float in
  let workp := gsl_vector_set workp j (f * xtj)%float in
  let workp2 := gsl_vector_set workp2 j ((1 - sj*f) * xtj)%float in
  (workp, workp2).

(** The state of the loop over the grid: [workp], [workp2], [rho], [eta]. *)
Definition lcurve_point (p : nat) (S xt reg_param : gsl_vector) (i : nat)
    (st : gsl_vector * gsl_vector * gsl_vector * gsl_vector)
  : gsl_vector * gsl_vector * gsl_vector * gsl_vector :=
  let '(workp, workp2, rho, eta) := st in
  let lambda := gsl_vector_get reg_param i in
  let lambda_sq := (lambda * lambda)%float in
  let '(workp, workp2) := for_loop 0 p (lcurve_filter S xt lambda_sq) (workp, workp2) in
  let eta := gsl_vector_set eta i (gsl_blas_dnrm2 K workp) in
  let rho := gsl_vector_set rho i (gsl_blas_dnrm2 K workp2) in
  (workp, workp2, rho, eta).

(** The correction to the residual norm. *)
Definition lcurve_correct (dr : float) (i : nat) (rho : gsl_vector) : gsl_vector :=
  let rhoi := gsl_vector_get rho i in
  gsl_vector_set rho i (PrimFloat.sqrt (rhoi*rhoi + dr))%float.

Definition gsl_multifit_linear_lcurve
    (y reg_param rho eta : gsl_vector) (work : gsl_multifit_linear_workspace)
  : gsl_status * lcurve_out :=
  let n := length y in
  let N := length rho in
  if negb (n =? work_n work)%nat then
    (GSL_EBADLEN, LcurveOut reg_param rho eta work)   (* y vector does not match workspace *)
  else if (N <? 3)%nat then
    (GSL_EBADLEN, LcurveOut reg_param rho eta work)   (* at least 3 points are needed *)
  else if negb (N =? length eta)%nat then
    (GSL_EBADLEN, LcurveOut reg_param rho eta work)   (* size of rho and eta do not match *)
  else if negb (length reg_param =? length eta)%nat then
    (GSL_EBADLEN, LcurveOut reg_param rho eta work)   (* size of reg_param and eta do not match *)
  else
    let p := work_p work in
    let A := gsl_matrix_submatrix (work_A work) 0 0 n p in
    let S := gsl_vector_subvector (work_S work) 0 p in
    let xt := gsl_vector_subvector (work_xt work) 0 p in
    let workp := gsl_matrix_subcolumn (work_QSI work) 0 0 p in
    let workp2 := gsl_vector_subvector (work_D work) 0 p in
    let smax := gsl_vector_get S 0 in
    let smin := gsl_vector_get S (size_sub p 1) in
    let normy := gsl_blas_dnrm2 K y in
    (* compute projection xt = U^T y *)
    let xt := gsl_blas_dgemv K CblasTrans 1%float A y 0%float xt in
    let work := set_work_xt work (put_subvector (work_xt work) 0 xt) in
    let normUTy := gsl_blas_dnrm2 K xt in
    let dr := (normy*normy - normUTy*normUTy)%float in
    (* calculate regularization parameters; the status is not looked at *)
    let reg_param := snd (gsl_multifit_linear_lreg pow smin smax reg_param) in
    let '(workp, workp2, rho, eta) :=
      for_loop 0 N (lcurve_point p S xt reg_param) (workp, workp2, rho, eta) in
    let work := set_work_QSI work (put_subcolumn (work_QSI work) 0 0 workp) in
    let work := set_work_D work (put_subvector (work_D work) 0 workp2) in
    let rho :=
      if ((p <? n)%nat && (0 <? dr)%float)
      then for_loop 0 N (lcurve_correct dr) rho   (* add correction to residual norm *)
      else rho in
    (* restore D to identity matrix *)
    let work := set_work_D work (gsl_vector_set_all (work_D work) 1%float) in
    (GSL_SUCCESS, LcurveOut reg_param rho eta work).

End LinearAlgebra.

(** ** Vocabulary of the statements *)

(** The two corner detectors, told apart by the coordinates they use; the
    first one carries the logarithm it calls. *)
Inductive corner_variant : Type :=
  | LogCurve (log : float -> float)   (* gsl_multifit_linear_lcorner *)
  | SquaredCurve.                     (* gsl_multifit_linear_lcorner2 *)

Definition lcorner_variant (v : corner_variant) (a eta : gsl_vector) (idx : nat)
  : gsl_status * nat :=
  match v with
  | LogCurve log => gsl_multifit_linear_lcorner log a eta idx
  | SquaredCurve => gsl_multifit_linear_lcorner2 a eta idx
  end.

(** The point of the curve at grid index [i]: [(log rho_i, log eta_i)],
    or [(lambda_i^2, eta_i^2)]. *)
Definition corner_point (v : corner_variant) (a eta : gsl_vector) (i : nat)
  : float * float :=
  match v with
  | LogCurve log => (log (gsl_vector_get a i), log (gsl_vector_get eta i))
  | SquaredCurve =>
      ((gsl_vector_get a i * gsl_vector_get a i)%float,
       (gsl_vector_get eta i * gsl_vector_get eta i)%float)
  end.

(** Radius of the circle through the points at [i-1], [i] and [i+1]. *)
Definition radius_at (pt : nat -> float * float) (i : nat) : float :=
  circle_radius (fst (pt (i - 1))) (snd (pt (i - 1)))
                (fst (pt i)) (snd (pt i))
                (fst (pt (i + 1))) (snd (pt (i + 1))).

(** [i] is an interior index of a curve of [n] points: [1 <= i <= n-2]. *)
Definition interior (n i : nat) : Prop := 1 <= i /\ i + 2 <= n.

(** Among the indices [1 .. k], [i] has a finite radius, no finite radius
    is below it, and every finite radius before [i] is above it: [i] is
    the first index of minimum finite radius. *)
Definition first_min_radius (pt : nat -> float * float) (k i : nat) : Prop :=
  (1 <= i <= k) /\
  gsl_finite (radius_at pt i) = true /\
  (forall j, 1 <= j <= k -> gsl_finite (radius_at pt j) = true ->
             (radius_at pt j <? radius_at pt i)%float = false) /\
  (forall j, 1 <= j < i -> gsl_finite (radius_at pt j) = true ->
             (radius_at pt i <? radius_at pt j)%float = true).

(** The weight the diagonal transform applies to row [i]: [sqrt(max(w_i,0))],
    and no factor at all when [w] is [NULL]. *)
Definition clamp_weight (wi : float) : float :=
  if (wi <? 0)%float then 0%float else wi.

Definition weight_factor (w : gsl_vector) (i : nat) : float :=
  PrimFloat.sqrt (clamp_weight (gsl_vector_get w i)).

Definition apply_weight (w : option gsl_vector) (i : nat) (x : float) : float :=
  match w with
  | Some wv => (x * weight_factor wv i)%float
  | None => x
  end.

(** The factor [1/l_j] of column [j], and no factor when [L] is [NULL]. *)
Definition apply_Linv (L : option gsl_vector) (j : nat) (x : float) : float :=
  match L with
  | Some l => (x * (1 / gsl_vector_get l j))%float
  | None => x
  end.

(** The first [k] entries of [l] are not zero ([+0] or [-0]). *)
Definition nonzero_below (l : gsl_vector) (k : nat) : Prop :=
  forall j, j < k -> (gsl_vector_get l j =? 0)%float = false.


(** The arguments of [gsl_multifit_linear_wstdform1] pass every shape check. *)
Definition wstdform1_shapes_ok (L : option gsl_vector) (X : gsl_matrix)
    (w : option gsl_vector) (y : gsl_vector) (Xs : gsl_matrix) (ys : gsl_vector)
    (work : gsl_multifit_linear_workspace) : Prop :=
  size1 X <= work_nmax work /\ size2 X <= work_pmax work /\
  (forall l, L = Some l -> length l = size2 X) /\
  length y = size1 X /\
  (forall wv, w = Some wv -> length wv = size1 X) /\
  size1 Xs = size1 X /\ size2 Xs = size2 X /\
  length ys = size1 X.

(** A grid is strictly decreasing. *)
Definition strictly_decreasing (g : gsl_vector) : Prop :=
  forall i, i + 1 < length g ->
    (gsl_vector_get g (i + 1) <? gsl_vector_get g i)%float = true.

(** What the C standard fixes of [pow] at base 1 (Annex F: [pow (+1, y)]
    returns 1 for any [y]). *)
Definition pow_unit_base (pow : float -> float -> float) : Prop :=
  forall y, pow 1%float y = 1%float.

(** Kernels that hand back their output argument untouched; they stand in
    for the linear-algebra library where a statement is instantiated and
    none of its routines matters. *)
Definition idle_linalg : linalg :=
  {| gsl_blas_dnrm2 := fun _ => 0%float;
     gsl_blas_dgemv := fun _ _ _ _ _ y => y;
     gsl_blas_dgemm := fun _ _ _ _ _ _ C => C;
     gsl_blas_dtrsv := fun _ _ _ _ x => x;
     gsl_linalg_QR_decomp := fun A tau => (GSL_SUCCESS, A, tau);
     gsl_linalg_householder_hm := fun _ _ A => A;
     gsl_linalg_QR_QTvec := fun _ _ v => v;
     gsl_linalg_QR_QTmat := fun _ _ A => A |}.

(** A workspace for [nmax] observations and [pmax] parameters, as
    allocated: zeroed buffers and [D] at its identity value. *)
Definition fresh_workspace (nmax pmax : nat) : gsl_multifit_linear_workspace :=
  {| work_nmax := nmax; work_pmax := pmax; work_n := 0; work_p := 0;
     work_A := gsl_matrix_alloc nmax pmax;
     work_Q := gsl_matrix_alloc pmax pmax;
     work_QSI := gsl_matrix_alloc pmax pmax;
     work_S := gsl_vector_alloc pmax;
     work_t := gsl_vector_alloc nmax;
     work_xt := gsl_vector_alloc pmax;
     work_D := replicate pmax 1%float;
     work_Linv := gsl_matrix_alloc pmax pmax |}.

(** ** Vocabulary of the proofs *)

(** Classes of the specification-level floats of [SpecFloat]. *)
Definition SF_ordered (x : spec_float) : Prop :=
  match x with S754_nan => False | _ => True end.

Definition SF_not_negative (x : spec_float) : Prop :=
  match x with
  | S754_infinity true | S754_finite true _ _ => False
  | _ => True
  end.

Definition SF_is_finite (x : spec_float) : bool :=
  match x with S754_zero _ | S754_finite _ _ _ => true | _ => false end.

(** The corner loop over an arbitrary curve [pt]. *)
Definition corner_loop_body (pt : nat -> float * float) (i : nat)
    (st : corner_state) : corner_state :=
  corner_step (fst (pt (i + 1))) (snd (pt (i + 1))) i st.

Definition corner_init (pt : nat -> float * float) (idx0 : nat) : corner_state :=
  {| st_x1 := fst (pt 0); st_y1 := snd (pt 0);
     st_x2 := fst (pt 1); st_y2 := snd (pt 1);
     st_rmin := (-1)%float; st_idx := idx0 |}.

(** The loop state after the iterations [1 .. k]: the two last points, and
    either no finite radius yet, [rmin] still negative and [*idx]
    untouched, or [*idx] at the first minimum radius and [rmin] that radius. *)
Definition corner_inv (pt : nat -> float * float) (idx0 : nat) (k : nat)
    (st : corner_state) : Prop :=
  st_x1 st = fst (pt k) /\ st_y1 st = snd (pt k) /\
  st_x2 st = fst (pt (S k)) /\ st_y2 st = snd (pt (S k)) /\
  (((forall j, 1 <= j <= k -> gsl_finite (radius_at pt j) = false) /\
    st_rmin st = (-1)%float /\ st_idx st = idx0)
   \/
   (first_min_radius pt k (st_idx st) /\ st_rmin st = radius_at pt (st_idx st))).

(** Closed forms of the two loops of the diagonal transform after [k]
    iterations. *)
Definition weight_rows (w : gsl_vector) (k : nat) (rs : list (list float))
  : list (list float) :=
  imap (fun i r => if (i <? k)%nat then gsl_vector_scale r (weight_factor w i) else r) rs.

Definition weight_entries (w : gsl_vector) (k : nat) (y : gsl_vector) : gsl_vector :=
  imap (fun i yi => if (i <? k)%nat then (yi * weight_factor w i)%float else yi) y.

Definition scale_columns (l : gsl_vector) (k : nat) (rs : list (list float))
  : list (list float) :=
  imap (fun j x => if (j <? k)%nat then (x * (1 / gsl_vector_get l j))%float else x)
    <$> rs.

Definition weighted_rows (w : option gsl_vector) (n : nat) (rs : list (list float))
  : list (list float) :=
  match w with Some wv => weight_rows wv n rs | None => rs end.

Definition weighted_entries (w : option gsl_vector) (n : nat) (y : gsl_vector)
  : gsl_vector :=
  match w with Some wv => weight_entries wv n y | None => y end.

(** The state of the loop over the columns after the columns [0 .. k):
    either every [l_j] so far was nonzero and those columns are divided,
    or the loop stopped at the first zero entry [j0]. *)
Definition column_loop_post (l : gsl_vector) (X0 : gsl_matrix) (k : nat)
    (st : gsl_status * gsl_matrix) : Prop :=
  size1 (snd st) = size1 X0 /\ size2 (snd st) = size2 X0 /\
  ((fst st = GSL_SUCCESS /\ nonzero_below l k /\
    rows (snd st) = scale_columns l k (rows X0))
   \/
   (fst st = GSL_EDOM /\
    exists j0, j0 < k /\ (gsl_vector_get l j0 =? 0)%float = true /\
               nonzero_below l j0 /\
               rows (snd st) = scale_columns l j0 (rows X0))).

(** ** The unweighted transforms

    [gsl_multifit_linear_stdform1] and [gsl_multifit_linear_stdform2]
    pass [w = NULL] to the weighted routines. *)
Definition gsl_multifit_linear_stdform1
    (L : option gsl_vector) (X : gsl_matrix) (y : gsl_vector)
    (Xs : gsl_matrix) (ys : gsl_vector) (work : gsl_multifit_linear_workspace)
  : gsl_status * gsl_matrix * gsl_vector :=
  gsl_multifit_linear_wstdform1 L X None y Xs ys work.

Definition gsl_multifit_linear_stdform2 (K : linalg)
    (L X : gsl_matrix) (y : gsl_vector) (Xs : gsl_matrix) (ys : gsl_vector)
    (M : gsl_matrix) (work : gsl_multifit_linear_workspace)
  : gsl_status * stdform2_out :=
  gsl_multifit_linear_wstdform2 K L X None y Xs ys M work.

(** ** Back-transformation for a general regularization matrix

    [gsl_multifit_linear_genform2 (L, X, y, cs, M, c, work)]; returns the
    status, the contents of [c] and the workspace. The status of
    [gsl_blas_dtrsv], which the square or tall branch returns, is a
    parameter beside the kernels. *)
Section BackTransform.

Variable K : linalg.
Variable gsl_blas_dtrsv_status :
  CBLAS_UPLO -> CBLAS_TRANSPOSE -> CBLAS_DIAG -> gsl_matrix -> gsl_vector -> gsl_status.

Definition gsl_multifit_linear_genform2
    (L X : gsl_matrix) (y cs : gsl_vector) (M : gsl_matrix) (c : gsl_vector)
    (work : gsl_multifit_linear_workspace)
  : gsl_status * gsl_vector * gsl_multifit_linear_workspace :=
  let m := size1 L in
  let n := size1 X in
  let p := size2 X in
  if ((work_nmax work <? n) || (work_pmax work <? p))%nat then
    (GSL_EBADLEN, c, work)   (* X matrix does not match workspace *)
  else if negb (p =? size2 L)%nat then
    (GSL_EBADLEN, c, work)   (* L matrix does not match X *)
  else if negb (p =? length c)%nat then
    (GSL_EBADLEN, c, work)   (* c vector does not match X *)
  else if negb (n =? length y)%nat then
    (GSL_EBADLEN, c, work)   (* y vector does not match X *)
  else if (p <=? m)%nat then
    (* square or tall L matrix *)
    if negb (p =? length cs)%nat then
      (GSL_EBADLEN, c, work)   (* cs vector must be length p *)
    else if (negb (m =? size1 M) || negb (p =? size2 M))%nat then
      (GSL_EBADLEN, c, work)   (* M matrix must be m-by-p *)
    else
      let R := gsl_matrix_submatrix M 0 0 p p in
      (* solve R c = cs for true solution c, using QR decomposition of L *)
      let c := gsl_vector_memcpy c cs in
      let s := gsl_blas_dtrsv_status CblasUpper CblasNoTrans CblasNonUnit R c in
      let c := gsl_blas_dtrsv K CblasUpper CblasNoTrans CblasNonUnit R c in
      (s, c, work)
  else
    (* rectangular L matrix with m < p *)
    if negb (m =? length cs)%nat then
      (GSL_EBADLEN, c, work)   (* cs vector must be length m *)
    else if (negb (p =? size1 M) || negb (n =? size2 M))%nat then
      (GSL_EBADLEN, c, work)   (* M matrix must be size p-by-n *)
    else
      let Linv_cs := gsl_vector_subvector (work_xt work) 0 p in
      let workn := gsl_vector_subvector (work_t work) 0 n in
      let Lp := gsl_matrix_submatrix (work_Linv work) 0 0 p m in
      (* compute L_inv * cs *)
      let Linv_cs := gsl_blas_dgemv K CblasNoTrans 1%float Lp cs 0%float Linv_cs in
      (* compute: workn = y - X L_inv cs *)
      let workn := gsl_vector_memcpy workn y in
      let workn := gsl_blas_dgemv K CblasNoTrans (-1)%float X Linv_cs 1%float workn in
      (* compute: c = L_inv cs + M * workn *)
      let c := gsl_vector_memcpy c Linv_cs in
      let c := gsl_blas_dgemv K CblasNoTrans 1%float M workn 1%float c in
      let work := set_work_xt work (put_subvector (work_xt work) 0 Linv_cs) in
      let work := set_work_t work (put_subvector (work_t work) 0 workn) in
      (GSL_SUCCESS, c, work).

End BackTransform.

(** ** The Sobolev smoothing operator

    [gsl_multifit_linear_Lsobolev (p, kmax, alpha, L, work)]; returns the
    status, the contents of [L] and the workspace. *)

(** Modelled from the spec: [gsl_matrix_set] of the matrix library; a
    write out of range leaves the matrix as it is. *)
Definition gsl_matrix_set (m : gsl_matrix) (i j : nat) (x : float) : gsl_matrix :=
  with_rows m (alter (<[j := x]>) i (rows m)).

(** Modelled from the spec: [gsl_matrix_scale (a, x)] of the matrix
    library, [a_ij *= x]. *)
Definition gsl_matrix_scale (a : gsl_matrix) (x : float) : gsl_matrix :=
  with_rows a ((fun r => gsl_vector_scale r x) <$> rows a).

(** Modelled from the spec: [gsl_matrix_diagonal (m)] of the matrix
    library, the entries [(i, i)] for [i < GSL_MIN (size1, size2)]. *)
Definition gsl_matrix_diagonal (m : gsl_matrix) : gsl_vector :=
  (fun i => gsl_matrix_get m i i) <$> seq 0 (GSL_MIN (size1 m) (size2 m)).

(** The write back through a diagonal view. *)
Definition put_diagonal (m : gsl_matrix) (v : gsl_vector) : gsl_matrix :=
  with_rows m
    (imap (fun i r => if (i <? length v)%nat then <[i := gsl_vector_get v i]> r else r)
          (rows m)).

(** Modelled from the spec: [gsl_vector_add_constant (a, x)] of the vector
    library, [a_i += x]. *)
Definition gsl_vector_add_constant (a : gsl_vector) (x : float) : gsl_vector :=
  (fun ai => (ai + x)%float) <$> a.

Section Sobolev.

(** The kernels the operator calls beside [gsl_multifit_linear_Lk]:
    [gsl_blas_dsyrk (uplo, trans, alpha, A, beta, C)], the rank-k update
    [C := alpha op(A) op(A)^T + beta C] of one triangle of [C], and
    [gsl_linalg_cholesky_decomp (A)], which works in place and returns a
    status. *)
Variable gsl_blas_dsyrk :
  CBLAS_UPLO -> CBLAS_TRANSPOSE -> float -> gsl_matrix -> float -> gsl_matrix -> gsl_matrix.
Variable gsl_linalg_cholesky_decomp : gsl_matrix -> gsl_status * gsl_matrix.

(** Body of the loop [for (k = 1; k <= kmax; ++k)]; a failing
    [gsl_multifit_linear_Lk] returns from inside the loop, so the later
    orders are skipped once the status is an error. The view [Lk] is the
    upper-left block of [work->Linv]. *)
Definition Lsobolev_step (p : nat) (alpha : gsl_vector) (k : nat)
    (st : gsl_status * gsl_matrix * gsl_multifit_linear_workspace)
  : gsl_status * gsl_matrix * gsl_multifit_linear_workspace :=
  let '(status, L, work) := st in
  if is_success status then
    let Lk := gsl_matrix_submatrix (work_Linv work) 0 0 (p - k) p in
    let ak := gsl_vector_get alpha k in
    (* compute a_k L_k *)
    let '(s, Lk) := gsl_multifit_linear_Lk p k Lk in
    if negb (is_success s) then (s, L, work)
    else
      let Lk := gsl_matrix_scale Lk ak in
      (* LTL += L_k^T L_k *)
      let L := gsl_blas_dsyrk CblasLower CblasTrans 1%float Lk 1%float L in
      (GSL_SUCCESS, L, set_work_Linv work (put_submatrix (work_Linv work) 0 0 Lk))
  else st.

(** The inner loop [for (k = 0; k < j; ++k) gsl_matrix_set (L, j, k, 0.0)]. *)
Definition Lsobolev_zero_row (j : nat) (L : gsl_matrix) : gsl_matrix :=
  for_loop 0 j (fun k L => gsl_matrix_set L j k 0%float) L.

Definition gsl_multifit_linear_Lsobolev (p kmax : nat) (alpha : gsl_vector)
    (L : gsl_matrix) (work : gsl_multifit_linear_workspace)
  : gsl_status * gsl_matrix * gsl_multifit_linear_workspace :=
  if (work_pmax work <? p)%nat then
    (GSL_EBADLEN, L, work)   (* p is larger than workspace *)
  else if (p <=? kmax)%nat then
    (GSL_EBADLEN, L, work)   (* p must be larger than derivative order *)
  else if negb (kmax + 1 =? length alpha)%nat then
    (GSL_EBADLEN, L, work)   (* alpha must be size kmax + 1 *)
  else if negb (p =? size1 L)%nat then
    (GSL_EBADLEN, L, work)   (* L matrix is wrong size *)
  else if negb (size1 L =? size2 L)%nat then
    (GSL_ENOTSQR, L, work)   (* L matrix is not square *)
  else
    let alpha0 := gsl_vector_get alpha 0 in
    (* initialize L to alpha0^2 I *)
    let L := gsl_matrix_set_zero L in
    let d := gsl_matrix_diagonal L in
    let L := put_diagonal L (gsl_vector_add_constant d (alpha0 * alpha0)%float) in
    let '(s, L, work) :=
      for_loop 1 (kmax + 1) (Lsobolev_step p alpha) (GSL_SUCCESS, L, work) in
    if negb (is_success s) then (s, L, work)
    else
      let '(s, L) := gsl_linalg_cholesky_decomp L in
      if negb (is_success s) then (s, L, work)
      else
        (* zero out lower triangle *)
        let L := for_loop 0 p Lsobolev_zero_row L in
        (GSL_SUCCESS, L, work).

End Sobolev.

(** ** Vocabulary of the further statements *)

(** The coefficient vector [c] that [gsl_multifit_linear_Lk] spreads over
    the superdiagonals, for an order k >= 1. *)
Definition Lk_coefficients (k : nat) : gsl_vector :=
  let cv := gsl_vector_set_zero (replicate (k + 1) 0%float) in
  let cv := gsl_vector_set cv 0 (-1)%float in
  let cv := gsl_vector_set cv 1 1%float in
  for_loop 1 k (Lk_coeff_sweep k) cv.

(** The forward-difference stencil in doubles: [(-1, 1)] differenced
    [m] more times, each step taking [c_(j-1) - c_j] with [c_(-1) = 0]. *)
Fixpoint difference_stencil (m j : nat) : float :=
  match m with
  | O => if (j =? 0)%nat then (-1)%float else if (j =? 1)%nat then 1%float else 0%float
  | S m =>
      (match j with O => 0%float | S j' => difference_stencil m j' end
       - difference_stencil m j)%float
  end.

(** The arguments of [gsl_multifit_linear_Lk] pass its checks. *)
Definition Lk_args_ok (p k : nat) (L : gsl_matrix) : Prop :=
  k < p /\ k + 1 < GSL_MULTIFIT_MAXK /\ size1 L = p - k /\ size2 L = p.

(** The arguments of [gsl_multifit_linear_genform1] pass its checks. *)
Definition genform1_shapes_ok (L cs c : gsl_vector)
    (work : gsl_multifit_linear_workspace) : Prop :=
  length L <= work_pmax work /\ length cs = length L /\ length c = length L.

(** The arguments of [gsl_multifit_linear_wstdform2] pass every shape
    check: the common ones, then those of the branch the sizes select. *)
Definition wstdform2_shapes_ok (L X : gsl_matrix) (w : option gsl_vector)
    (y : gsl_vector) (Xs : gsl_matrix) (ys : gsl_vector) (M : gsl_matrix)
    (work : gsl_multifit_linear_workspace) : Prop :=
  size1 X <= work_nmax work /\ size2 X <= work_pmax work /\
  size2 L = size2 X /\
  length y = size1 X /\
  (forall wv, w = Some wv -> length wv = size1 X) /\
  ((size2 X <= size1 L /\
    size1 Xs = size1 X /\ size2 Xs = size2 X /\ length ys = size1 X /\
    size1 M = size1 L /\ size2 M = size2 X)
   \/
   (size1 L < size2 X /\
    size1 Xs = size_sub (size1 X) (size2 X - size1 L) /\ size2 Xs = size1 L /\
    length ys = size_sub (size1 X) (size2 X - size1 L) /\
    size1 M = size2 X /\ size2 M = size1 X)).

(** The arguments of [gsl_multifit_linear_genform2] pass every shape check. *)
Definition genform2_shapes_ok (L X : gsl_matrix) (y cs : gsl_vector)
    (M : gsl_matrix) (c : gsl_vector) (work : gsl_multifit_linear_workspace) : Prop :=
  size1 X <= work_nmax work /\ size2 X <= work_pmax work /\
  size2 L = size2 X /\ length c = size2 X /\ length y = size1 X /\
  ((size2 X <= size1 L /\ length cs = size2 X /\
    size1 M = size1 L /\ size2 M = size2 X)
   \/
   (size1 L < size2 X /\ length cs = size1 L /\
    size1 M = size2 X /\ size2 M = size1 X)).

(** The arguments of [gsl_multifit_linear_lcurve] pass every shape check. *)
Definition lcurve_shapes_ok (y reg_param rho eta : gsl_vector)
    (work : gsl_multifit_linear_workspace) : Prop :=
  length y = work_n work /\ 3 <= length rho /\
  length eta = length rho /\ length reg_param = length rho.

(** The terms whose norms [gsl_multifit_linear_lcurve] takes at one
    [lambda]: [f_j xt_j] for the solution norm and [(1 - s_j f_j) xt_j]
    for the residual norm, with [f_j = s_j / (s_j^2 + lambda^2)]. *)
Definition lcurve_filter_factor (s lambda : float) : float :=
  (s / (s*s + lambda*lambda))%float.

Definition lcurve_solution_terms (p : nat) (S xt : gsl_vector) (lambda : float)
  : gsl_vector :=
  (fun j => (lcurve_filter_factor (gsl_vector_get S j) lambda
             * gsl_vector_get xt j)%float) <$> seq 0 p.

Definition lcurve_residual_terms (p : nat) (S xt : gsl_vector) (lambda : float)
  : gsl_vector :=
  (fun j => ((1 - gsl_vector_get S j * lcurve_filter_factor (gsl_vector_get S j) lambda)
             * gsl_vector_get xt j)%float) <$> seq 0 p.

(** The first four checks of [gsl_multifit_linear_Lsobolev] pass. *)
Definition Lsobolev_lengths_ok (p kmax : nat) (alpha : gsl_vector) (L : gsl_matrix)
    (work : gsl_multifit_linear_workspace) : Prop :=
  p <= work_pmax work /\ kmax < p /\ length alpha = kmax + 1 /\ size1 L = p.

(** A list whose first [k] entries went through [f]. *)
Definition map_prefix {A : Type} (f : nat -> A -> A) (k : nat) (l : list A)
  : list A :=
  imap (fun i x => if (i <? k)%nat then f i x else x) l.

(** A double that is a zero or a NaN. *)
Definition SF_zero_or_nan (x : spec_float) : Prop :=
  match x with S754_zero _ | S754_nan => True | _ => False end.

(** A workspace holding the decomposition of an n-by-p system with the
    singular values [S]; the other buffers are zeroed. *)
Definition decomposed_workspace (n p : nat) (S : gsl_vector)
  : gsl_multifit_linear_workspace :=
  {| work_nmax := n; work_pmax := p; work_n := n; work_p := p;
     work_A := gsl_matrix_alloc n p;
     work_Q := gsl_matrix_alloc p p;
     work_QSI := gsl_matrix_alloc p p;
     work_S := S;
     work_t := gsl_vector_alloc n;
     work_xt := gsl_vector_alloc p;
     work_D := replicate p 1%float;
     work_Linv := gsl_matrix_alloc p p |}.

(** Kernels like [idle_linalg] whose QR factorization refuses its
    arguments with [GSL_EBADLEN]. *)
Definition refusing_QR_linalg : linalg :=
  {| gsl_blas_dnrm2 := gsl_blas_dnrm2 idle_linalg;
     gsl_blas_dgemv := gsl_blas_dgemv idle_linalg;
     gsl_blas_dgemm := gsl_blas_dgemm idle_linalg;
     gsl_blas_dtrsv := gsl_blas_dtrsv idle_linalg;
     gsl_linalg_QR_decomp := fun A tau => (GSL_EBADLEN, A, tau);
     gsl_linalg_householder_hm := gsl_linalg_householder_hm idle_linalg;
     gsl_linalg_QR_QTvec := gsl_linalg_QR_QTvec idle_linalg;
     gsl_linalg_QR_QTmat := gsl_linalg_QR_QTmat idle_linalg |}.

Definition zero_or_nan (x : float) : Prop := SF_zero_or_nan (Prim2SF x).

(** The point at [i-1] is repeated neither at [i] nor at [i+1]. *)
Definition apart_from_previous (pt : nat -> float * float) (i : nat) : Prop :=
  pt (i - 1) <> pt i /\ pt (i - 1) <> pt (i + 1).

(** Two vectors agree up to the signs of their entries. *)
Definition same_magnitudes (u v : gsl_vector) : Prop :=
  length u = length v /\
  forall i, gsl_vector_get u i = gsl_vector_get v i \/
            gsl_vector_get u i = (- gsl_vector_get v i)%float.

(** * Properties *)

(** ** Facts about doubles *)

(** Case analysis on the comparisons of exponents and mantissas left by
    [SFcompare]. *)
Ltac cmp_cases :=
  repeat match goal with
  | H : context [Pos.compare_cont Eq ?a ?b] |- _ =>
      change (Pos.compare_cont Eq a b) with (Pos.compare a b) in H
  | |- context [Pos.compare_cont Eq ?a ?b] =>
      change (Pos.compare_cont Eq a b) with (Pos.compare a b)
  end;
  repeat match goal with
  | H : context [(?a ?= ?b)%Z] |- _ => destruct (Z.compare_spec a b); simpl in H
  | |- context [(?a ?= ?b)%Z] => destruct (Z.compare_spec a b); simpl
  end;
  subst;
  repeat match goal with
  | H : context [(?a ?= ?b)%positive] |- _ => destruct (Pos.compare_spec a b); simpl in H
  | |- context [(?a ?= ?b)%positive] => destruct (Pos.compare_spec a b); simpl
  end;
  subst; try congruence; try lia.

(** Case analysis on the comparisons of sizes in the goal. *)
Ltac nat_cases :=
  repeat match goal with
  | |- context [(?a <? ?b)%nat] => destruct (Nat.ltb_spec a b)
  | |- context [(?a <=? ?b)%nat] => destruct (Nat.leb_spec a b)
  | |- context [(?a =? ?b)%nat] => destruct (Nat.eqb_spec a b)
  end; simpl; try reflexivity; try lia.

Lemma SFltb_irrefl x : SFltb x x = false.
Proof.
  unfold SFltb. destruct x as [s|s| |s m e]; simpl; try reflexivity.
  - destruct s; reflexivity.
  - rewrite Z.compare_refl, Pos.compare_cont_refl. destruct s; reflexivity.
Qed.

Lemma SFltb_asym x y : SFltb x y = true -> SFltb y x = false.
Proof.
  unfold SFltb.
  destruct x as [s1|s1| |s1 m1 e1], y as [s2|s2| |s2 m2 e2]; simpl;
    try destruct s1; try destruct s2; simpl; try congruence;
    intros H; cmp_cases.
Qed.

(** [x < y] and [y <= z] give [x < z] as soon as [z] is not a NaN. *)
Lemma SFltb_le_trans x y z :
  SF_ordered z -> SFltb x y = true -> SFltb z y = false -> SFltb x z = true.
Proof.
  unfold SFltb.
  destruct x as [s1|s1| |s1 m1 e1], y as [s2|s2| |s2 m2 e2], z as [s3|s3| |s3 m3 e3];
    simpl; try tauto; intros _;
    try destruct s1; try destruct s2; try destruct s3; simpl; try congruence;
    intros H1 H2; cmp_cases.
Qed.

Lemma binary_round_aux_not_negative m e l :
  SF_not_negative (binary_round_aux prec emax false m e l).
Proof.
  unfold binary_round_aux.
  destruct (shr_fexp prec emax m e l) as [mrs' e'].
  destruct (shr_fexp prec emax _ e' loc_Exact) as [mrs'' e''].
  destruct (shr_m mrs''); simpl; auto.
  destruct (Z.leb _ _); simpl; auto.
Qed.

Lemma SFsqrt_not_negative x : SF_not_negative (SF64sqrt x).
Proof.
  unfold SF64sqrt, SFsqrt.
  destruct x as [s|s| |s m e]; simpl; auto.
  - destruct s; simpl; auto.
  - destruct s; simpl; auto.
    destruct (SFsqrt_core_binary prec emax (Z.pos m) e) as [[mz ez] lz].
    apply binary_round_aux_not_negative.
Qed.

Lemma SFdiv_abs_not_negative x y :
  SF_not_negative x -> SF_not_negative (SF64div x (SFabs y)).
Proof.
  unfold SF64div, SFdiv.
  destruct x as [s1|s1| |s1 m1 e1], y as [s2|s2| |s2 m2 e2]; simpl; auto;
    try (destruct s1; simpl; tauto).
  destruct s1; simpl; try tauto. intros _.
  destruct (SFdiv_core_binary prec emax (Z.pos m1) e1 (Z.pos m2) e2) as [[mz ez] lz].
  apply binary_round_aux_not_negative.
Qed.

Lemma SF_not_negative_ltb_zero x :
  SF_not_negative x -> SFltb x (S754_zero false) = false.
Proof.
  unfold SFltb. destruct x as [s|s| |s m e]; simpl; auto; destruct s; simpl; tauto.
Qed.

Lemma Prim2SF_zero : Prim2SF 0 = S754_zero false.
Proof. reflexivity. Qed.

Lemma Prim2SF_infinity : Prim2SF infinity = S754_infinity false.
Proof. reflexivity. Qed.

(** A quotient [sqrt a / |d|] is never below zero. *)
Lemma sqrt_div_abs_not_lt_zero (a d : float) :
  (PrimFloat.sqrt a / abs d <? 0)%float = false.
Proof.
  rewrite FloatAxioms.ltb_spec, FloatAxioms.div_spec, FloatAxioms.sqrt_spec,
    FloatAxioms.abs_spec, Prim2SF_zero.
  apply SF_not_negative_ltb_zero, SFdiv_abs_not_negative, SFsqrt_not_negative.
Qed.

Lemma is_finite_spec (x : float) : is_finite x = SF_is_finite (Prim2SF x).
Proof.
  unfold is_finite, is_nan, is_infinity.
  rewrite !FloatAxioms.eqb_spec, FloatAxioms.abs_spec, Prim2SF_infinity.
  unfold SFeqb.
  destruct (Prim2SF x) as [s|s| |s m e]; simpl; try reflexivity.
  - destruct s; reflexivity.
  - rewrite Z.compare_refl, Pos.compare_cont_refl. destruct s; reflexivity.
Qed.

Lemma eqb_zero_spec (y : float) :
  (y =? 0)%float = true -> exists s, Prim2SF y = S754_zero s.
Proof.
  rewrite FloatAxioms.eqb_spec, Prim2SF_zero. unfold SFeqb.
  destruct (Prim2SF y) as [s|s| |s m e]; simpl; try discriminate; eauto;
    destruct s; discriminate.
Qed.

(** A division by a zero is never finite: [x/0] is an infinity or a NaN. *)
Lemma div_zero_not_finite (x y : float) :
  (y =? 0)%float = true -> is_finite (x / y) = false.
Proof.
  intros [s Hy]%eqb_zero_spec.
  rewrite is_finite_spec, FloatAxioms.div_spec, Hy. unfold SF64div, SFdiv.
  destruct (Prim2SF x); reflexivity.
Qed.

Lemma ltb_irrefl (x : float) : (x <? x)%float = false.
Proof. rewrite FloatAxioms.ltb_spec. apply SFltb_irrefl. Qed.

Lemma ltb_asym (x y : float) : (x <? y)%float = true -> (y <? x)%float = false.
Proof. rewrite !FloatAxioms.ltb_spec. apply SFltb_asym. Qed.

Lemma finite_ordered (x : float) : gsl_finite x = true -> SF_ordered (Prim2SF x).
Proof.
  unfold gsl_finite. rewrite is_finite_spec.
  destruct (Prim2SF x); simpl; auto; discriminate.
Qed.

Lemma ltb_le_trans (x y z : float) :
  gsl_finite z = true ->
  (x <? y)%float = true -> (z <? y)%float = false -> (x <? z)%float = true.
Proof.
  intros Hz. rewrite !FloatAxioms.ltb_spec. apply SFltb_le_trans, finite_ordered, Hz.
Qed.

Lemma ltb_zero_not_leb (x : float) : (0 <? x)%float = true -> (x <=? 0)%float = false.
Proof.
  rewrite FloatAxioms.ltb_spec, FloatAxioms.leb_spec, Prim2SF_zero.
  unfold SFltb, SFleb.
  destruct (Prim2SF x) as [s|s| |s m e]; simpl; try discriminate;
    destruct s; simpl; congruence.
Qed.

Lemma radius_not_lt_zero pt i : (radius_at pt i <? 0)%float = false.
Proof. unfold radius_at, circle_radius. apply sqrt_div_abs_not_lt_zero. Qed.

(** ** Facts about sizes, loops, vectors and matrices *)

Lemma size_sub_le (a b : nat) : b <= a -> size_sub a b = a - b.
Proof. intros H. unfold size_sub. apply Nat.leb_le in H. rewrite H. reflexivity. Qed.

Lemma foldl_seq_S {S : Type} (body : nat -> S -> S) (s : S) (lo k : nat) :
  foldl (fun s i => body i s) s (seq lo (Datatypes.S k)) =
  body (lo + k) (foldl (fun s i => body i s) s (seq lo k)).
Proof. rewrite seq_S, foldl_app. reflexivity. Qed.

Lemma gsl_vector_get_Some (v : gsl_vector) i x :
  v !! i = Some x -> gsl_vector_get v i = x.
Proof. unfold gsl_vector_get. intros ->. reflexivity. Qed.

Lemma length_put_subvector_0 (v u : gsl_vector) :
  length (put_subvector v 0 u) = length v.
Proof.
  unfold put_subvector. simpl. rewrite length_app, length_take, length_drop. lia.
Qed.

Lemma matrix_get_rows (m : gsl_matrix) i j r x :
  rows m !! i = Some r -> r !! j = Some x -> gsl_matrix_get m i j = x.
Proof. unfold gsl_matrix_get. intros -> Hx. simpl. rewrite Hx. reflexivity. Qed.

Lemma matrix_wf_lookup (m : gsl_matrix) i j :
  matrix_wf m -> i < size1 m -> j < size2 m ->
  exists r x, rows m !! i = Some r /\ r !! j = Some x /\ gsl_matrix_get m i j = x.
Proof.
  intros [Hlen Hrows] Hi Hj.
  destruct (lookup_lt_is_Some_2 (rows m) i) as [r Hr]; [lia|].
  assert (Hr' : length r = size2 m).
  { rewrite Forall_forall in Hrows. apply Hrows. eapply list_elem_of_lookup_2; eauto. }
  destruct (lookup_lt_is_Some_2 r j) as [x Hx]; [lia|].
  exists r, x. repeat split; auto. eapply matrix_get_rows; eauto.
Qed.

Lemma get_set_identity (m : gsl_matrix) i j :
  i < size1 m -> j < size2 m ->
  gsl_matrix_get (gsl_matrix_set_identity m) i j =
  if (i =? j)%nat then 1%float else 0%float.
Proof.
  intros Hi Hj. unfold gsl_matrix_get, gsl_matrix_set_identity. simpl.
  rewrite list_lookup_fmap, lookup_seq_lt by lia. simpl.
  rewrite list_lookup_fmap, lookup_seq_lt by lia. reflexivity.
Qed.

Lemma get_set_all (m : gsl_matrix) x i j :
  i < size1 m -> j < size2 m -> gsl_matrix_get (gsl_matrix_set_all m x) i j = x.
Proof.
  intros Hi Hj. unfold gsl_matrix_get, gsl_matrix_set_all. simpl.
  rewrite lookup_replicate_2 by lia. simpl.
  rewrite lookup_replicate_2 by lia. reflexivity.
Qed.

Lemma matrix_wf_set_all (m : gsl_matrix) x : matrix_wf (gsl_matrix_set_all m x).
Proof.
  split; simpl.
  - apply length_replicate.
  - apply Forall_replicate, length_replicate.
Qed.

Lemma matrix_wf_put_superdiagonal (m : gsl_matrix) k v :
  matrix_wf m -> matrix_wf (put_superdiagonal m k v).
Proof.
  intros [Hlen Hrows]. split; simpl.
  - rewrite length_imap. exact Hlen.
  - rewrite Forall_forall in *. intros r Hr.
    apply list_elem_of_lookup in Hr as [i Hi].
    rewrite list_lookup_imap in Hi.
    destruct (rows m !! i) as [r0|] eqn:Hr0; simpl in Hi; [|discriminate].
    injection Hi as <-.
    assert (length r0 = size2 m) by (apply Hrows; eapply list_elem_of_lookup_2; eauto).
    destruct (i <? length v)%nat; [rewrite length_insert|]; auto.
Qed.

Lemma get_put_superdiagonal (m : gsl_matrix) k (v : gsl_vector) i j :
  matrix_wf m -> i < size1 m -> j < size2 m ->
  gsl_matrix_get (put_superdiagonal m k v) i j =
  if ((i <? length v) && (j =? i + k))%nat then gsl_vector_get v i
  else gsl_matrix_get m i j.
Proof.
  intros Hwf Hi Hj.
  destruct (matrix_wf_lookup m i j Hwf Hi Hj) as (r & x & Hr & Hx & Hget).
  apply lookup_lt_Some in Hx as Hjr.
  rewrite Hget. eapply matrix_get_rows.
  - unfold put_superdiagonal. simpl. rewrite list_lookup_imap, Hr. reflexivity.
  - destruct (Nat.ltb_spec i (length v)); simpl; auto.
    destruct (Nat.eqb_spec j (i + k)) as [->|Hne].
    + apply list_lookup_insert_eq. exact Hjr.
    + rewrite list_lookup_insert_ne by auto. exact Hx.
Qed.

(** ** The corner of the L-curve *)

Example lcorner2_bend :
  gsl_multifit_linear_lcorner2 [1; 2; 3; 4]%float [4; 2; 1.5; 1.25]%float 7
  = (GSL_SUCCESS, 1).
Proof. vm_compute. reflexivity. Qed.

Example lcorner2_colinear :
  gsl_multifit_linear_lcorner2 [1; 2; 3; 4]%float [1; 2; 3; 4]%float 7
  = (GSL_EINVAL, 7).
Proof. vm_compute. reflexivity. Qed.

Section CornerLoop.

Variable pt : nat -> float * float.
Variable idx0 : nat.

Lemma corner_inv_init : corner_inv pt idx0 0 (corner_init pt idx0).
Proof.
  unfold corner_inv, corner_init; simpl. repeat split; auto.
  left. repeat split; auto. intros j Hj. lia.
Qed.

Lemma corner_inv_step k st :
  corner_inv pt idx0 k st ->
  corner_inv pt idx0 (S k) (corner_loop_body pt (S k) st).
Proof.
  intros (Hx1 & Hy1 & Hx2 & Hy2 & Hmin).
  unfold corner_loop_body, corner_step.
  assert (Hr : circle_radius (st_x1 st) (st_y1 st) (st_x2 st) (st_y2 st)
                 (fst (pt (S k + 1))) (snd (pt (S k + 1))) = radius_at pt (S k)).
  { unfold radius_at. rewrite Hx1, Hy1, Hx2, Hy2.
    replace (S k - 1) with k by lia. reflexivity. }
  rewrite Hr. clear Hr.
  replace (S k + 1) with (S (S k)) by lia.
  destruct (gsl_finite (radius_at pt (S k))) eqn:Hfin.
  - destruct Hmin as [(Hnone & Hrmin & Hidx) | (Hfirst & Hrmin)].
    + (* the first finite radius: [rmin] is still negative *)
      rewrite Hrmin.
      replace ((-1 <? 0)%float) with true by reflexivity.
      rewrite orb_true_r. simpl.
      (split; [|split; [|split; [|split]]]; simpl; auto).
      right. split; [|reflexivity].
      repeat split; try lia; auto.
      * intros j Hj Hjfin. destruct (decide (j = S k)) as [->|Hne].
        -- apply ltb_irrefl.
        -- rewrite Hnone in Hjfin by lia. discriminate.
      * intros j Hj Hjfin. rewrite Hnone in Hjfin by lia. discriminate.
    + destruct Hfirst as (Hrange & Hifin & Hle & Hlt).
      rewrite Hrmin, radius_not_lt_zero, orb_false_r.
      destruct (radius_at pt (S k) <? radius_at pt (st_idx st))%float eqn:Hcmp; simpl.
      * (* a strictly smaller radius takes over *)
        (split; [|split; [|split; [|split]]]; simpl; auto).
        right. split; [|reflexivity].
        assert (Hbelow : forall j, 1 <= j <= k -> gsl_finite (radius_at pt j) = true ->
                  (radius_at pt (S k) <? radius_at pt j)%float = true).
        { intros j Hj Hjfin. eapply ltb_le_trans; eauto. }
        repeat split; try lia; auto.
        -- intros j Hj Hjfin. destruct (decide (j = S k)) as [->|Hne].
           ++ apply ltb_irrefl.
           ++ apply ltb_asym, Hbelow; auto. lia.
        -- intros j Hj Hjfin. apply Hbelow; auto. lia.
      * (* the earlier minimum stays *)
        (split; [|split; [|split; [|split]]]; simpl; auto).
        right. split; [|auto].
        repeat split; try lia; auto.
        intros j Hj Hjfin. destruct (decide (j = S k)) as [->|Hne]; auto.
        apply Hle; auto. lia.
  - (* a radius that is not finite is skipped *)
    simpl. (split; [|split; [|split; [|split]]]; simpl; auto).
    destruct Hmin as [(Hnone & Hrmin & Hidx) | (Hfirst & Hrmin)].
    + left. repeat split; auto.
      intros j Hj. destruct (decide (j = S k)) as [->|Hne]; auto. apply Hnone. lia.
    + right. split; [|auto].
      destruct Hfirst as (Hrange & Hifin & Hle & Hlt).
      repeat split; try lia; auto.
      intros j Hj Hjfin. destruct (decide (j = S k)) as [->|Hne].
      * rewrite Hfin in Hjfin. discriminate.
      * apply Hle; auto. lia.
Qed.

Lemma corner_inv_loop k :
  corner_inv pt idx0 k
    (foldl (fun s i => corner_loop_body pt i s) (corner_init pt idx0) (seq 1 k)).
Proof.
  induction k as [|k IH].
  - apply corner_inv_init.
  - rewrite foldl_seq_S. simpl. apply corner_inv_step, IH.
Qed.

End CornerLoop.

Lemma lcorner_variant_short v a eta idx0 :
  length a < 3 -> lcorner_variant v a eta idx0 = (GSL_EBADLEN, idx0).
Proof.
  intros H. apply Nat.ltb_lt in H.
  destruct v; simpl;
    unfold gsl_multifit_linear_lcorner, gsl_multifit_linear_lcorner2;
    rewrite H; reflexivity.
Qed.

Lemma lcorner_variant_mismatch v a eta idx0 :
  3 <= length a -> length a <> length eta ->
  lcorner_variant v a eta idx0 = (GSL_EBADLEN, idx0).
Proof.
  intros H3 Hne.
  assert (H3' : (length a <? 3) = false) by (apply Nat.ltb_ge; lia).
  apply Nat.eqb_neq in Hne.
  destruct v; simpl;
    unfold gsl_multifit_linear_lcorner, gsl_multifit_linear_lcorner2;
    rewrite H3', Hne; reflexivity.
Qed.

(** Both detectors are the corner loop over their curve. *)
Lemma lcorner_variant_loop v a eta idx0 :
  3 <= length a -> length a = length eta ->
  lcorner_variant v a eta idx0 =
  corner_result
    (foldl (fun s i => corner_loop_body (corner_point v a eta) i s)
           (corner_init (corner_point v a eta) idx0)
           (seq 1 (length a - 2))).
Proof.
  intros H3 Hlen.
  assert (H3' : (length a <? 3) = false) by (apply Nat.ltb_ge; lia).
  apply Nat.eqb_eq in Hlen.
  destruct v; simpl;
    unfold gsl_multifit_linear_lcorner, gsl_multifit_linear_lcorner2, for_loop;
    rewrite H3', Hlen; simpl negb; cbv iota;
    replace (length a - 1 - 1) with (length a - 2) by lia; reflexivity.
Qed.

(** C6. For vectors of equal length n >= 3 with at least one interior
    triple of finite circumradius, [gsl_multifit_linear_lcorner] (on the
    points (log rho, log eta)) and [gsl_multifit_linear_lcorner2] (on the
    points (lambda^2, eta^2)) return success and set [*idx] to the
    interior index of minimum finite circumradius, radii that are not
    finite being skipped and the earliest index winning a tie. *)
Theorem lcorner_first_minimum_radius (v : corner_variant) (a eta : gsl_vector)
    (idx0 : nat) :
  3 <= length a ->
  length a = length eta ->
  (exists i, interior (length a) i /\
             gsl_finite (radius_at (corner_point v a eta) i) = true) ->
  exists i, lcorner_variant v a eta idx0 = (GSL_SUCCESS, i) /\
            interior (length a) i /\
            first_min_radius (corner_point v a eta) (length a - 2) i.
Proof.
  intros H3 Hlen (i & [Hi1 Hi2] & Hfin).
  rewrite lcorner_variant_loop by assumption.
  pose proof (corner_inv_loop (corner_point v a eta) idx0 (length a - 2)) as Hinv.
  destruct Hinv as (_ & _ & _ & _ & [(Hnone & _) | (Hfirst & Hrmin)]).
  - rewrite Hnone in Hfin by lia. discriminate.
  - unfold corner_result. rewrite Hrmin, radius_not_lt_zero.
    eexists; split; [reflexivity|]. split; [|exact Hfirst].
    destruct Hfirst as (Hrange & _). unfold interior. lia.
Qed.

Lemma lcorner_first_minimum_radius_witness :
  exists i,
    lcorner_variant SquaredCurve [1; 2; 3; 4]%float [4; 2; 1.5; 1.25]%float 7
      = (GSL_SUCCESS, i) /\
    interior 4 i /\
    first_min_radius
      (corner_point SquaredCurve [1; 2; 3; 4]%float [4; 2; 1.5; 1.25]%float) 2 i.
Proof.
  apply (lcorner_first_minimum_radius SquaredCurve
           [1; 2; 3; 4]%float [4; 2; 1.5; 1.25]%float 7).
  - simpl. lia.
  - reflexivity.
  - exists 1. split; [unfold interior; simpl; lia | vm_compute; reflexivity].
Defined.

(** C3, as the code has it. When no interior triple of a curve of n >= 3
    points has a finite circumradius, both detectors fail with
    [GSL_EINVAL], the invalid-argument code, and leave [*idx] alone. *)
Theorem lcorner_degenerate_curve_fails (v : corner_variant) (a eta : gsl_vector)
    (idx0 : nat) :
  3 <= length a ->
  length a = length eta ->
  (forall i, interior (length a) i ->
             gsl_finite (radius_at (corner_point v a eta) i) = false) ->
  lcorner_variant v a eta idx0 = (GSL_EINVAL, idx0).
Proof.
  intros H3 Hlen Hall.
  rewrite lcorner_variant_loop by assumption.
  pose proof (corner_inv_loop (corner_point v a eta) idx0 (length a - 2)) as Hinv.
  destruct Hinv as (_ & _ & _ & _ & [(Hnone & Hrmin & Hidx) | (Hfirst & Hrmin)]).
  - unfold corner_result. rewrite Hrmin, Hidx. reflexivity.
  - destruct Hfirst as (Hrange & Hfin & _).
    rewrite Hall in Hfin by (unfold interior; lia). discriminate.
Qed.

Lemma lcorner_degenerate_curve_fails_witness :
  lcorner_variant SquaredCurve [1; 1; 1]%float [1; 1; 1]%float 7 = (GSL_EINVAL, 7).
Proof.
  apply (lcorner_degenerate_curve_fails SquaredCurve [1; 1; 1]%float [1; 1; 1]%float 7).
  - simpl. lia.
  - reflexivity.
  - intros i [Hi1 Hi2]. simpl in Hi2.
    assert (Hi : i = 1) by lia. rewrite Hi. vm_compute. reflexivity.
Defined.

(** C3, as the claim has it, fails: on three coincident points every
    radius is a NaN and [gsl_multifit_linear_lcorner2] returns
    [GSL_EINVAL], which is not the domain-error code [GSL_EDOM]. *)
Lemma lcorner2_degenerate_status_not_EDOM :
  (forall i, interior 3 i ->
     gsl_finite (radius_at (corner_point SquaredCurve [1; 1; 1]%float [1; 1; 1]%float) i)
     = false) /\
  fst (gsl_multifit_linear_lcorner2 [1; 1; 1]%float [1; 1; 1]%float 0) = GSL_EINVAL /\
  fst (gsl_multifit_linear_lcorner2 [1; 1; 1]%float [1; 1; 1]%float 0) <> GSL_EDOM.
Proof.
  split; [|split].
  - intros i [Hi1 Hi2]. assert (Hi : i = 1) by lia. rewrite Hi. vm_compute. reflexivity.
  - vm_compute. reflexivity.
  - vm_compute. discriminate.
Qed.

(** C10. In both detectors [*idx] is written only on a successful return:
    after every error return (fewer than 3 points, lengths that differ,
    no finite circumradius) it holds the value it had at the call. *)
Theorem lcorner_idx_written_only_on_success (v : corner_variant) (a eta : gsl_vector)
    (idx0 : nat) (s : gsl_status) (i : nat) :
  lcorner_variant v a eta idx0 = (s, i) ->
  s <> GSL_SUCCESS ->
  i = idx0.
Proof.
  intros Hcall Hs.
  destruct (decide (length a < 3)) as [Hshort|Hlong].
  { rewrite lcorner_variant_short in Hcall by assumption. congruence. }
  destruct (decide (length a = length eta)) as [Hlen|Hne].
  2: { rewrite lcorner_variant_mismatch in Hcall by (auto; lia). congruence. }
  rewrite lcorner_variant_loop in Hcall by (auto; lia).
  pose proof (corner_inv_loop (corner_point v a eta) idx0 (length a - 2)) as Hinv.
  destruct Hinv as (_ & _ & _ & _ & [(Hnone & Hrmin & Hidx) | (Hfirst & Hrmin)]).
  - unfold corner_result in Hcall. rewrite Hrmin, Hidx in Hcall.
    change ((-1 <? 0)%float) with true in Hcall. congruence.
  - unfold corner_result in Hcall. rewrite Hrmin, radius_not_lt_zero in Hcall.
    congruence.
Qed.

Lemma lcorner_idx_written_only_on_success_witness :
  snd (lcorner_variant SquaredCurve [1; 2]%float [1; 2; 3]%float 5) = 5.
Proof.
  apply (lcorner_idx_written_only_on_success SquaredCurve [1; 2]%float [1; 2; 3]%float 5
           (fst (lcorner_variant SquaredCurve [1; 2]%float [1; 2; 3]%float 5))).
  - reflexivity.
  - vm_compute. discriminate.
Defined.

(** ** Standard form for a diagonal regularization matrix *)

Example wstdform1_weighted :
  gsl_multifit_linear_wstdform1
    (Some [2; 4]%float) (Matrix 2 2 [[1; 2]; [3; 4]]%float)
    (Some [4; -1]%float) [1; 1]%float
    (gsl_matrix_alloc 2 2) [0; 0]%float (fresh_workspace 2 2)
  = (GSL_SUCCESS, Matrix 2 2 [[1; 1]; [0; 0]]%float, [2; 0]%float).
Proof. vm_compute. reflexivity. Qed.

Lemma weight_rows_0 w rs : weight_rows w 0 rs = rs.
Proof.
  unfold weight_rows. apply list_eq. intros i.
  rewrite list_lookup_imap. destruct (rs !! i); reflexivity.
Qed.

Lemma weight_entries_0 w y : weight_entries w 0 y = y.
Proof.
  unfold weight_entries. apply list_eq. intros i.
  rewrite list_lookup_imap. destruct (y !! i); reflexivity.
Qed.

Lemma scale_columns_0 l rs : scale_columns l 0 rs = rs.
Proof.
  unfold scale_columns. apply list_eq. intros i.
  rewrite list_lookup_fmap. destruct (rs !! i) as [r|]; simpl; [|reflexivity].
  f_equal. apply list_eq. intros j. rewrite list_lookup_imap.
  destruct (r !! j); reflexivity.
Qed.

(** Scaling row [k] of the rows weighted below [k] weights them below [k+1]. *)
Lemma weight_rows_S w k rs :
  <[k := gsl_vector_scale (default [] (weight_rows w k rs !! k)) (weight_factor w k)]>
    (weight_rows w k rs) = weight_rows w (S k) rs.
Proof.
  unfold weight_rows. apply list_eq. intros i.
  rewrite list_lookup_insert, !list_lookup_imap, length_imap.
  destruct (rs !! i) as [r|] eqn:Hr; simpl.
  - apply lookup_lt_Some in Hr as Hlt.
    case_decide as Hc.
    + destruct Hc as [-> _]. rewrite Hr. simpl. nat_cases.
    + nat_cases.
  - apply lookup_ge_None in Hr. case_decide as Hc; [lia|reflexivity].
Qed.

Lemma weight_entries_S w k y :
  <[k := (gsl_vector_get (weight_entries w k y) k * weight_factor w k)%float]>
    (weight_entries w k y) = weight_entries w (S k) y.
Proof.
  unfold weight_entries, gsl_vector_get. apply list_eq. intros i.
  rewrite list_lookup_insert, !list_lookup_imap, length_imap.
  destruct (y !! i) as [r|] eqn:Hr; simpl.
  - apply lookup_lt_Some in Hr as Hlt.
    case_decide as Hc.
    + destruct Hc as [-> _]. rewrite Hr. simpl. nat_cases.
    + nat_cases.
  - apply lookup_ge_None in Hr. case_decide as Hc; [lia|reflexivity].
Qed.

Lemma weight_loop_closed (w : gsl_vector) (X0 : gsl_matrix) (y0 : gsl_vector) (k : nat) :
  foldl (fun s i => wstdform1_weight_row w i s) (X0, y0) (seq 0 k) =
  (with_rows X0 (weight_rows w k (rows X0)), weight_entries w k y0).
Proof.
  induction k as [|k IH].
  - simpl. rewrite weight_rows_0, weight_entries_0. destruct X0; reflexivity.
  - rewrite foldl_seq_S, IH. simpl.
    unfold wstdform1_weight_row, put_row, gsl_matrix_row, gsl_vector_set, with_rows; simpl.
    fold (clamp_weight (gsl_vector_get w k)). fold (weight_factor w k).
    rewrite weight_rows_S, weight_entries_S. reflexivity.
Qed.

(** Dividing column [k] of the rows divided below [k] divides them below [k+1]. *)
Lemma scale_columns_S l k rs :
  imap (fun i r =>
          <[k := gsl_vector_get
                   (gsl_vector_scale
                      ((fun r => gsl_vector_get r k) <$> scale_columns l k rs)
                      (1 / gsl_vector_get l k)%float) i]> r)
       (scale_columns l k rs) = scale_columns l (S k) rs.
Proof.
  unfold scale_columns, gsl_vector_scale, gsl_vector_get. apply list_eq. intros i.
  rewrite list_lookup_imap, !list_lookup_fmap.
  destruct (rs !! i) as [r|] eqn:Hr; simpl; [|reflexivity].
  f_equal. apply list_eq. intros j.
  rewrite list_lookup_insert, !list_lookup_imap, length_imap.
  destruct (r !! j) as [x|] eqn:Hx; simpl.
  - apply lookup_lt_Some in Hx as Hlt.
    case_decide as Hc.
    + destruct Hc as [-> _]. rewrite Hx. simpl. nat_cases.
    + nat_cases.
  - apply lookup_ge_None in Hx. case_decide as Hc; [lia|reflexivity].
Qed.

Lemma column_loop_closed (l : gsl_vector) (X0 : gsl_matrix) (k : nat) :
  column_loop_post l X0 k
    (foldl (fun s j => wstdform1_scale_column l j s) (GSL_SUCCESS, X0) (seq 0 k)).
Proof.
  induction k as [|k IH].
  - simpl. repeat split; auto. left. repeat split.
    + intros j Hj. lia.
    + simpl. rewrite scale_columns_0. reflexivity.
  - rewrite foldl_seq_S. simpl.
    destruct (foldl _ _ (seq 0 k)) as [s Xk].
    destruct IH as (H1 & H2 & [(Hs & Hnz & Hrows) | (Hs & j0 & Hj0 & Hz & Hnz & Hrows)]);
      simpl in *; subst s; unfold wstdform1_scale_column; simpl.
    + destruct (gsl_vector_get l k =? 0)%float eqn:Hk; simpl.
      * repeat split; auto. right. split; auto. exists k. repeat split; auto.
      * repeat split; auto. left. repeat split.
        -- intros j Hj. destruct (decide (j = k)) as [->|]; auto. apply Hnz. lia.
        -- unfold put_column, gsl_matrix_column. simpl. rewrite Hrows.
           apply scale_columns_S.
    + repeat split; auto. right. split; auto. exists j0. repeat split; auto.
Qed.

Lemma lookup_weight_rows w k rs i r :
  rs !! i = Some r ->
  weight_rows w k rs !! i =
  Some (if (i <? k)%nat then gsl_vector_scale r (weight_factor w i) else r).
Proof. intros Hr. unfold weight_rows. rewrite list_lookup_imap, Hr. reflexivity. Qed.

Lemma lookup_scale_columns l k rs i r :
  rs !! i = Some r ->
  scale_columns l k rs !! i =
  Some (imap (fun j x => if (j <? k)%nat then (x * (1 / gsl_vector_get l j))%float
                         else x) r).
Proof. intros Hr. unfold scale_columns. rewrite list_lookup_fmap, Hr. reflexivity. Qed.

Lemma lookup_weight_entries w k (y : gsl_vector) i x :
  y !! i = Some x ->
  weight_entries w k y !! i =
  Some (if (i <? k)%nat then (x * weight_factor w i)%float else x).
Proof. intros Hx. unfold weight_entries. rewrite list_lookup_imap, Hx. reflexivity. Qed.

Lemma lookup_weighted_rows w (n : nat) rs i r :
  i < n -> rs !! i = Some r ->
  exists r', weighted_rows w n rs !! i = Some r' /\
             forall j x, r !! j = Some x -> r' !! j = Some (apply_weight w i x).
Proof.
  intros Hi Hr. destruct w as [wv|]; simpl.
  - rewrite (lookup_weight_rows _ _ _ _ _ Hr).
    replace (i <? n)%nat with true by (symmetry; apply Nat.ltb_lt; lia).
    eexists; split; [reflexivity|].
    intros j x Hx. unfold gsl_vector_scale. rewrite list_lookup_fmap, Hx. reflexivity.
  - exists r. split; auto.
Qed.

Lemma lookup_weighted_entries w (n : nat) (y : gsl_vector) i x :
  i < n -> y !! i = Some x ->
  weighted_entries w n y !! i = Some (apply_weight w i x).
Proof.
  intros Hi Hx. destruct w as [wv|]; simpl; auto.
  rewrite (lookup_weight_entries _ _ _ _ _ Hx).
  replace (i <? n)%nat with true by (symmetry; apply Nat.ltb_lt; lia).
  reflexivity.
Qed.

Lemma get_scale_columns (m : gsl_matrix) l k rs i j r x :
  rows m = scale_columns l k rs -> rs !! i = Some r -> r !! j = Some x ->
  gsl_matrix_get m i j =
  if (j <? k)%nat then (x * (1 / gsl_vector_get l j))%float else x.
Proof.
  intros Hm Hr Hx. eapply matrix_get_rows.
  - rewrite Hm. apply lookup_scale_columns, Hr.
  - rewrite list_lookup_imap, Hx. reflexivity.
Qed.

Lemma wstdform1_shapes_dec L X w y Xs ys work :
  {wstdform1_shapes_ok L X w y Xs ys work} + {~ wstdform1_shapes_ok L X w y Xs ys work}.
Proof.
  unfold wstdform1_shapes_ok.
  destruct (decide (size1 X <= work_nmax work)); [|right; tauto].
  destruct (decide (size2 X <= work_pmax work)); [|right; tauto].
  destruct (decide (length y = size1 X)); [|right; tauto].
  destruct (decide (size1 Xs = size1 X)); [|right; tauto].
  destruct (decide (size2 Xs = size2 X)); [|right; tauto].
  destruct (decide (length ys = size1 X)); [|right; tauto].
  assert (HL : {forall l, L = Some l -> length l = size2 X} +
               {~ forall l, L = Some l -> length l = size2 X}).
  { destruct L as [dl|].
    - destruct (decide (length dl = size2 X)) as [Heq|Hne].
      + left. intros l' [= <-]. exact Heq.
      + right. intros H. apply Hne, H. reflexivity.
    - left. intros l' [=]. }
  assert (Hw : {forall wv, w = Some wv -> length wv = size1 X} +
               {~ forall wv, w = Some wv -> length wv = size1 X}).
  { destruct w as [wv|].
    - destruct (decide (length wv = size1 X)) as [Heq|Hne].
      + left. intros l' [= <-]. exact Heq.
      + right. intros H. apply Hne, H. reflexivity.
    - left. intros l' [=]. }
  destruct HL; [|right; tauto]. destruct Hw; [|right; tauto].
  left. tauto.
Qed.

(** A call that fails a shape check returns before it writes. *)
Lemma wstdform1_rejected L X w y Xs ys work :
  ~ wstdform1_shapes_ok L X w y Xs ys work ->
  gsl_multifit_linear_wstdform1 L X w y Xs ys work = (GSL_EBADLEN, Xs, ys).
Proof.
  intros Hbad. unfold gsl_multifit_linear_wstdform1.
  destruct (Nat.ltb_spec (work_nmax work) (size1 X)); simpl; [reflexivity|].
  destruct (Nat.ltb_spec (work_pmax work) (size2 X)); simpl; [reflexivity|].
  destruct L as [l|].
  - destruct (Nat.eqb_spec (size2 X) (length l)); simpl; [|reflexivity].
    destruct (Nat.eqb_spec (size1 X) (length y)); simpl; [|reflexivity].
    destruct w as [wv|].
    + destruct (Nat.eqb_spec (size1 X) (length wv)); simpl; [|reflexivity].
      destruct (Nat.eqb_spec (size1 X) (size1 Xs)); simpl; [|reflexivity].
      destruct (Nat.eqb_spec (size2 X) (size2 Xs)); simpl; [|reflexivity].
      destruct (Nat.eqb_spec (size1 X) (length ys)); simpl; [|reflexivity].
      exfalso. apply Hbad. unfold wstdform1_shapes_ok.
      repeat split; auto; try lia; intros ? [= <-]; lia.
    + destruct (Nat.eqb_spec (size1 X) (size1 Xs)); simpl; [|reflexivity].
      destruct (Nat.eqb_spec (size2 X) (size2 Xs)); simpl; [|reflexivity].
      destruct (Nat.eqb_spec (size1 X) (length ys)); simpl; [|reflexivity].
      exfalso. apply Hbad. unfold wstdform1_shapes_ok.
      repeat split; auto; try lia; intros ? [=]; subst; lia.
  - destruct (Nat.eqb_spec (size1 X) (length y)); simpl; [|reflexivity].
    destruct w as [wv|].
    + destruct (Nat.eqb_spec (size1 X) (length wv)); simpl; [|reflexivity].
      destruct (Nat.eqb_spec (size1 X) (size1 Xs)); simpl; [|reflexivity].
      destruct (Nat.eqb_spec (size2 X) (size2 Xs)); simpl; [|reflexivity].
      destruct (Nat.eqb_spec (size1 X) (length ys)); simpl; [|reflexivity].
      exfalso. apply Hbad. unfold wstdform1_shapes_ok.
      repeat split; auto; try lia; intros ? [=]; subst; lia.
    + destruct (Nat.eqb_spec (size1 X) (size1 Xs)); simpl; [|reflexivity].
      destruct (Nat.eqb_spec (size2 X) (size2 Xs)); simpl; [|reflexivity].
      destruct (Nat.eqb_spec (size1 X) (length ys)); simpl; [|reflexivity].
      exfalso. apply Hbad. unfold wstdform1_shapes_ok.
      repeat split; auto; try lia; intros ? [=].
Qed.

(** A call that passes the shape checks runs the two loops on the copies. *)
Lemma wstdform1_accepted L X w y Xs ys work :
  wstdform1_shapes_ok L X w y Xs ys work ->
  gsl_multifit_linear_wstdform1 L X w y Xs ys work =
  (let Xs2 := with_rows Xs (weighted_rows w (size1 X) (rows X)) in
   let st := match L with
             | Some l => foldl (fun s j => wstdform1_scale_column l j s)
                               (GSL_SUCCESS, Xs2) (seq 0 (size2 X))
             | None => (GSL_SUCCESS, Xs2)
             end in
   (fst st, snd st, weighted_entries w (size1 X) y)).
Proof.
  intros (Hn & Hp & HL & Hy & Hw & HXs1 & HXs2 & Hys).
  unfold gsl_multifit_linear_wstdform1.
  replace (work_nmax work <? size1 X)%nat with false by (symmetry; apply Nat.ltb_ge; lia).
  replace (work_pmax work <? size2 X)%nat with false by (symmetry; apply Nat.ltb_ge; lia).
  simpl.
  replace (match L with Some l => negb (size2 X =? length l)%nat | None => false end)
    with false.
  2:{ destruct L as [l|]; auto. rewrite (HL l eq_refl), Nat.eqb_refl. reflexivity. }
  replace (match w with Some wv => negb (size1 X =? length wv)%nat | None => false end)
    with false.
  2:{ destruct w as [wv|]; auto. rewrite (Hw wv eq_refl), Nat.eqb_refl. reflexivity. }
  rewrite <- Hy at 1. rewrite Nat.eqb_refl. simpl.
  rewrite <- HXs1 at 1. rewrite <- HXs2 at 1. rewrite !Nat.eqb_refl. simpl.
  rewrite <- Hys at 1. rewrite Nat.eqb_refl. simpl.
  unfold gsl_matrix_memcpy, gsl_vector_memcpy.
  rewrite HXs1, HXs2, Hys, Hy, !Nat.eqb_refl. simpl.
  unfold for_loop. rewrite Nat.sub_0_r.
  destruct w as [wv|]; simpl.
  - rewrite weight_loop_closed. simpl.
    rewrite Nat.sub_0_r.
    destruct L as [l|]; simpl.
    + destruct (foldl _ _ _); reflexivity.
    + reflexivity.
  - rewrite Nat.sub_0_r. destruct L as [l|]; simpl.
    + destruct (foldl _ _ _); reflexivity.
    + reflexivity.
Qed.

(** The entries of [Xs] and [ys] once the shape checks are passed, whether
    the loop over the columns ran to its end ([j0 = size2 X]) or returned
    at the column [j0]. *)
Lemma wstdform1_entries L X w y Xs ys work :
  matrix_wf X ->
  wstdform1_shapes_ok L X w y Xs ys work ->
  exists s Xs' ys' j0,
    gsl_multifit_linear_wstdform1 L X w y Xs ys work = (s, Xs', ys') /\
    size1 Xs' = size1 X /\ size2 Xs' = size2 X /\ length ys' = size1 X /\
    j0 <= size2 X /\
    (forall l, L = Some l -> nonzero_below l j0) /\
    ((s = GSL_SUCCESS /\ j0 = size2 X) \/
     (s = GSL_EDOM /\ j0 < size2 X /\
      exists l, L = Some l /\ (gsl_vector_get l j0 =? 0)%float = true)) /\
    (forall i j, i < size1 X -> j < size2 X ->
       gsl_matrix_get Xs' i j =
       if (j <? j0)%nat then apply_Linv L j (apply_weight w i (gsl_matrix_get X i j))
       else apply_weight w i (gsl_matrix_get X i j)) /\
    (forall i, i < size1 X ->
       gsl_vector_get ys' i = apply_weight w i (gsl_vector_get y i)).
Proof.
  intros HX Hok.
  rewrite (wstdform1_accepted _ _ _ _ _ _ _ Hok). cbv zeta.
  destruct Hok as (Hn & Hp & HL & Hy & Hw & HXs1 & HXs2 & Hys).
  assert (Hylen : length (weighted_entries w (size1 X) y) = size1 X).
  { destruct w; simpl; auto. unfold weight_entries. rewrite length_imap. auto. }
  assert (Hyent : forall i, i < size1 X ->
            gsl_vector_get (weighted_entries w (size1 X) y) i =
            apply_weight w i (gsl_vector_get y i)).
  { intros i Hi. destruct (lookup_lt_is_Some_2 y i) as [x Hx]; [lia|].
    rewrite (gsl_vector_get_Some _ _ _ Hx).
    apply gsl_vector_get_Some, lookup_weighted_entries; auto. }
  destruct L as [l|].
  - pose proof (column_loop_closed l
                  (with_rows Xs (weighted_rows w (size1 X) (rows X))) (size2 X)) as Hpost.
    destruct (foldl _ _ _) as [s Xs'].
    destruct Hpost as (H1 & H2 & [(Hs & Hnz & Hrows) | (Hs & j0 & Hj0 & Hz & Hnz & Hrows)]);
      simpl in *.
    + exists s, Xs', (weighted_entries w (size1 X) y), (size2 X).
      split; [reflexivity|]. split; [lia|]. split; [lia|].
      split; [exact Hylen|]. split; [lia|].
      split; [intros l' [= <-]; exact Hnz|].
      split; [left; auto|]. split; [|exact Hyent].
      intros i j Hi Hj.
      destruct (matrix_wf_lookup X i j HX Hi Hj) as (r & x & Hr & Hx & ->).
      destruct (lookup_weighted_rows w (size1 X) _ _ _ Hi Hr) as (r' & Hr' & Hent).
      rewrite (get_scale_columns _ _ _ _ _ _ _ _ Hrows Hr' (Hent _ _ Hx)).
      reflexivity.
    + exists s, Xs', (weighted_entries w (size1 X) y), j0.
      split; [reflexivity|]. split; [lia|]. split; [lia|].
      split; [exact Hylen|]. split; [lia|].
      split; [intros l' [= <-]; exact Hnz|].
      split; [right; split; [exact Hs|]; split; [exact Hj0|]; exists l; auto|].
      split; [|exact Hyent].
      intros i j Hi Hj.
      destruct (matrix_wf_lookup X i j HX Hi Hj) as (r & x & Hr & Hx & ->).
      destruct (lookup_weighted_rows w (size1 X) _ _ _ Hi Hr) as (r' & Hr' & Hent).
      rewrite (get_scale_columns _ _ _ _ _ _ _ _ Hrows Hr' (Hent _ _ Hx)).
      reflexivity.
  - simpl.
    exists GSL_SUCCESS, (with_rows Xs (weighted_rows w (size1 X) (rows X))),
           (weighted_entries w (size1 X) y), (size2 X).
    split; [reflexivity|]. split; [exact HXs1|]. split; [exact HXs2|].
    split; [exact Hylen|]. split; [lia|].
    split; [intros l [=]|].
    split; [left; auto|]. split; [|exact Hyent].
    intros i j Hi Hj.
    destruct (matrix_wf_lookup X i j HX Hi Hj) as (r & x & Hr & Hx & ->).
    destruct (lookup_weighted_rows w (size1 X) _ _ _ Hi Hr) as (r' & Hr' & Hent).
    replace (j <? size2 X)%nat with true by (symmetry; apply Nat.ltb_lt; lia).
    simpl. eapply matrix_get_rows; [exact Hr'|]. apply Hent, Hx.
Qed.



(** C2, as the code has it. A length-mismatch return ([GSL_EBADLEN]) of
    [gsl_multifit_linear_wstdform1] happens before any write: [Xs] and
    [ys] hold their input contents. The zero-diagonal return ([GSL_EDOM])
    comes from inside the loop over the columns, after the writes: [ys]
    holds the weighted y, and [Xs] the weighted X with the columns before
    the first zero entry of L already divided. *)
Theorem wstdform1_error_returns L X w y Xs ys work s Xs' ys' :
  matrix_wf X ->
  gsl_multifit_linear_wstdform1 L X w y Xs ys work = (s, Xs', ys') ->
  s <> GSL_SUCCESS ->
  (s = GSL_EBADLEN /\ ~ wstdform1_shapes_ok L X w y Xs ys work /\ Xs' = Xs /\ ys' = ys)
  \/
  (s = GSL_EDOM /\ wstdform1_shapes_ok L X w y Xs ys work /\
   exists l j0,
     L = Some l /\ j0 < size2 X /\
     (gsl_vector_get l j0 =? 0)%float = true /\
     nonzero_below l j0 /\
     (forall i j, i < size1 X -> j < size2 X ->
        gsl_matrix_get Xs' i j =
        if (j <? j0)%nat then apply_Linv L j (apply_weight w i (gsl_matrix_get X i j))
        else apply_weight w i (gsl_matrix_get X i j)) /\
     (forall i, i < size1 X ->
        gsl_vector_get ys' i = apply_weight w i (gsl_vector_get y i))).
Proof.
  intros HX Hcall Hs.
  destruct (wstdform1_shapes_dec L X w y Xs ys work) as [Hok|Hbad].
  - right.
    destruct (wstdform1_entries L X w y Xs ys work HX Hok)
      as (s1 & Xs1 & ys1 & j0 & Hcall1 & _ & _ & _ & _ & Hnz & Hcase & HXs & Hys).
    rewrite Hcall in Hcall1. injection Hcall1 as <- <- <-.
    destruct Hcase as [(-> & _) | (-> & Hlt & l & -> & Hz)]; [congruence|].
    split; [reflexivity|]. split; [exact Hok|].
    exists l, j0. split; [reflexivity|]. split; [exact Hlt|]. split; [exact Hz|].
    split; [|split; assumption].
    apply Hnz. reflexivity.
  - left. rewrite (wstdform1_rejected _ _ _ _ _ _ _ Hbad) in Hcall.
    injection Hcall as <- <- <-. auto.
Qed.

Lemma wstdform1_error_returns_witness :
  (GSL_EBADLEN = GSL_EBADLEN /\
   ~ wstdform1_shapes_ok (Some [2]%float) (Matrix 1 1 [[1]]%float) None [1; 1]%float
       (Matrix 1 1 [[5]]%float) [7]%float (fresh_workspace 1 1) /\
   Matrix 1 1 [[5]]%float = Matrix 1 1 [[5]]%float /\ [7]%float = [7]%float)
  \/
  (GSL_EBADLEN = GSL_EDOM /\
   wstdform1_shapes_ok (Some [2]%float) (Matrix 1 1 [[1]]%float) None [1; 1]%float
     (Matrix 1 1 [[5]]%float) [7]%float (fresh_workspace 1 1) /\
   exists l j0,
     Some [2]%float = Some l /\ j0 < 1 /\
     (gsl_vector_get l j0 =? 0)%float = true /\
     nonzero_below l j0 /\
     (forall i j, i < 1 -> j < 1 ->
        gsl_matrix_get (Matrix 1 1 [[5]]%float) i j =
        if (j <? j0)%nat
        then apply_Linv (Some [2]%float) j
               (apply_weight None i (gsl_matrix_get (Matrix 1 1 [[1]]%float) i j))
        else apply_weight None i (gsl_matrix_get (Matrix 1 1 [[1]]%float) i j)) /\
     (forall i, i < 1 ->
        gsl_vector_get [7]%float i = apply_weight None i (gsl_vector_get [1; 1]%float i))).
Proof.
  apply (wstdform1_error_returns (Some [2]%float) (Matrix 1 1 [[1]]%float) None
           [1; 1]%float (Matrix 1 1 [[5]]%float) [7]%float (fresh_workspace 1 1)
           GSL_EBADLEN (Matrix 1 1 [[5]]%float) [7]%float).
  - split; [reflexivity | repeat constructor].
  - reflexivity.
  - discriminate.
Defined.

(** C2, as the claim has it, fails: with the 1-by-1 system X = (1), y = (1)
    and the singular L = (0), the call returns [GSL_EDOM] after it has
    overwritten Xs = (5) with (1) and ys = (7) with (1). *)
Lemma wstdform1_zero_diagonal_overwrites_outputs :
  gsl_multifit_linear_wstdform1 (Some [0]%float) (Matrix 1 1 [[1]]%float) None
    [1]%float (Matrix 1 1 [[5]]%float) [7]%float (fresh_workspace 1 1)
  = (GSL_EDOM, Matrix 1 1 [[1]]%float, [1]%float) /\
  Matrix 1 1 [[1]]%float <> Matrix 1 1 [[5]]%float /\
  [1]%float <> [7]%float.
Proof.
  split; [vm_compute; reflexivity|]. split.
  - intros H. apply (f_equal (fun m => (gsl_matrix_get m 0 0 =? 1)%float)) in H.
    vm_compute in H. discriminate.
  - intros H. apply (f_equal (fun v => (gsl_vector_get v 0 =? 1)%float)) in H.
    vm_compute in H. discriminate.
Qed.

(** ** Derivative operators *)

Example Lk_second_difference :
  gsl_multifit_linear_Lk 5 2 (gsl_matrix_alloc 3 5) =
  (GSL_SUCCESS,
   Matrix 3 5 [[1; -2; 1; 0; 0]; [0; 1; -2; 1; 0]; [0; 0; 1; -2; 1]]%float).
Proof. vm_compute. reflexivity. Qed.

Example Lk_third_difference :
  gsl_multifit_linear_Lk 5 3 (gsl_matrix_alloc 2 5) =
  (GSL_SUCCESS, Matrix 2 5 [[-1; 3; -3; 1; 0]; [0; -1; 3; -3; 1]]%float).
Proof. vm_compute. reflexivity. Qed.

Example Lk_wrong_shape :
  gsl_multifit_linear_Lk 5 2 (gsl_matrix_alloc 5 5) = (GSL_EBADLEN, gsl_matrix_alloc 5 5).
Proof. vm_compute. reflexivity. Qed.

Lemma Lk_fill_diagonal_get (cv : gsl_vector) k (L : gsl_matrix) i j :
  matrix_wf L -> i < size1 L -> j < size2 L ->
  gsl_matrix_get (Lk_fill_diagonal cv k L) i j =
  if (j =? i + k)%nat then gsl_vector_get cv k else gsl_matrix_get L i j.
Proof.
  intros Hwf Hi Hj. unfold Lk_fill_diagonal.
  rewrite get_put_superdiagonal by assumption.
  unfold gsl_vector_set_all, gsl_matrix_superdiagonal, superdiagonal_length, GSL_MIN.
  rewrite length_replicate, length_fmap, length_seq.
  destruct (Nat.eqb_spec j (i + k)) as [->|Hne]; [|rewrite andb_false_r; reflexivity].
  rewrite andb_true_r.
  replace (i <? (if (size1 L <? size2 L - k)%nat then size1 L else size2 L - k))%nat
    with true.
  2:{ symmetry. apply Nat.ltb_lt. destruct (Nat.ltb_spec (size1 L) (size2 L - k)); lia. }
  unfold gsl_vector_get. rewrite lookup_replicate_2; [reflexivity|].
  destruct (Nat.ltb_spec (size1 L) (size2 L - k)); lia.
Qed.

(** C8. [gsl_multifit_linear_Lk (p, 0, L)] sets a p-by-p [L] to the
    identity; [gsl_multifit_linear_Lk (p, 1, L)] sets a (p-1)-by-p [L] to
    the matrix whose row i is -1 at column i, +1 at column i+1 and zero
    elsewhere; and for every p <= k the call fails with the
    length-mismatch code [GSL_EBADLEN]. *)
Theorem Lk_identity_first_difference_and_order_check :
  (forall p L, 0 < p -> size1 L = p -> size2 L = p ->
     exists L', gsl_multifit_linear_Lk p 0 L = (GSL_SUCCESS, L') /\
                size1 L' = p /\ size2 L' = p /\
                forall i j, i < p -> j < p ->
                  gsl_matrix_get L' i j = if (i =? j)%nat then 1%float else 0%float) /\
  (forall p L, 2 <= p -> size1 L = p - 1 -> size2 L = p ->
     exists L', gsl_multifit_linear_Lk p 1 L = (GSL_SUCCESS, L') /\
                size1 L' = p - 1 /\ size2 L' = p /\
                forall i j, i < p - 1 -> j < p ->
                  gsl_matrix_get L' i j =
                  if (j =? i)%nat then (-1)%float
                  else if (j =? i + 1)%nat then 1%float else 0%float) /\
  (forall p k L, p <= k -> gsl_multifit_linear_Lk p k L = (GSL_EBADLEN, L)).
Proof.
  split; [|split].
  - intros p L Hp H1 H2. unfold gsl_multifit_linear_Lk.
    replace (p <=? 0)%nat with false by (symmetry; apply Nat.leb_gt; lia).
    rewrite Nat.sub_0_r, H1, H2, Nat.eqb_refl. simpl.
    eexists; split; [reflexivity|]. simpl. repeat split; auto.
    intros i j Hi Hj. apply get_set_identity; lia.
  - intros p L Hp H1 H2. unfold gsl_multifit_linear_Lk.
    replace (p <=? 1)%nat with false by (symmetry; apply Nat.leb_gt; lia).
    rewrite H1, H2, !Nat.eqb_refl. simpl.
    eexists; split; [reflexivity|]. unfold for_loop. simpl.
    repeat split; auto.
    intros i j Hi Hj.
    assert (Hwf0 : matrix_wf (gsl_matrix_set_zero L)) by apply matrix_wf_set_all.
    rewrite Lk_fill_diagonal_get; simpl; try lia.
    2:{ apply matrix_wf_put_superdiagonal, Hwf0. }
    rewrite Lk_fill_diagonal_get; simpl; try lia; auto.
    unfold gsl_matrix_set_zero. rewrite get_set_all by lia.
    rewrite Nat.add_0_r.
    destruct (Nat.eqb_spec j (i + 1)), (Nat.eqb_spec j i); try lia; reflexivity.
  - intros p k L Hpk. unfold gsl_multifit_linear_Lk.
    replace (p <=? k)%nat with true by (symmetry; apply Nat.leb_le; lia). reflexivity.
Qed.

Lemma Lk_identity_first_difference_and_order_check_witness :
  (exists L', gsl_multifit_linear_Lk 3 0 (gsl_matrix_alloc 3 3) = (GSL_SUCCESS, L') /\
              size1 L' = 3 /\ size2 L' = 3 /\
              forall i j, i < 3 -> j < 3 ->
                gsl_matrix_get L' i j = if (i =? j)%nat then 1%float else 0%float) /\
  (exists L', gsl_multifit_linear_Lk 4 1 (gsl_matrix_alloc 3 4) = (GSL_SUCCESS, L') /\
              size1 L' = 4 - 1 /\ size2 L' = 4 /\
              forall i j, i < 4 - 1 -> j < 4 ->
                gsl_matrix_get L' i j =
                if (j =? i)%nat then (-1)%float
                else if (j =? i + 1)%nat then 1%float else 0%float) /\
  gsl_multifit_linear_Lk 2 2 (gsl_matrix_alloc 1 2) = (GSL_EBADLEN, gsl_matrix_alloc 1 2).
Proof.
  split; [|split].
  - apply (proj1 Lk_identity_first_difference_and_order_check 3 (gsl_matrix_alloc 3 3));
      [lia | reflexivity | reflexivity].
  - apply (proj1 (proj2 Lk_identity_first_difference_and_order_check)
             4 (gsl_matrix_alloc 3 4)); [lia | reflexivity | reflexivity].
  - apply (proj2 (proj2 Lk_identity_first_difference_and_order_check)
             2 2 (gsl_matrix_alloc 1 2)). lia.
Defined.

(** ** Back-transformation for a diagonal regularization matrix *)

Example genform1_zero_entries :
  gsl_multifit_linear_genform1 [2; 0; 0]%float [1; 1; 0]%float [9; 9; 9]%float
    (fresh_workspace 3 3)
  = (GSL_SUCCESS, [0.5; infinity; nan]%float).
Proof. vm_compute. reflexivity. Qed.

(** C9. [gsl_multifit_linear_genform1] makes no singularity check: for
    L, cs and c of one length within the workspace bound it returns
    success with c(i) = cs(i) / l_i, and where l_i is a zero and cs(i) is
    not, c(i) is the result of an IEEE division by zero, which is not
    finite. *)
Theorem genform1_divides_without_singularity_check (L cs c : gsl_vector)
    (work : gsl_multifit_linear_workspace) :
  length L <= work_pmax work ->
  length L = length cs ->
  length L = length c ->
  exists c',
    gsl_multifit_linear_genform1 L cs c work = (GSL_SUCCESS, c') /\
    length c' = length L /\
    forall i, i < length L ->
      gsl_vector_get c' i = (gsl_vector_get cs i / gsl_vector_get L i)%float /\
      ((gsl_vector_get L i =? 0)%float = true ->
       (gsl_vector_get cs i =? 0)%float = false ->
       gsl_finite (gsl_vector_get c' i) = false).
Proof.
  intros Hp Hcs Hc. unfold gsl_multifit_linear_genform1.
  replace (work_pmax work <? length L)%nat with false by (symmetry; apply Nat.ltb_ge; lia).
  rewrite <- Hcs, <- Hc, !Nat.eqb_refl. simpl.
  unfold gsl_vector_memcpy, gsl_vector_div.
  replace (length c =? length cs)%nat with true by (symmetry; apply Nat.eqb_eq; lia).
  replace (length cs =? length L)%nat with true by (symmetry; apply Nat.eqb_eq; lia).
  eexists; split; [reflexivity|]. split.
  - rewrite length_zip_with; lia.
  - intros i Hi.
    destruct (lookup_lt_is_Some_2 L i) as [li Hli]; [lia|].
    destruct (lookup_lt_is_Some_2 cs i) as [ci Hci]; [lia|].
    assert (Hget : gsl_vector_get (zip_with (fun ai bi => (ai / bi)%float) cs L) i =
                   (ci / li)%float).
    { apply gsl_vector_get_Some. rewrite lookup_zip_with, Hci, Hli. reflexivity. }
    rewrite Hget, (gsl_vector_get_Some _ _ _ Hli), (gsl_vector_get_Some _ _ _ Hci).
    split; [reflexivity|].
    intros Hz _. apply div_zero_not_finite, Hz.
Qed.

Lemma genform1_divides_without_singularity_check_witness :
  exists c',
    gsl_multifit_linear_genform1 [2; 0; 0]%float [1; 1; 0]%float [9; 9; 9]%float
      (fresh_workspace 3 3) = (GSL_SUCCESS, c') /\
    length c' = 3 /\
    forall i, i < 3 ->
      gsl_vector_get c' i =
      (gsl_vector_get [1; 1; 0]%float i / gsl_vector_get [2; 0; 0]%float i)%float /\
      ((gsl_vector_get [2; 0; 0]%float i =? 0)%float = true ->
       (gsl_vector_get [1; 1; 0]%float i =? 0)%float = false ->
       gsl_finite (gsl_vector_get c' i) = false).
Proof.
  apply (genform1_divides_without_singularity_check
           [2; 0; 0]%float [1; 1; 0]%float [9; 9; 9]%float (fresh_workspace 3 3));
    simpl; lia.
Defined.

(** ** The kernels' callers *)

(** C7. After every successful call of [gsl_multifit_linear_lcurve] the
    scratch vector [work->D], used during the computation, holds ones
    throughout, whatever the kernels and [pow] computed. *)
Theorem lcurve_restores_D (pow : float -> float -> float) (K : linalg)
    (y reg_param rho eta : gsl_vector)
    (work : gsl_multifit_linear_workspace) (s : gsl_status) (out : lcurve_out) :
  gsl_multifit_linear_lcurve pow K y reg_param rho eta work = (s, out) ->
  s = GSL_SUCCESS ->
  work_D (out_lwork out) = replicate (length (work_D work)) 1%float.
Proof.
  unfold gsl_multifit_linear_lcurve. intros Hcall Hs.
  destruct (negb (length y =? work_n work)%nat); [congruence|].
  destruct (length rho <? 3)%nat; [congruence|].
  destruct (negb (length rho =? length eta)%nat); [congruence|].
  destruct (negb (length reg_param =? length eta)%nat); [congruence|].
  destruct (for_loop 0 (length rho) _ _) as [[[workp workp2] rho'] eta'].
  injection Hcall as _ <-. simpl.
  unfold gsl_vector_set_all. rewrite length_put_subvector_0. reflexivity.
Qed.

Lemma lcurve_restores_D_witness :
  work_D (out_lwork (snd
    (gsl_multifit_linear_lcurve (fun x _ => x) idle_linalg
       [1; 1]%float [0; 0; 0]%float [0; 0; 0]%float [0; 0; 0]%float
       {| work_nmax := 2; work_pmax := 1; work_n := 2; work_p := 1;
          work_A := gsl_matrix_alloc 2 1; work_Q := gsl_matrix_alloc 1 1;
          work_QSI := gsl_matrix_alloc 1 1; work_S := [1]%float;
          work_t := [0; 0]%float; work_xt := [0]%float; work_D := [1]%float;
          work_Linv := gsl_matrix_alloc 1 1 |})))
  = replicate 1 1%float.
Proof.
  apply (lcurve_restores_D (fun x _ => x) idle_linalg
           [1; 1]%float [0; 0; 0]%float [0; 0; 0]%float [0; 0; 0]%float
           {| work_nmax := 2; work_pmax := 1; work_n := 2; work_p := 1;
              work_A := gsl_matrix_alloc 2 1; work_Q := gsl_matrix_alloc 1 1;
              work_QSI := gsl_matrix_alloc 1 1; work_S := [1]%float;
              work_t := [0; 0]%float; work_xt := [0]%float; work_D := [1]%float;
              work_Linv := gsl_matrix_alloc 1 1 |}
           GSL_SUCCESS).
  - vm_compute. reflexivity.
  - reflexivity.
Defined.

(** C5. For a regularization matrix with m < p rows, every other shape
    check passing, and any non-NULL weight vector,
    [gsl_multifit_linear_wstdform2] fails with the invalid-argument code
    [GSL_EINVAL] and writes nothing. *)
Theorem wstdform2_rejects_weights_for_wide_L (K : linalg) (L X : gsl_matrix)
    (wv y : gsl_vector) (Xs : gsl_matrix) (ys : gsl_vector) (M : gsl_matrix)
    (work : gsl_multifit_linear_workspace) :
  size1 X <= work_nmax work ->
  size2 X <= work_pmax work ->
  size2 L = size2 X ->
  length y = size1 X ->
  length wv = size1 X ->
  size1 L < size2 X ->
  size1 Xs = size_sub (size1 X) (size2 X - size1 L) ->
  size2 Xs = size1 L ->
  length ys = size_sub (size1 X) (size2 X - size1 L) ->
  size1 M = size2 X ->
  size2 M = size1 X ->
  gsl_multifit_linear_wstdform2 K L X (Some wv) y Xs ys M work =
  (GSL_EINVAL, Stdform2Out Xs ys M work).
Proof.
  intros Hn Hp HL Hy Hw Hm HXs1 HXs2 Hys HM1 HM2.
  unfold gsl_multifit_linear_wstdform2.
  replace (work_nmax work <? size1 X)%nat with false by (symmetry; apply Nat.ltb_ge; lia).
  replace (work_pmax work <? size2 X)%nat with false by (symmetry; apply Nat.ltb_ge; lia).
  rewrite HL, Hy, Hw, !Nat.eqb_refl. simpl.
  replace (size2 X <=? size1 L)%nat with false by (symmetry; apply Nat.leb_gt; lia).
  rewrite <- HXs1, HXs2, !Nat.eqb_refl. simpl.
  rewrite HXs1, <- Hys, Nat.eqb_refl. simpl.
  rewrite HM1, HM2, !Nat.eqb_refl. simpl.
  reflexivity.
Qed.

Lemma wstdform2_rejects_weights_for_wide_L_witness :
  gsl_multifit_linear_wstdform2 idle_linalg
    (Matrix 1 2 [[1; -1]]%float) (Matrix 2 2 [[1; 2]; [3; 4]]%float)
    (Some [1; 1]%float) [1; 1]%float
    (gsl_matrix_alloc 1 1) [0]%float (gsl_matrix_alloc 2 2) (fresh_workspace 2 2)
  = (GSL_EINVAL,
     Stdform2Out (gsl_matrix_alloc 1 1) [0]%float (gsl_matrix_alloc 2 2)
       (fresh_workspace 2 2)).
Proof.
  apply (wstdform2_rejects_weights_for_wide_L idle_linalg
           (Matrix 1 2 [[1; -1]]%float) (Matrix 2 2 [[1; 2]; [3; 4]]%float)
           [1; 1]%float [1; 1]%float
           (gsl_matrix_alloc 1 1) [0]%float (gsl_matrix_alloc 2 2) (fresh_workspace 2 2));
    simpl; try reflexivity; lia.
Defined.

(** ** The grid of regularization parameters *)

Lemma lreg_loop_spec (ratio : float) (k : nat) (rp : gsl_vector) :
  k < length rp ->
  length (lreg_loop ratio k rp) = length rp /\
  (forall j, k <= j -> lreg_loop ratio k rp !! j = rp !! j) /\
  (forall i, i < k ->
     gsl_vector_get (lreg_loop ratio k rp) i =
     (ratio * gsl_vector_get (lreg_loop ratio k rp) (i + 1))%float).
Proof.
  revert rp. induction k as [|k IH]; intros rp Hk; simpl.
  - repeat split; auto. intros i Hi. lia.
  - unfold gsl_vector_set.
    set (x := (ratio * gsl_vector_get rp (k + 1))%float).
    destruct (IH (<[k := x]> rp)) as (Hlen & Hkeep & Hrec).
    { rewrite length_insert. lia. }
    rewrite length_insert in Hlen.
    split; [exact Hlen|]. split.
    + intros j Hj. rewrite Hkeep by lia. apply list_lookup_insert_ne. lia.
    + intros i Hi. destruct (decide (i = k)) as [->|Hne].
      * unfold gsl_vector_get. rewrite !Hkeep by lia.
        rewrite list_lookup_insert_eq by lia.
        rewrite list_lookup_insert_ne by lia. reflexivity.
      * apply Hrec. lia.
Qed.

(** C1, as the code has it. For smax > 0, whatever [smin], and a grid of
    N >= 3 entries [gsl_multifit_linear_lreg] succeeds; the last entry is
    max(smin, 16*eps*smax), as [GSL_MAX] computes it, and each preceding
    entry is the double product of ratio = pow(smax / last, 1/(N-1)) and
    its successor. *)
Theorem lreg_grid_last_entry_and_recurrence (pow : float -> float -> float)
    (smin smax : float) (reg_param : gsl_vector) :
  (0 <? smax)%float = true ->
  3 <= length reg_param ->
  let N := length reg_param in
  let new_smin := GSL_MAX smin (smax * (16 * GSL_DBL_EPSILON))%float in
  let ratio := pow (smax / new_smin)%float (1 / (double_of_size N - 1))%float in
  exists g,
    gsl_multifit_linear_lreg pow smin smax reg_param = (GSL_SUCCESS, g) /\
    length g = N /\
    gsl_vector_get g (N - 1) = new_smin /\
    forall i, i + 1 < N -> gsl_vector_get g i = (ratio * gsl_vector_get g (i + 1))%float.
Proof.
  intros Hsmax HN N new_smin ratio.
  unfold gsl_multifit_linear_lreg. rewrite (ltb_zero_not_leb _ Hsmax).
  fold N. rewrite size_sub_le by lia. fold new_smin. fold ratio.
  eexists; split; [reflexivity|].
  destruct (lreg_loop_spec ratio (N - 1) (gsl_vector_set reg_param (N - 1) new_smin))
    as (Hlen & Hkeep & Hrec).
  { unfold gsl_vector_set. rewrite length_insert. lia. }
  unfold gsl_vector_set in *. rewrite length_insert in Hlen.
  split; [exact Hlen|]. split.
  - unfold gsl_vector_get. rewrite Hkeep by lia.
    rewrite list_lookup_insert_eq by lia. reflexivity.
  - intros i Hi. apply Hrec. lia.
Qed.

Lemma lreg_grid_last_entry_and_recurrence_witness :
  exists g,
    gsl_multifit_linear_lreg (fun x _ => x) 1 16 [0; 0; 0]%float = (GSL_SUCCESS, g) /\
    length g = 3 /\
    gsl_vector_get g (3 - 1) = GSL_MAX 1 (16 * (16 * GSL_DBL_EPSILON))%float /\
    forall i, i + 1 < 3 ->
      gsl_vector_get g i =
      ((fun x _ : float => x) (16 / GSL_MAX 1 (16 * (16 * GSL_DBL_EPSILON)))
         (1 / (double_of_size 3 - 1))
       * gsl_vector_get g (i + 1))%float.
Proof.
  apply (lreg_grid_last_entry_and_recurrence (fun x _ => x) 1%float 16%float
           [0; 0; 0]%float).
  - reflexivity.
  - simpl. lia.
Defined.

(** With [smin = smax = 1] and three grid points the ratio is
    [pow (1, 0.5)], and the grid is constant as soon as that is 1. *)
Lemma lreg_equal_singular_values (pow : float -> float -> float) :
  pow_unit_base pow ->
  gsl_multifit_linear_lreg pow 1 1 [0; 0; 0]%float = (GSL_SUCCESS, [1; 1; 1]%float).
Proof.
  intros Hpow. unfold gsl_multifit_linear_lreg.
  change ((1 <=? 0)%float) with false. cbv iota.
  change (GSL_MAX 1 (1 * (16 * GSL_DBL_EPSILON))%float) with 1%float.
  change ((1 / 1)%float) with 1%float.
  rewrite Hpow. vm_compute. reflexivity.
Qed.

(** With [smin] the double just below [smax = 1] and five grid points
    the quotient [smax / smin] rounds to [1 + 2^-52] and the exponent is
    [0.25]; the fourth root of that base is nearer to 1 than to any other
    double, and the grid is constant as soon as [pow] returns 1 there. *)
Lemma lreg_adjacent_singular_values (pow : float -> float -> float) :
  pow 0x1.0000000000001p+0%float 0.25%float = 1%float ->
  gsl_multifit_linear_lreg pow 0x1.fffffffffffffp-1 1 [0; 0; 0; 0; 0]%float =
  (GSL_SUCCESS, replicate 5 0x1.fffffffffffffp-1%float).
Proof.
  intros Hpow. unfold gsl_multifit_linear_lreg.
  change ((1 <=? 0)%float) with false. cbv iota.
  change (GSL_MAX 0x1.fffffffffffffp-1 (1 * (16 * GSL_DBL_EPSILON))%float)
    with 0x1.fffffffffffffp-1%float.
  change ((1 / 0x1.fffffffffffffp-1)%float) with 0x1.0000000000001p+0%float.
  change ((1 / (double_of_size (length [0; 0; 0; 0; 0]%float) - 1))%float)
    with 0.25%float.
  rewrite Hpow. vm_compute. reflexivity.
Qed.

(** C1, as the claim has it, fails: with smin = smax = 1 (both positive)
    and three grid points the ratio is pow(1, 0.5) = 1 and the grid is
    1, 1, 1, which is not strictly decreasing. Nor does smin < smax
    rescue the strict decrease in doubles: with smin the double just
    below smax = 1 and five grid points, a [pow] that returns the nearest
    double 1 for the fourth root of 1 + 2^-52 gives a constant grid. *)
Lemma lreg_grid_not_strictly_decreasing :
  ((0 <? 1)%float = true /\
   (forall pow, pow_unit_base pow ->
      gsl_multifit_linear_lreg pow 1 1 [0; 0; 0]%float =
      (GSL_SUCCESS, [1; 1; 1]%float)) /\
   ~ strictly_decreasing [1; 1; 1]%float)
  /\
  ((0 <? 0x1.fffffffffffffp-1)%float = true /\
   (0x1.fffffffffffffp-1 <? 1)%float = true /\
   (forall pow, pow 0x1.0000000000001p+0%float 0.25%float = 1%float ->
      gsl_multifit_linear_lreg pow 0x1.fffffffffffffp-1 1 [0; 0; 0; 0; 0]%float =
      (GSL_SUCCESS, replicate 5 0x1.fffffffffffffp-1%float)) /\
   ~ strictly_decreasing (replicate 5 0x1.fffffffffffffp-1%float)).
Proof.
  split.
  - split; [reflexivity|]. split; [exact lreg_equal_singular_values|].
    intros H. specialize (H 0). simpl in H.
    assert (H1 : 0 + 1 < 3) by lia. specialize (H H1).
    vm_compute in H. discriminate.
  - split; [reflexivity|]. split; [reflexivity|].
    split; [exact lreg_adjacent_singular_values|].
    intros H. specialize (H 0). simpl in H.
    assert (H1 : 0 + 1 < 5) by lia. specialize (H H1).
    vm_compute in H. discriminate.
Qed.

(** * Further properties

    Properties of the other entry points of [multireg.c] and further
    properties of the ones above. *)

(** ** The grid of regularization parameters, continued *)

Lemma lreg_loop_length ratio k (rp : gsl_vector) :
  length (lreg_loop ratio k rp) = length rp.
Proof.
  revert rp. induction k as [|k IH]; intros rp; simpl; [reflexivity|].
  rewrite IH. unfold gsl_vector_set. apply length_insert.
Qed.

Lemma lookup_insert_agree (l l' : gsl_vector) k j x :
  length l = length l' -> (j <> k -> l !! j = l' !! j) ->
  <[k := x]> l !! j = <[k := x]> l' !! j.
Proof.
  intros Hlen Hj. destruct (decide (j = k)) as [->|Hne].
  - destruct (decide (k < length l)) as [Hk|Hk].
    + rewrite !list_lookup_insert_eq by lia. reflexivity.
    + rewrite !lookup_ge_None_2; [reflexivity | rewrite length_insert; lia
                                 | rewrite length_insert; lia].
  - rewrite !list_lookup_insert_ne by auto. auto.
Qed.

Lemma lreg_loop_ext ratio k (rp rp' : gsl_vector) :
  length rp = length rp' ->
  (forall j, k <= j -> rp !! j = rp' !! j) ->
  lreg_loop ratio k rp = lreg_loop ratio k rp'.
Proof.
  revert rp rp'. induction k as [|k IH]; intros rp rp' Hlen Hsame; simpl.
  - apply list_eq. intros j. apply Hsame. lia.
  - apply IH.
    + unfold gsl_vector_set. rewrite !length_insert. exact Hlen.
    + intros j Hj. unfold gsl_vector_set, gsl_vector_get.
      rewrite (Hsame (k + 1)) by lia.
      apply lookup_insert_agree; [exact Hlen|]. intros Hne. apply Hsame. lia.
Qed.

(** X1. Unless [smax] is rejected, [gsl_multifit_linear_lreg] overwrites
    every entry of [reg_param]: two calls on vectors of the same length
    return the same status and the same grid, whatever the vectors held. *)
Theorem lreg_overwrites_every_entry (pow : float -> float -> float)
    (smin smax : float) (reg_param reg_param' : gsl_vector) :
  length reg_param = length reg_param' ->
  (smax <=? 0)%float = false ->
  gsl_multifit_linear_lreg pow smin smax reg_param =
  gsl_multifit_linear_lreg pow smin smax reg_param'.
Proof.
  intros Hlen Hsmax. unfold gsl_multifit_linear_lreg. rewrite Hsmax, <- Hlen.
  f_equal. apply lreg_loop_ext.
  - unfold gsl_vector_set. rewrite !length_insert. exact Hlen.
  - intros j Hj. unfold gsl_vector_set.
    apply lookup_insert_agree; [exact Hlen|]. intros Hne.
    destruct reg_param as [|x rp], reg_param' as [|x' rp']; simpl in Hlen;
      try discriminate; [reflexivity|].
    rewrite size_sub_le in Hj, Hne by (simpl; lia). simpl in Hj, Hne.
    rewrite !lookup_ge_None_2 by (simpl; lia). reflexivity.
Qed.

Lemma lreg_overwrites_every_entry_witness :
  gsl_multifit_linear_lreg (fun x _ => x) 1 2 [0; 0; 0]%float =
  gsl_multifit_linear_lreg (fun x _ => x) 1 2 [5; 6; 7]%float.
Proof.
  apply (lreg_overwrites_every_entry (fun x _ => x) 1 2 [0; 0; 0]%float [5; 6; 7]%float);
    reflexivity.
Defined.

Lemma lreg_length (pow : float -> float -> float) (smin smax : float)
    (reg_param : gsl_vector) :
  length (snd (gsl_multifit_linear_lreg pow smin smax reg_param)) = length reg_param.
Proof.
  unfold gsl_multifit_linear_lreg.
  destruct (smax <=? 0)%float; simpl; [reflexivity|].
  rewrite lreg_loop_length. unfold gsl_vector_set. apply length_insert.
Qed.

(** X2. [gsl_multifit_linear_lreg] never changes the length of
    [reg_param]. When the comparison [smax <= 0] of doubles holds it
    returns [GSL_EINVAL] and the vector as it was; in every other case it
    returns success. *)
Theorem lreg_status_and_length (pow : float -> float -> float)
    (smin smax : float) (reg_param : gsl_vector) :
  length (snd (gsl_multifit_linear_lreg pow smin smax reg_param)) = length reg_param /\
  (if (smax <=? 0)%float
   then gsl_multifit_linear_lreg pow smin smax reg_param = (GSL_EINVAL, reg_param)
   else fst (gsl_multifit_linear_lreg pow smin smax reg_param) = GSL_SUCCESS).
Proof.
  split; [apply lreg_length|].
  unfold gsl_multifit_linear_lreg.
  destruct (smax <=? 0)%float; reflexivity.
Qed.

(** ** The L-curve *)

Lemma map_prefix_0 {A} (f : nat -> A -> A) (l : list A) : map_prefix f 0 l = l.
Proof.
  unfold map_prefix. apply list_eq. intros i. rewrite list_lookup_imap.
  destruct (l !! i); reflexivity.
Qed.

Lemma length_map_prefix {A} (f : nat -> A -> A) k (l : list A) :
  length (map_prefix f k l) = length l.
Proof. unfold map_prefix. apply length_imap. Qed.

Lemma lookup_map_prefix {A} (f : nat -> A -> A) k (l : list A) i :
  map_prefix f k l !! i = (fun x => if (i <? k)%nat then f i x else x) <$> l !! i.
Proof. unfold map_prefix. apply list_lookup_imap. Qed.

Lemma get_map_prefix f k (l : gsl_vector) i :
  i < length l ->
  gsl_vector_get (map_prefix f k l) i =
  if (i <? k)%nat then f i (gsl_vector_get l i) else gsl_vector_get l i.
Proof.
  intros Hi. unfold gsl_vector_get. rewrite lookup_map_prefix.
  destruct (lookup_lt_is_Some_2 l i Hi) as [x Hx]. rewrite Hx. simpl.
  destruct (i <? k)%nat; reflexivity.
Qed.

(** Writing entry [k] extends the prefix by one. *)
Lemma map_prefix_step {A} (d : A) (f : nat -> A -> A) k (l : list A) :
  <[k := f k (default d (map_prefix f k l !! k))]> (map_prefix f k l) =
  map_prefix f (S k) l.
Proof.
  apply list_eq. intros i. destruct (decide (i = k)) as [->|Hne].
  - destruct (l !! k) as [x|] eqn:Hx.
    + rewrite list_lookup_insert_eq
        by (rewrite length_map_prefix; eapply lookup_lt_Some; eauto).
      rewrite !lookup_map_prefix, Hx. simpl.
      rewrite Nat.ltb_irrefl.
      replace (k <? S k)%nat with true by (symmetry; apply Nat.ltb_lt; lia).
      reflexivity.
    + rewrite lookup_ge_None_2.
      2:{ rewrite length_insert, length_map_prefix. apply lookup_ge_None. exact Hx. }
      rewrite lookup_map_prefix, Hx. reflexivity.
  - rewrite list_lookup_insert_ne by auto. rewrite !lookup_map_prefix.
    destruct (l !! i); simpl; [|reflexivity].
    destruct (Nat.ltb_spec i k), (Nat.ltb_spec i (S k)); try lia; reflexivity.
Qed.

Lemma map_prefix_S f k (l : gsl_vector) :
  <[k := f k (gsl_vector_get (map_prefix f k l) k)]> (map_prefix f k l) =
  map_prefix f (S k) l.
Proof. apply (map_prefix_step 0%float). Qed.

Lemma insert_take_drop (l1 l2 : gsl_vector) k x :
  k < length l2 -> l1 !! k = Some x ->
  <[k := x]> (take k l1 ++ drop k l2) = take (S k) l1 ++ drop (S k) l2.
Proof.
  intros Hk Hx.
  assert (Hk1 : k < length l1) by (eapply lookup_lt_Some; eauto).
  rewrite (take_S_r _ _ _ Hx).
  destruct (lookup_lt_is_Some_2 l2 k Hk) as [y Hy].
  rewrite (drop_S _ _ _ Hy).
  rewrite insert_app_r_alt by (rewrite length_take; lia).
  rewrite length_take. replace (k - k `min` length l1) with 0 by lia.
  simpl. rewrite <- app_assoc. reflexivity.
Qed.

Lemma lcurve_filter_loop (S xt : gsl_vector) (lambda : float) (p : nat)
    (workp workp2 : gsl_vector) :
  length workp = p -> length workp2 = p ->
  for_loop 0 p (lcurve_filter S xt (lambda * lambda)%float) (workp, workp2) =
  (lcurve_solution_terms p S xt lambda, lcurve_residual_terms p S xt lambda).
Proof.
  intros H1 H2. unfold for_loop. rewrite Nat.sub_0_r.
  assert (Hgen : forall k, k <= p ->
            foldl (fun s j => lcurve_filter S xt (lambda * lambda)%float j s)
                  (workp, workp2) (seq 0 k) =
            (take k (lcurve_solution_terms p S xt lambda) ++ drop k workp,
             take k (lcurve_residual_terms p S xt lambda) ++ drop k workp2)).
  { induction k as [|k IH]; intros Hk.
    - simpl. rewrite !drop_0. reflexivity.
    - rewrite foldl_seq_S, IH by lia. simpl. unfold gsl_vector_set.
      f_equal; apply insert_take_drop; try lia.
      + unfold lcurve_solution_terms. rewrite list_lookup_fmap, lookup_seq_lt by lia.
        reflexivity.
      + unfold lcurve_residual_terms. rewrite list_lookup_fmap, lookup_seq_lt by lia.
        reflexivity. }
  rewrite Hgen by lia.
  rewrite !drop_ge by lia. rewrite !app_nil_r.
  rewrite !take_ge; [reflexivity | |];
    unfold lcurve_residual_terms, lcurve_solution_terms;
    rewrite length_fmap, length_seq; lia.
Qed.

Lemma length_lcurve_solution_terms p S xt lambda :
  length (lcurve_solution_terms p S xt lambda) = p.
Proof. unfold lcurve_solution_terms. rewrite length_fmap, length_seq. reflexivity. Qed.

Lemma length_lcurve_residual_terms p S xt lambda :
  length (lcurve_residual_terms p S xt lambda) = p.
Proof. unfold lcurve_residual_terms. rewrite length_fmap, length_seq. reflexivity. Qed.

Lemma lcurve_point_loop (K : linalg) (p : nat) (S xt g : gsl_vector)
    (workp workp2 rho eta : gsl_vector) (k : nat) :
  length workp = p -> length workp2 = p ->
  exists wp wp2,
    length wp = p /\ length wp2 = p /\
    foldl (fun s i => lcurve_point K p S xt g i s) (workp, workp2, rho, eta) (seq 0 k) =
    (wp, wp2,
     map_prefix (fun i _ => gsl_blas_dnrm2 K
                   (lcurve_residual_terms p S xt (gsl_vector_get g i))) k rho,
     map_prefix (fun i _ => gsl_blas_dnrm2 K
                   (lcurve_solution_terms p S xt (gsl_vector_get g i))) k eta).
Proof.
  intros H1 H2. induction k as [|k IH].
  - exists workp, workp2. rewrite !map_prefix_0. auto.
  - destruct IH as (wp & wp2 & Hwp & Hwp2 & IH).
    rewrite foldl_seq_S, IH. simpl. unfold lcurve_point.
    rewrite lcurve_filter_loop by assumption.
    eexists _, _. split; [apply length_lcurve_solution_terms|].
    split; [apply length_lcurve_residual_terms|].
    unfold gsl_vector_set.
    rewrite <- (map_prefix_S _ k rho), <- (map_prefix_S _ k eta). reflexivity.
Qed.

Lemma lcurve_correct_loop (dr : float) (rho : gsl_vector) (k : nat) :
  foldl (fun s i => lcurve_correct dr i s) rho (seq 0 k) =
  map_prefix (fun _ r => PrimFloat.sqrt (r * r + dr)) k rho.
Proof.
  induction k as [|k IH].
  - rewrite map_prefix_0. reflexivity.
  - rewrite foldl_seq_S, IH. simpl. unfold lcurve_correct, gsl_vector_set.
    apply (map_prefix_S (fun _ r => PrimFloat.sqrt (r * r + dr))).
Qed.

Lemma lcurve_shapes_dec y reg_param rho eta work :
  {lcurve_shapes_ok y reg_param rho eta work} +
  {~ lcurve_shapes_ok y reg_param rho eta work}.
Proof.
  unfold lcurve_shapes_ok.
  destruct (decide (length y = work_n work)); [|right; tauto].
  destruct (decide (3 <= length rho)); [|right; tauto].
  destruct (decide (length eta = length rho)); [|right; tauto].
  destruct (decide (length reg_param = length rho)); [|right; tauto].
  left; tauto.
Qed.

(** X3. When one of its four shape checks fails,
    [gsl_multifit_linear_lcurve] returns [GSL_EBADLEN] and has written
    neither [reg_param], [rho], [eta] nor the workspace. *)
Theorem lcurve_shape_errors_write_nothing (pow : float -> float -> float) (K : linalg)
    (y reg_param rho eta : gsl_vector) (work : gsl_multifit_linear_workspace) :
  ~ lcurve_shapes_ok y reg_param rho eta work ->
  gsl_multifit_linear_lcurve pow K y reg_param rho eta work =
  (GSL_EBADLEN, LcurveOut reg_param rho eta work).
Proof.
  intros Hbad. unfold gsl_multifit_linear_lcurve.
  destruct (Nat.eqb_spec (length y) (work_n work)) as [Hy|]; [|reflexivity].
  destruct (Nat.ltb_spec (length rho) 3) as [|H3]; [reflexivity|].
  destruct (Nat.eqb_spec (length rho) (length eta)) as [He|]; [|reflexivity].
  destruct (Nat.eqb_spec (length reg_param) (length eta)) as [Hr|]; [|reflexivity].
  exfalso. apply Hbad. unfold lcurve_shapes_ok. lia.
Qed.

Lemma lcurve_accepted (pow : float -> float -> float) (K : linalg)
    (y reg_param rho eta : gsl_vector) (work : gsl_multifit_linear_workspace) :
  lcurve_shapes_ok y reg_param rho eta work ->
  work_p work <= length (rows (work_QSI work)) ->
  work_p work <= length (work_D work) ->
  let n := length y in
  let N := length rho in
  let p := work_p work in
  let S := gsl_vector_subvector (work_S work) 0 p in
  let xt := gsl_blas_dgemv K CblasTrans 1%float
              (gsl_matrix_submatrix (work_A work) 0 0 n p) y 0%float
              (gsl_vector_subvector (work_xt work) 0 p) in
  let dr := (gsl_blas_dnrm2 K y * gsl_blas_dnrm2 K y
             - gsl_blas_dnrm2 K xt * gsl_blas_dnrm2 K xt)%float in
  let g := snd (gsl_multifit_linear_lreg pow (gsl_vector_get S (size_sub p 1))
                  (gsl_vector_get S 0) reg_param) in
  let rho1 := map_prefix (fun i _ => gsl_blas_dnrm2 K
                   (lcurve_residual_terms p S xt (gsl_vector_get g i))) N rho in
  exists work',
    gsl_multifit_linear_lcurve pow K y reg_param rho eta work =
    (GSL_SUCCESS,
     LcurveOut g
       (if ((p <? n)%nat && (0 <? dr)%float)
        then map_prefix (fun _ r => PrimFloat.sqrt (r * r + dr)) N rho1 else rho1)
       (map_prefix (fun i _ => gsl_blas_dnrm2 K
                   (lcurve_solution_terms p S xt (gsl_vector_get g i))) N eta)
       work').
Proof.
  intros (Hy & H3 & He & Hr) HQ HD n N p S xt dr g rho1.
  unfold gsl_multifit_linear_lcurve.
  rewrite Hy, Nat.eqb_refl. simpl.
  replace (length rho <? 3)%nat with false by (symmetry; apply Nat.ltb_ge; lia).
  rewrite He, Hr, !Nat.eqb_refl. simpl.
  rewrite <- Hy. fold n p. fold S. fold xt. fold dr. fold g.
  destruct (lcurve_point_loop K p S xt g
              (gsl_matrix_subcolumn (work_QSI work) 0 0 p)
              (gsl_vector_subvector (work_D work) 0 p) rho eta N)
    as (wp & wp2 & Hwp & Hwp2 & Hloop).
  { unfold gsl_matrix_subcolumn, gsl_matrix_column.
    rewrite length_take, drop_0, length_fmap. lia. }
  { unfold gsl_vector_subvector. rewrite length_take, drop_0. lia. }
  unfold for_loop at 1. rewrite Nat.sub_0_r. fold N. rewrite Hloop.
  fold rho1. unfold for_loop. rewrite Nat.sub_0_r, lcurve_correct_loop.
  eexists. reflexivity.
Qed.

(** X5. On arguments that pass the shape checks, with a workspace whose
    buffers [QSI] and [D] hold at least [p] entries,
    [gsl_multifit_linear_lcurve] succeeds; [reg_param] becomes the grid
    [g] of [gsl_multifit_linear_lreg] on the smallest and largest singular
    value; [eta(i)] is the norm of the terms [f_j xt_j] and [rho(i)] the
    norm of the terms [(1 - s_j f_j) xt_j] at [lambda = g(i)], with
    [f_j = s_j / (s_j^2 + lambda^2)] and [xt = U^T y]; and [rho(i)] is
    replaced by [sqrt (rho(i)^2 + dr)] exactly when [n > p] and
    [dr = |y|^2 - |U^T y|^2] is positive. *)
Theorem lcurve_norms_of_filtered_terms (pow : float -> float -> float) (K : linalg)
    (y reg_param rho eta : gsl_vector) (work : gsl_multifit_linear_workspace) :
  lcurve_shapes_ok y reg_param rho eta work ->
  work_p work <= length (rows (work_QSI work)) ->
  work_p work <= length (work_D work) ->
  let n := length y in
  let N := length rho in
  let p := work_p work in
  let S := gsl_vector_subvector (work_S work) 0 p in
  let xt := gsl_blas_dgemv K CblasTrans 1%float
              (gsl_matrix_submatrix (work_A work) 0 0 n p) y 0%float
              (gsl_vector_subvector (work_xt work) 0 p) in
  let dr := (gsl_blas_dnrm2 K y * gsl_blas_dnrm2 K y
             - gsl_blas_dnrm2 K xt * gsl_blas_dnrm2 K xt)%float in
  let g := snd (gsl_multifit_linear_lreg pow (gsl_vector_get S (size_sub p 1))
                  (gsl_vector_get S 0) reg_param) in
  exists out,
    gsl_multifit_linear_lcurve pow K y reg_param rho eta work = (GSL_SUCCESS, out) /\
    out_reg_param out = g /\
    length (out_rho out) = N /\ length (out_eta out) = N /\
    forall i, i < N ->
      gsl_vector_get (out_eta out) i =
        gsl_blas_dnrm2 K (lcurve_solution_terms p S xt (gsl_vector_get g i)) /\
      gsl_vector_get (out_rho out) i =
        (let r := gsl_blas_dnrm2 K (lcurve_residual_terms p S xt (gsl_vector_get g i)) in
         if ((p <? n)%nat && (0 <? dr)%float)
         then PrimFloat.sqrt (r * r + dr) else r)%float.
Proof.
  intros Hok HQ HD n N p S xt dr g.
  destruct (lcurve_accepted pow K y reg_param rho eta work Hok HQ HD) as (work' & Heq).
  destruct Hok as (Hy & H3 & He & Hr).
  eexists. split; [exact Heq|]. simpl. fold n N p S xt dr g.
  split; [reflexivity|]. split; [|split].
  - destruct ((p <? n)%nat && (0 <? dr)%float); rewrite !length_map_prefix; reflexivity.
  - rewrite length_map_prefix. exact He.
  - intros i Hi. split.
    + rewrite get_map_prefix by (rewrite He; exact Hi).
      replace (i <? N)%nat with true by (symmetry; apply Nat.ltb_lt; exact Hi).
      reflexivity.
    + destruct ((p <? n)%nat && (0 <? dr)%float).
      * rewrite get_map_prefix by (rewrite length_map_prefix; exact Hi).
        rewrite get_map_prefix by exact Hi.
        replace (i <? N)%nat with true by (symmetry; apply Nat.ltb_lt; exact Hi).
        reflexivity.
      * rewrite get_map_prefix by exact Hi.
        replace (i <? N)%nat with true by (symmetry; apply Nat.ltb_lt; exact Hi).
        reflexivity.
Qed.

Lemma lcurve_norms_of_filtered_terms_witness :
  fst (gsl_multifit_linear_lcurve (fun x _ => x) idle_linalg
         [1; 1]%float [0; 0; 0]%float [0; 0; 0]%float [0; 0; 0]%float
         (decomposed_workspace 2 1 [1]%float)) = GSL_SUCCESS.
Proof.
  destruct (lcurve_norms_of_filtered_terms (fun x _ => x) idle_linalg
              [1; 1]%float [0; 0; 0]%float [0; 0; 0]%float [0; 0; 0]%float
              (decomposed_workspace 2 1 [1]%float)) as (out & Heq & _).
  - unfold lcurve_shapes_ok. simpl. lia.
  - simpl. lia.
  - simpl. lia.
  - rewrite Heq. reflexivity.
Defined.

(** X4. [gsl_multifit_linear_lcurve] does not look at the status of
    [gsl_multifit_linear_lreg]: when the largest singular value in the
    workspace is not positive, the call still returns success, and
    [reg_param] comes back exactly as the caller passed it. *)
Theorem lcurve_ignores_lreg_status (pow : float -> float -> float) (K : linalg)
    (y reg_param rho eta : gsl_vector) (work : gsl_multifit_linear_workspace) :
  lcurve_shapes_ok y reg_param rho eta work ->
  (gsl_vector_get (gsl_vector_subvector (work_S work) 0 (work_p work)) 0 <=? 0)%float
    = true ->
  exists out,
    gsl_multifit_linear_lcurve pow K y reg_param rho eta work = (GSL_SUCCESS, out) /\
    out_reg_param out = reg_param.
Proof.
  intros (Hy & H3 & He & Hr) Hsmax. unfold gsl_multifit_linear_lcurve.
  rewrite Hy, Nat.eqb_refl. simpl.
  replace (length rho <? 3)%nat with false by (symmetry; apply Nat.ltb_ge; lia).
  rewrite He, Hr, !Nat.eqb_refl. simpl.
  unfold gsl_multifit_linear_lreg at 2. rewrite Hsmax. simpl.
  destruct (for_loop 0 (length rho) _ _) as [[[workp workp2] rho'] eta'].
  eexists. split; reflexivity.
Qed.

Lemma lcurve_ignores_lreg_status_witness :
  exists out,
    gsl_multifit_linear_lcurve (fun x _ => x) idle_linalg
      [1; 1]%float [7; 8; 9]%float [0; 0; 0]%float [0; 0; 0]%float
      (decomposed_workspace 2 1 [0]%float) = (GSL_SUCCESS, out) /\
    out_reg_param out = [7; 8; 9]%float.
Proof.
  apply (lcurve_ignores_lreg_status (fun x _ => x) idle_linalg
           [1; 1]%float [7; 8; 9]%float [0; 0; 0]%float [0; 0; 0]%float
           (decomposed_workspace 2 1 [0]%float)).
  - unfold lcurve_shapes_ok. simpl. lia.
  - reflexivity.
Defined.

Lemma lcurve_shape_errors_write_nothing_witness :
  gsl_multifit_linear_lcurve (fun x _ => x) idle_linalg
    [1; 1]%float [7; 8]%float [0; 0; 0]%float [0; 0; 0]%float
    (decomposed_workspace 2 1 [1]%float) =
  (GSL_EBADLEN,
   LcurveOut [7; 8]%float [0; 0; 0]%float [0; 0; 0]%float
     (decomposed_workspace 2 1 [1]%float)).
Proof.
  apply (lcurve_shape_errors_write_nothing (fun x _ => x) idle_linalg
           [1; 1]%float [7; 8]%float [0; 0; 0]%float [0; 0; 0]%float
           (decomposed_workspace 2 1 [1]%float)).
  unfold lcurve_shapes_ok. simpl. lia.
Defined.

(** ** The L-curve feeds the corner detectors *)

Lemma lcurve_point_loop_lengths (K : linalg) (p : nat) (S xt g : gsl_vector)
    (workp workp2 rho eta : gsl_vector) (k : nat) :
  let st := foldl (fun s i => lcurve_point K p S xt g i s)
                  (workp, workp2, rho, eta) (seq 0 k) in
  length (snd (fst st)) = length rho /\ length (snd st) = length eta.
Proof.
  cbv zeta. induction k as [|k IH]; [auto|].
  rewrite foldl_seq_S. simpl.
  destruct (foldl _ _ (seq 0 k)) as [[[wp wp2] rho'] eta']. simpl in IH.
  unfold lcurve_point.
  destruct (for_loop 0 p _ _) as [wp' wp2']. simpl.
  unfold gsl_vector_set. rewrite !length_insert. exact IH.
Qed.

Lemma lcurve_success_lengths (pow : float -> float -> float) (K : linalg)
    (y reg_param rho eta : gsl_vector) (work : gsl_multifit_linear_workspace)
    (out : lcurve_out) :
  gsl_multifit_linear_lcurve pow K y reg_param rho eta work = (GSL_SUCCESS, out) ->
  3 <= length rho /\
  length (out_reg_param out) = length rho /\
  length (out_rho out) = length rho /\
  length (out_eta out) = length rho.
Proof.
  unfold gsl_multifit_linear_lcurve. intros Hcall.
  destruct (negb (length y =? work_n work)%nat); [discriminate|].
  destruct (Nat.ltb_spec (length rho) 3) as [|H3]; [discriminate|].
  destruct (Nat.eqb_spec (length rho) (length eta)) as [He|]; [|discriminate].
  destruct (Nat.eqb_spec (length reg_param) (length eta)) as [Hr|]; [|discriminate].
  simpl in Hcall.
  match type of Hcall with
  | context [for_loop 0 (length rho) (lcurve_point K ?p ?S ?xt ?g) ?st] =>
      pose proof (lcurve_point_loop_lengths K p S xt g
                    (fst (fst (fst st))) (snd (fst (fst st))) rho eta (length rho)) as Hlen;
      unfold for_loop in Hcall; rewrite Nat.sub_0_r in Hcall;
      simpl in Hlen;
      destruct (foldl (fun s i => lcurve_point K p S xt g i s) st (seq 0 (length rho)))
        as [[[wp wp2] rho'] eta']
  end.
  simpl in Hlen. destruct Hlen as [Hrho Heta].
  injection Hcall as <-. simpl.
  split; [exact H3|]. split; [|split].
  - rewrite lreg_length. lia.
  - destruct (_ && _); [|exact Hrho].
    rewrite lcurve_correct_loop, length_map_prefix.
    exact Hrho.
  - lia.
Qed.

Lemma lcorner_variant_not_EBADLEN (v : corner_variant) (a eta : gsl_vector)
    (idx0 : nat) :
  3 <= length a -> length a = length eta ->
  fst (lcorner_variant v a eta idx0) = GSL_SUCCESS \/
  fst (lcorner_variant v a eta idx0) = GSL_EINVAL.
Proof.
  intros H3 Hlen. rewrite lcorner_variant_loop by assumption.
  unfold corner_result. destruct (_ <? 0)%float; auto.
Qed.

(** X6. The vectors a successful [gsl_multifit_linear_lcurve] returns
    always pass the shape checks of the corner detectors: neither
    [gsl_multifit_linear_lcorner] on [(rho, eta)] nor
    [gsl_multifit_linear_lcorner2] on [(reg_param, eta)] can return
    [GSL_EBADLEN] on them. *)
Theorem lcurve_output_fits_corner_detectors (pow : float -> float -> float)
    (log : float -> float) (K : linalg) (y reg_param rho eta : gsl_vector)
    (work : gsl_multifit_linear_workspace) (out : lcurve_out) (idx0 : nat) :
  gsl_multifit_linear_lcurve pow K y reg_param rho eta work = (GSL_SUCCESS, out) ->
  fst (gsl_multifit_linear_lcorner log (out_rho out) (out_eta out) idx0) <> GSL_EBADLEN /\
  fst (gsl_multifit_linear_lcorner2 (out_reg_param out) (out_eta out) idx0) <> GSL_EBADLEN.
Proof.
  intros Hcall.
  destruct (lcurve_success_lengths pow K y reg_param rho eta work out Hcall)
    as (H3 & Hg & Hrho & Heta).
  split.
  - destruct (lcorner_variant_not_EBADLEN (LogCurve log) (out_rho out) (out_eta out) idx0)
      as [H|H]; try lia; simpl in H; rewrite H; discriminate.
  - destruct (lcorner_variant_not_EBADLEN SquaredCurve (out_reg_param out) (out_eta out)
                idx0) as [H|H]; try lia; simpl in H; rewrite H; discriminate.
Qed.

Lemma lcurve_output_fits_corner_detectors_witness :
  fst (gsl_multifit_linear_lcorner (fun x => x)
         (out_rho (snd (gsl_multifit_linear_lcurve (fun x _ => x) idle_linalg
            [1; 1]%float [0; 0; 0]%float [0; 0; 0]%float [0; 0; 0]%float
            (decomposed_workspace 2 1 [1]%float))))
         (out_eta (snd (gsl_multifit_linear_lcurve (fun x _ => x) idle_linalg
            [1; 1]%float [0; 0; 0]%float [0; 0; 0]%float [0; 0; 0]%float
            (decomposed_workspace 2 1 [1]%float)))) 0) <> GSL_EBADLEN /\
  fst (gsl_multifit_linear_lcorner2
         (out_reg_param (snd (gsl_multifit_linear_lcurve (fun x _ => x) idle_linalg
            [1; 1]%float [0; 0; 0]%float [0; 0; 0]%float [0; 0; 0]%float
            (decomposed_workspace 2 1 [1]%float))))
         (out_eta (snd (gsl_multifit_linear_lcurve (fun x _ => x) idle_linalg
            [1; 1]%float [0; 0; 0]%float [0; 0; 0]%float [0; 0; 0]%float
            (decomposed_workspace 2 1 [1]%float)))) 0) <> GSL_EBADLEN.
Proof.
  apply (lcurve_output_fits_corner_detectors (fun x _ => x) (fun x => x) idle_linalg
           [1; 1]%float [0; 0; 0]%float [0; 0; 0]%float [0; 0; 0]%float
           (decomposed_workspace 2 1 [1]%float)).
  vm_compute. reflexivity.
Defined.

(** X27. [gsl_multifit_linear_lcurve] keeps the decomposition the
    workspace holds: whatever it returns, the bounds and sizes, [A], [Q],
    the singular values [S], [t] and [Linv] are as they were, and [xt]
    and [D] keep their lengths: only [xt], [QSI] and [D] can have been
    written. *)
Theorem lcurve_preserves_decomposition (pow : float -> float -> float) (K : linalg)
    (y reg_param rho eta : gsl_vector) (work : gsl_multifit_linear_workspace) :
  let work' := out_lwork (snd (gsl_multifit_linear_lcurve pow K y reg_param rho eta work)) in
  work_nmax work' = work_nmax work /\ work_pmax work' = work_pmax work /\
  work_n work' = work_n work /\ work_p work' = work_p work /\
  work_A work' = work_A work /\ work_Q work' = work_Q work /\
  work_S work' = work_S work /\ work_t work' = work_t work /\
  work_Linv work' = work_Linv work /\
  length (work_xt work') = length (work_xt work) /\
  length (work_D work') = length (work_D work).
Proof.
  cbv zeta. unfold gsl_multifit_linear_lcurve.
  destruct (negb (length y =? work_n work)%nat); [simpl; tauto|].
  destruct (length rho <? 3)%nat; [simpl; tauto|].
  destruct (negb (length rho =? length eta)%nat); [simpl; tauto|].
  destruct (negb (length reg_param =? length eta)%nat); [simpl; tauto|].
  destruct (for_loop 0 (length rho) _ _) as [[[workp workp2] rho'] eta']. simpl.
  repeat (split; [reflexivity|]). split.
  - apply length_put_subvector_0.
  - unfold gsl_vector_set_all. rewrite length_replicate. apply length_put_subvector_0.
Qed.

(** ** Derivative operators of any order *)

Lemma get_map_prefix_ge f k (l : gsl_vector) i :
  k <= i -> gsl_vector_get (map_prefix f k l) i = gsl_vector_get l i.
Proof.
  intros Hi. unfold gsl_vector_get. rewrite lookup_map_prefix.
  replace (i <? k)%nat with false by (symmetry; apply Nat.ltb_ge; lia).
  destruct (l !! i); reflexivity.
Qed.

(** One sweep replaces every coefficient by the difference with its left
    neighbour, read before the sweep. *)
Lemma Lk_coeff_sweep_closed (k i : nat) (cv : gsl_vector) :
  Lk_coeff_sweep k i cv =
  map_prefix (fun j x => (match j with O => 0 | S j' => gsl_vector_get cv j' end - x)%float)
             (k + 1) cv.
Proof.
  unfold Lk_coeff_sweep, for_loop. rewrite Nat.sub_0_r.
  set (f := fun j x => (match j with O => 0 | S j' => gsl_vector_get cv j' end - x)%float).
  assert (Hgen : forall m,
            foldl (fun s j => Lk_coeff_step j s) (cv, 0%float) (seq 0 m) =
            (map_prefix f m cv,
             match m with O => 0%float | S m' => gsl_vector_get cv m' end)).
  { induction m as [|m IH].
    - simpl. rewrite map_prefix_0. reflexivity.
    - rewrite foldl_seq_S, IH. simpl. unfold Lk_coeff_step, gsl_vector_set.
      f_equal.
      + rewrite <- (map_prefix_S f m cv). reflexivity.
      + apply get_map_prefix_ge. lia. }
  rewrite Hgen. reflexivity.
Qed.

Lemma Lk_coefficients_stencil (k j : nat) :
  1 <= k -> j <= k ->
  gsl_vector_get (Lk_coefficients k) j = difference_stencil (k - 1) j.
Proof.
  intros Hk Hj. unfold Lk_coefficients, for_loop.
  set (cv0 := gsl_vector_set
                (gsl_vector_set (gsl_vector_set_zero (replicate (k + 1) 0%float)) 0 (-1)%float)
                1 1%float).
  assert (Hgen : forall m,
            let cv := foldl (fun s i => Lk_coeff_sweep k i s) cv0 (seq 1 m) in
            length cv = k + 1 /\
            forall j, j <= k -> gsl_vector_get cv j = difference_stencil m j).
  { induction m as [|m IH].
    - simpl. split.
      + unfold cv0, gsl_vector_set, gsl_vector_set_zero, gsl_vector_set_all.
        rewrite !length_insert, !length_replicate. reflexivity.
      + intros j' Hj'. unfold cv0, gsl_vector_set, gsl_vector_set_zero, gsl_vector_set_all,
          gsl_vector_get.
        rewrite !length_replicate.
        destruct j' as [|[|j']]; simpl.
        * rewrite list_lookup_insert_ne by lia.
          rewrite list_lookup_insert_eq by (rewrite length_replicate; lia). reflexivity.
        * rewrite list_lookup_insert_eq
            by (rewrite length_insert, length_replicate; lia). reflexivity.
        * rewrite !list_lookup_insert_ne by lia.
          rewrite lookup_replicate_2 by lia. reflexivity.
    - rewrite foldl_seq_S. cbv zeta in IH |- *. destruct IH as (Hlen & Hent).
      rewrite Lk_coeff_sweep_closed. split.
      + rewrite length_map_prefix. exact Hlen.
      + intros j' Hj'. rewrite get_map_prefix by lia.
        replace (j' <? k + 1)%nat with true by (symmetry; apply Nat.ltb_lt; lia).
        simpl. rewrite Hent by lia.
        destruct j' as [|j']; [reflexivity|]. rewrite Hent by lia. reflexivity. }
  apply Hgen. exact Hj.
Qed.

Lemma Lk_fill_loop (cv : gsl_vector) (L0 : gsl_matrix) (m : nat) :
  matrix_wf L0 ->
  let Lm := foldl (fun s i => Lk_fill_diagonal cv i s) L0 (seq 0 m) in
  matrix_wf Lm /\ size1 Lm = size1 L0 /\ size2 Lm = size2 L0 /\
  forall i j, i < size1 L0 -> j < size2 L0 ->
    gsl_matrix_get Lm i j =
    if ((i <=? j) && (j <? i + m))%nat then gsl_vector_get cv (j - i)
    else gsl_matrix_get L0 i j.
Proof.
  intros Hwf. induction m as [|m IH]; cbv zeta.
  - simpl. split; [exact Hwf|]. split; [reflexivity|]. split; [reflexivity|].
    intros i j Hi Hj.
    destruct (Nat.leb_spec i j), (Nat.ltb_spec j (i + 0)); try lia; reflexivity.
  - rewrite foldl_seq_S. simpl. cbv zeta in IH.
    destruct IH as (Hwfm & H1 & H2 & Hent).
    split; [apply matrix_wf_put_superdiagonal, Hwfm|].
    split; [exact H1|]. split; [exact H2|].
    intros i j Hi Hj.
    rewrite Lk_fill_diagonal_get;
      [| exact Hwfm | rewrite H1; exact Hi | rewrite H2; exact Hj].
    rewrite Hent by assumption.
    destruct (Nat.eqb_spec j (i + m)) as [->|Hne].
    + replace (i <=? i + m)%nat with true by (symmetry; apply Nat.leb_le; lia).
      replace (i + m <? i + S m)%nat with true by (symmetry; apply Nat.ltb_lt; lia).
      simpl. f_equal. lia.
    + destruct (Nat.leb_spec i j); simpl; [|reflexivity].
      destruct (Nat.ltb_spec j (i + m)), (Nat.ltb_spec j (i + S m)); try lia; reflexivity.
Qed.

(** The operator of order k >= 1 as a band of its coefficient vector. *)
Lemma Lk_band (p k : nat) (L : gsl_matrix) :
  1 <= k -> Lk_args_ok p k L ->
  exists L',
    gsl_multifit_linear_Lk p k L = (GSL_SUCCESS, L') /\
    size1 L' = p - k /\ size2 L' = p /\
    forall i j, i < p - k -> j < p ->
      gsl_matrix_get L' i j =
      if ((i <=? j) && (j <=? i + k))%nat then difference_stencil (k - 1) (j - i)
      else 0%float.
Proof.
  intros Hk (Hkp & Hmax & H1 & H2). unfold gsl_multifit_linear_Lk.
  replace (p <=? k)%nat with false by (symmetry; apply Nat.leb_gt; lia).
  replace (GSL_MULTIFIT_MAXK - 1 <=? k)%nat with false
    by (symmetry; apply Nat.leb_gt; unfold GSL_MULTIFIT_MAXK in *; lia).
  rewrite H1, H2, !Nat.eqb_refl. simpl.
  replace (k =? 0)%nat with false by (symmetry; apply Nat.eqb_neq; lia).
  eexists; split; [reflexivity|].
  fold (Lk_coefficients k). unfold for_loop. rewrite Nat.sub_0_r.
  destruct (Lk_fill_loop (Lk_coefficients k) (gsl_matrix_set_zero L) (k + 1))
    as (_ & Hs1 & Hs2 & Hent); [apply matrix_wf_set_all|].
  simpl in Hs1, Hs2.
  split; [lia|]. split; [lia|].
  intros i j Hi Hj. rewrite Hent by (simpl; lia).
  unfold gsl_matrix_set_zero. rewrite get_set_all by lia.
  replace (j <? i + (k + 1))%nat with (j <=? i + k)%nat.
  2:{ destruct (Nat.leb_spec j (i + k)), (Nat.ltb_spec j (i + (k + 1))); try lia;
      reflexivity. }
  destruct (Nat.leb_spec i j); simpl; [|reflexivity].
  destruct (Nat.leb_spec j (i + k)); [|reflexivity].
  apply Lk_coefficients_stencil; lia.
Qed.

Lemma difference_stencil_last (m : nat) :
  difference_stencil m (S m) = 1%float /\
  forall j, S m < j -> difference_stencil m j = 0%float.
Proof.
  induction m as [|m [IH1 IH0]].
  - split; [reflexivity|]. intros j Hj. simpl.
    destruct (Nat.eqb_spec j 0); [lia|]. destruct (Nat.eqb_spec j 1); [lia|]. reflexivity.
  - split.
    + simpl. rewrite IH1, IH0 by lia. reflexivity.
    + intros j Hj. destruct j as [|j]; [lia|]. simpl.
      rewrite !IH0 by lia. reflexivity.
Qed.

Lemma difference_stencil_first (m : nat) :
  difference_stencil m 0 = if Nat.even m then (-1)%float else 1%float.
Proof.
  assert (Hpair : difference_stencil m 0 = (if Nat.even m then (-1)%float else 1%float) /\
                  difference_stencil (S m) 0 =
                    (if Nat.even (S m) then (-1)%float else 1%float)).
  { induction m as [|m [IH1 IH2]].
    - split; reflexivity.
    - split; [exact IH2|].
      change (difference_stencil (S (S m)) 0)
        with (0 - (0 - difference_stencil m 0))%float.
      rewrite IH1. change (Nat.even (S (S m))) with (Nat.even m).
      destruct (Nat.even m); reflexivity. }
  apply Hpair.
Qed.

(** X7. For every order 1 <= k <= 98 and every p > k,
    [gsl_multifit_linear_Lk] fills a (p-k)-by-p matrix with a band: row i
    holds the k+1 stencil values at the columns i .. i+k, the same values
    in every row, and zero elsewhere. The stencil is the one obtained
    from (-1, 1) by k-1 differencing steps [c_j := c_(j-1) - c_j], each
    rounded to double; its first value is (-1)^k and its last value 1. *)
Theorem Lk_banded_difference_stencil (p k : nat) (L : gsl_matrix) :
  1 <= k -> Lk_args_ok p k L ->
  (exists L',
     gsl_multifit_linear_Lk p k L = (GSL_SUCCESS, L') /\
     size1 L' = p - k /\ size2 L' = p /\
     forall i j, i < p - k -> j < p ->
       gsl_matrix_get L' i j =
       if ((i <=? j) && (j <=? i + k))%nat then difference_stencil (k - 1) (j - i)
       else 0%float) /\
  difference_stencil (k - 1) 0 = (if Nat.even k then 1%float else (-1)%float) /\
  difference_stencil (k - 1) k = 1%float.
Proof.
  intros Hk Hok. split; [apply Lk_band; assumption|].
  destruct k as [|m]; [lia|]. replace (S m - 1) with m by lia. split.
  - rewrite difference_stencil_first. rewrite Nat.even_succ, <- Nat.negb_even.
    destruct (Nat.even m); reflexivity.
  - apply difference_stencil_last.
Qed.

Lemma Lk_banded_difference_stencil_witness :
  (exists L',
     gsl_multifit_linear_Lk 5 3 (gsl_matrix_alloc 2 5) = (GSL_SUCCESS, L') /\
     size1 L' = 5 - 3 /\ size2 L' = 5 /\
     forall i j, i < 5 - 3 -> j < 5 ->
       gsl_matrix_get L' i j =
       if ((i <=? j) && (j <=? i + 3))%nat then difference_stencil (3 - 1) (j - i)
       else 0%float) /\
  difference_stencil (3 - 1) 0 = (if Nat.even 3 then 1%float else (-1)%float) /\
  difference_stencil (3 - 1) 3 = 1%float.
Proof.
  apply (Lk_banded_difference_stencil 5 3 (gsl_matrix_alloc 2 5)).
  - lia.
  - unfold Lk_args_ok, GSL_MULTIFIT_MAXK. simpl. lia.
Defined.

(** X8. For every p >= 3, [gsl_multifit_linear_Lk (p, 2, L)] sets a
    (p-2)-by-p matrix to the second-difference operator: row i is
    1, -2, 1 at the columns i, i+1, i+2 and zero elsewhere. *)
Theorem Lk_second_difference_operator (p : nat) (L : gsl_matrix) :
  3 <= p -> size1 L = p - 2 -> size2 L = p ->
  exists L',
    gsl_multifit_linear_Lk p 2 L = (GSL_SUCCESS, L') /\
    size1 L' = p - 2 /\ size2 L' = p /\
    forall i j, i < p - 2 -> j < p ->
      gsl_matrix_get L' i j =
      if (j =? i)%nat then 1%float
      else if (j =? i + 1)%nat then (-2)%float
      else if (j =? i + 2)%nat then 1%float else 0%float.
Proof.
  intros Hp H1 H2.
  destruct (Lk_band p 2 L) as (L' & Heq & Hs1 & Hs2 & Hent); [lia| |].
  { unfold Lk_args_ok, GSL_MULTIFIT_MAXK. lia. }
  exists L'. split; [exact Heq|]. split; [exact Hs1|]. split; [exact Hs2|].
  intros i j Hi Hj. rewrite Hent by assumption.
  destruct (Nat.eqb_spec j i) as [->|Hne0].
  { replace (i <=? i)%nat with true by (symmetry; apply Nat.leb_le; lia).
    replace (i <=? i + 2)%nat with true by (symmetry; apply Nat.leb_le; lia).
    rewrite Nat.sub_diag. reflexivity. }
  destruct (Nat.eqb_spec j (i + 1)) as [->|Hne1].
  { replace (i <=? i + 1)%nat with true by (symmetry; apply Nat.leb_le; lia).
    replace (i + 1 <=? i + 2)%nat with true by (symmetry; apply Nat.leb_le; lia).
    replace (i + 1 - i) with 1 by lia. reflexivity. }
  destruct (Nat.eqb_spec j (i + 2)) as [->|Hne2].
  { replace (i <=? i + 2)%nat with true by (symmetry; apply Nat.leb_le; lia).
    rewrite Nat.leb_refl.
    replace (i + 2 - i) with 2 by lia. reflexivity. }
  destruct (Nat.leb_spec i j), (Nat.leb_spec j (i + 2)); simpl; try reflexivity. lia.
Qed.

Lemma Lk_second_difference_operator_witness :
  exists L',
    gsl_multifit_linear_Lk 5 2 (gsl_matrix_alloc 3 5) = (GSL_SUCCESS, L') /\
    size1 L' = 5 - 2 /\ size2 L' = 5 /\
    forall i j, i < 5 - 2 -> j < 5 ->
      gsl_matrix_get L' i j =
      if (j =? i)%nat then 1%float
      else if (j =? i + 1)%nat then (-2)%float
      else if (j =? i + 2)%nat then 1%float else 0%float.
Proof.
  apply (Lk_second_difference_operator 5 (gsl_matrix_alloc 3 5));
    [lia | reflexivity | reflexivity].
Defined.

Lemma Lk_args_dec p k L : {Lk_args_ok p k L} + {~ Lk_args_ok p k L}.
Proof.
  unfold Lk_args_ok.
  destruct (decide (k < p)); [|right; tauto].
  destruct (decide (k + 1 < GSL_MULTIFIT_MAXK)); [|right; tauto].
  destruct (decide (size1 L = p - k)); [|right; tauto].
  destruct (decide (size2 L = p)); [|right; tauto].
  left; tauto.
Qed.

Lemma Lk_rejected (p k : nat) (L : gsl_matrix) :
  ~ Lk_args_ok p k L -> gsl_multifit_linear_Lk p k L = (GSL_EBADLEN, L).
Proof.
  intros Hbad. unfold gsl_multifit_linear_Lk.
  destruct (Nat.leb_spec p k); [reflexivity|].
  destruct (Nat.leb_spec (GSL_MULTIFIT_MAXK - 1) k); [reflexivity|].
  destruct (Nat.eqb_spec (p - k) (size1 L)); [|reflexivity].
  destruct (Nat.eqb_spec p (size2 L)); [|reflexivity].
  exfalso. apply Hbad. unfold Lk_args_ok, GSL_MULTIFIT_MAXK in *. lia.
Qed.

Lemma Lk_accepted (p k : nat) (L : gsl_matrix) :
  Lk_args_ok p k L ->
  exists L', gsl_multifit_linear_Lk p k L = (GSL_SUCCESS, L') /\
             size1 L' = p - k /\ size2 L' = p.
Proof.
  intros Hok. destruct (decide (k = 0)) as [->|Hk].
  - destruct Hok as (Hkp & Hmax & H1 & H2). unfold gsl_multifit_linear_Lk.
    replace (p <=? 0)%nat with false by (symmetry; apply Nat.leb_gt; lia).
    rewrite H1, H2, !Nat.eqb_refl. simpl. eexists. split; [reflexivity|].
    simpl. lia.
  - destruct (Lk_band p k L) as (L' & Heq & Hs1 & Hs2 & _); [lia|exact Hok|].
    exists L'. auto.
Qed.

(** X9. [gsl_multifit_linear_Lk] succeeds when k < p, k <= 98 and [L]
    is (p-k)-by-p; in every other case it returns [GSL_EBADLEN] and
    leaves [L] untouched. In particular every order k >= 99 is refused,
    whatever p and [L] are. *)
Theorem Lk_fails_exactly_on_bad_arguments (p k : nat) (L : gsl_matrix) :
  (Lk_args_ok p k L -> fst (gsl_multifit_linear_Lk p k L) = GSL_SUCCESS) /\
  (~ Lk_args_ok p k L -> gsl_multifit_linear_Lk p k L = (GSL_EBADLEN, L)) /\
  (GSL_MULTIFIT_MAXK - 1 <= k -> gsl_multifit_linear_Lk p k L = (GSL_EBADLEN, L)).
Proof.
  split; [|split].
  - intros Hok. destruct (Lk_accepted p k L Hok) as (L' & Heq & _).
    rewrite Heq. reflexivity.
  - apply Lk_rejected.
  - intros Hk. apply Lk_rejected. unfold Lk_args_ok, GSL_MULTIFIT_MAXK in *. lia.
Qed.

Lemma Lk_fails_exactly_on_bad_arguments_witness :
  fst (gsl_multifit_linear_Lk 5 2 (gsl_matrix_alloc 3 5)) = GSL_SUCCESS /\
  gsl_multifit_linear_Lk 5 2 (gsl_matrix_alloc 5 5) = (GSL_EBADLEN, gsl_matrix_alloc 5 5) /\
  gsl_multifit_linear_Lk 200 99 (gsl_matrix_alloc 1 1) = (GSL_EBADLEN, gsl_matrix_alloc 1 1).
Proof.
  split; [|split].
  - apply (proj1 (Lk_fails_exactly_on_bad_arguments 5 2 (gsl_matrix_alloc 3 5))).
    unfold Lk_args_ok, GSL_MULTIFIT_MAXK. simpl. lia.
  - apply (proj1 (proj2 (Lk_fails_exactly_on_bad_arguments 5 2 (gsl_matrix_alloc 5 5)))).
    unfold Lk_args_ok. simpl. lia.
  - apply (proj2 (proj2 (Lk_fails_exactly_on_bad_arguments 200 99 (gsl_matrix_alloc 1 1)))).
    unfold GSL_MULTIFIT_MAXK. lia.
Defined.

(** ** The diagonal transforms, continued *)

(** X10. The result of [gsl_multifit_linear_wstdform1] depends neither
    on what [Xs] and [ys] held at the call nor on the workspace: two calls
    with the same [L], [X], [w], [y] whose other arguments pass the shape
    checks return the same status, the same [Xs] and the same [ys]. *)
Theorem wstdform1_overwrites_outputs (L : option (gsl_vector)) (X : gsl_matrix)
    (w : option (gsl_vector)) (y : gsl_vector)
    (Xs Xs' : gsl_matrix) (ys ys' : gsl_vector)
    (work work' : gsl_multifit_linear_workspace) :
  wstdform1_shapes_ok L X w y Xs ys work ->
  wstdform1_shapes_ok L X w y Xs' ys' work' ->
  gsl_multifit_linear_wstdform1 L X w y Xs ys work =
  gsl_multifit_linear_wstdform1 L X w y Xs' ys' work'.
Proof.
  intros Hok Hok'.
  rewrite (wstdform1_accepted _ _ _ _ _ _ _ Hok), (wstdform1_accepted _ _ _ _ _ _ _ Hok').
  destruct Hok as (_ & _ & _ & _ & _ & H1 & H2 & _).
  destruct Hok' as (_ & _ & _ & _ & _ & H1' & H2' & _).
  unfold with_rows. rewrite H1, H2, H1', H2'. reflexivity.
Qed.

Lemma wstdform1_overwrites_outputs_witness :
  gsl_multifit_linear_wstdform1
    (Some [2; 4]%float) (Matrix 2 2 [[1; 2]; [3; 4]]%float)
    (Some [4; -1]%float) [1; 1]%float
    (gsl_matrix_alloc 2 2) [0; 0]%float (fresh_workspace 2 2) =
  gsl_multifit_linear_wstdform1
    (Some [2; 4]%float) (Matrix 2 2 [[1; 2]; [3; 4]]%float)
    (Some [4; -1]%float) [1; 1]%float
    (Matrix 2 2 [[9; 9]; [9; 9]]%float) [7; 7]%float (fresh_workspace 5 3).
Proof.
  apply wstdform1_overwrites_outputs;
    unfold wstdform1_shapes_ok; simpl;
    (split; [lia|]); (split; [lia|]);
    (split; [intros l Hl; injection Hl as <-; reflexivity|]);
    (split; [reflexivity|]);
    (split; [intros wv Hw; injection Hw as <-; reflexivity|]); auto.
Defined.

(** X11. [gsl_multifit_linear_stdform1] on arguments that pass the
    shape checks returns [ys] equal to [y], entry for entry, whether it
    succeeds or stops with [GSL_EDOM] at a zero of [L]; no other error is
    possible; and when [L] is [NULL] it succeeds and [Xs] holds the rows
    of [X] unchanged. *)
Theorem stdform1_copies_rhs (L : option (gsl_vector)) (X : gsl_matrix)
    (y : gsl_vector) (Xs : gsl_matrix) (ys : gsl_vector)
    (work : gsl_multifit_linear_workspace) :
  wstdform1_shapes_ok L X None y Xs ys work ->
  exists s Xs',
    gsl_multifit_linear_stdform1 L X y Xs ys work = (s, Xs', y) /\
    (s = GSL_SUCCESS \/ s = GSL_EDOM) /\
    (L = None -> s = GSL_SUCCESS /\ rows Xs' = rows X).
Proof.
  intros Hok. unfold gsl_multifit_linear_stdform1.
  rewrite (wstdform1_accepted _ _ _ _ _ _ _ Hok). simpl.
  eexists _, _. split; [reflexivity|]. split.
  - destruct L as [l|]; simpl; [|left; reflexivity].
    pose proof (column_loop_closed l (with_rows Xs (rows X)) (size2 X)) as Hpost.
    destruct Hpost as (_ & _ & [(Hs & _) | (Hs & _)]); auto.
  - intros ->. simpl. auto.
Qed.

Lemma stdform1_copies_rhs_witness :
  exists s Xs',
    gsl_multifit_linear_stdform1 (Some [2; 0]%float) (Matrix 2 2 [[1; 2]; [3; 4]]%float)
      [5; 6]%float (gsl_matrix_alloc 2 2) [0; 0]%float (fresh_workspace 2 2)
    = (s, Xs', [5; 6]%float) /\
    (s = GSL_SUCCESS \/ s = GSL_EDOM) /\
    (Some [2; 0]%float = None -> s = GSL_SUCCESS /\
       rows Xs' = rows (Matrix 2 2 [[1; 2]; [3; 4]]%float)).
Proof.
  apply (stdform1_copies_rhs (Some [2; 0]%float) (Matrix 2 2 [[1; 2]; [3; 4]]%float)
           [5; 6]%float (gsl_matrix_alloc 2 2) [0; 0]%float (fresh_workspace 2 2)).
  unfold wstdform1_shapes_ok; simpl.
  (split; [lia|]); (split; [lia|]).
  (split; [intros l Hl; injection Hl as <-; reflexivity|]).
  (split; [reflexivity|]).
  (split; [intros wv Hw; discriminate|]); auto.
Defined.

(** X12. [gsl_multifit_linear_genform1] succeeds when [L] fits the
    workspace and [cs] and [c] have the length of [L]; in every other case
    it returns [GSL_EBADLEN] and leaves [c] untouched. *)
Theorem genform1_fails_exactly_on_bad_lengths (L cs c : gsl_vector)
    (work : gsl_multifit_linear_workspace) :
  (genform1_shapes_ok L cs c work ->
   fst (gsl_multifit_linear_genform1 L cs c work) = GSL_SUCCESS) /\
  (~ genform1_shapes_ok L cs c work ->
   gsl_multifit_linear_genform1 L cs c work = (GSL_EBADLEN, c)).
Proof.
  unfold genform1_shapes_ok, gsl_multifit_linear_genform1. split.
  - intros (Hp & Hcs & Hc).
    replace (work_pmax work <? length L)%nat with false by (symmetry; apply Nat.ltb_ge; lia).
    rewrite Hcs, Hc, !Nat.eqb_refl. reflexivity.
  - intros Hbad.
    destruct (Nat.ltb_spec (work_pmax work) (length L)); [reflexivity|].
    destruct (Nat.eqb_spec (length L) (length cs)); [|reflexivity].
    destruct (Nat.eqb_spec (length L) (length c)); [|reflexivity].
    exfalso. apply Hbad. lia.
Qed.

Lemma genform1_fails_exactly_on_bad_lengths_witness :
  fst (gsl_multifit_linear_genform1 [2; 4]%float [1; 1]%float [9; 9]%float
         (fresh_workspace 2 2)) = GSL_SUCCESS /\
  gsl_multifit_linear_genform1 [2; 4]%float [1; 1]%float [9; 9; 9]%float
    (fresh_workspace 2 2) = (GSL_EBADLEN, [9; 9; 9]%float).
Proof.
  split.
  - apply (proj1 (genform1_fails_exactly_on_bad_lengths [2; 4]%float [1; 1]%float
                    [9; 9]%float (fresh_workspace 2 2))).
    unfold genform1_shapes_ok. simpl. lia.
  - apply (proj2 (genform1_fails_exactly_on_bad_lengths [2; 4]%float [1; 1]%float
                    [9; 9; 9]%float (fresh_workspace 2 2))).
    unfold genform1_shapes_ok. simpl. lia.
Defined.

(** ** Standard form for a general regularization matrix *)

(** X13. When a shape check of [gsl_multifit_linear_wstdform2] fails
    (the common checks, or those of the branch selected by m >= p or
    m < p), the call returns [GSL_EBADLEN] and has written neither [Xs],
    [ys], [M] nor the workspace. *)
Theorem wstdform2_shape_errors_write_nothing (K : linalg) (L X : gsl_matrix) (w : option (gsl_vector))
    (y : gsl_vector) (Xs : gsl_matrix) (ys : gsl_vector) (M : gsl_matrix)
    (work : gsl_multifit_linear_workspace) :
  ~ wstdform2_shapes_ok L X w y Xs ys M work ->
  gsl_multifit_linear_wstdform2 K L X w y Xs ys M work =
  (GSL_EBADLEN, Stdform2Out Xs ys M work).
Proof.
  intros Hbad. unfold gsl_multifit_linear_wstdform2.
  destruct (Nat.ltb_spec (work_nmax work) (size1 X)); [reflexivity|].
  destruct (Nat.ltb_spec (work_pmax work) (size2 X)); [reflexivity|]. simpl.
  destruct (Nat.eqb_spec (size2 X) (size2 L)); [|reflexivity]. simpl.
  destruct (Nat.eqb_spec (size1 X) (length y)); [|reflexivity]. simpl.
  assert (Hw : match w with Some wv => negb (size1 X =? length wv)%nat | None => false end
               = false -> forall wv, w = Some wv -> length wv = size1 X).
  { intros Hc wv ->. apply negb_false_iff, Nat.eqb_eq in Hc. lia. }
  destruct (match w with Some wv => negb (size1 X =? length wv)%nat | None => false end);
    [reflexivity|]. specialize (Hw eq_refl).
  destruct (Nat.leb_spec (size2 X) (size1 L)).
  - destruct (Nat.eqb_spec (size1 X) (size1 Xs)); [|reflexivity].
    destruct (Nat.eqb_spec (size2 X) (size2 Xs)); [|reflexivity]. simpl.
    destruct (Nat.eqb_spec (size1 X) (length ys)); [|reflexivity]. simpl.
    destruct (Nat.eqb_spec (size1 L) (size1 M)); [|reflexivity].
    destruct (Nat.eqb_spec (size2 X) (size2 M)); [|reflexivity]. simpl.
    exfalso. apply Hbad. unfold wstdform2_shapes_ok.
    split; [lia|]. split; [lia|]. split; [lia|]. split; [lia|]. split; [exact Hw|].
    left. lia.
  - destruct (Nat.eqb_spec (size_sub (size1 X) (size2 X - size1 L)) (size1 Xs));
      [|reflexivity].
    destruct (Nat.eqb_spec (size1 L) (size2 Xs)); [|reflexivity]. simpl.
    destruct (Nat.eqb_spec (size_sub (size1 X) (size2 X - size1 L)) (length ys));
      [|reflexivity]. simpl.
    destruct (Nat.eqb_spec (size2 X) (size1 M)); [|reflexivity].
    destruct (Nat.eqb_spec (size1 X) (size2 M)); [|reflexivity]. simpl.
    exfalso. apply Hbad. unfold wstdform2_shapes_ok.
    split; [lia|]. split; [lia|]. split; [lia|]. split; [lia|]. split; [exact Hw|].
    right. split; [lia|]. split; [congruence|]. split; [congruence|].
    split; [congruence|]. split; congruence.
Qed.

Lemma wstdform2_shape_errors_write_nothing_witness :
  gsl_multifit_linear_wstdform2 idle_linalg
    (Matrix 2 2 [[1; -1]; [0; 1]]%float) (Matrix 2 2 [[1; 2]; [3; 4]]%float)
    None [1; 1]%float
    (gsl_matrix_alloc 2 2) [0; 0]%float (gsl_matrix_alloc 3 2) (fresh_workspace 2 2)
  = (GSL_EBADLEN,
     Stdform2Out (gsl_matrix_alloc 2 2) [0; 0]%float (gsl_matrix_alloc 3 2)
       (fresh_workspace 2 2)).
Proof.
  apply (wstdform2_shape_errors_write_nothing idle_linalg
           (Matrix 2 2 [[1; -1]; [0; 1]]%float) (Matrix 2 2 [[1; 2]; [3; 4]]%float)
           None [1; 1]%float
           (gsl_matrix_alloc 2 2) [0; 0]%float (gsl_matrix_alloc 3 2)
           (fresh_workspace 2 2)).
  unfold wstdform2_shapes_ok. simpl. lia.
Defined.

(** The buffer the tall branch factorizes: the block of [M] after the
    copy of [L] is [L] itself. *)
Lemma memcpy_submatrix_whole (Z L : gsl_matrix) :
  gsl_matrix_memcpy (gsl_matrix_submatrix Z 0 0 (size1 L) (size2 L)) L = L.
Proof.
  unfold gsl_matrix_memcpy. simpl. rewrite !Nat.eqb_refl. simpl.
  destruct L; reflexivity.
Qed.

Lemma solve_row_loop (K : linalg) (R Xs0 : gsl_matrix) (k : nat) :
  foldl (fun s i => wstdform2_solve_row K R i s) Xs0 (seq 0 k) =
  with_rows Xs0
    (map_prefix (fun _ r => gsl_blas_dtrsv K CblasUpper CblasTrans CblasNonUnit R r)
                k (rows Xs0)).
Proof.
  induction k as [|k IH].
  - simpl. rewrite map_prefix_0. destruct Xs0; reflexivity.
  - rewrite foldl_seq_S, IH. simpl. unfold wstdform2_solve_row, put_row, gsl_matrix_row.
    simpl. unfold with_rows. simpl. f_equal.
    apply (map_prefix_step []
             (fun _ r => gsl_blas_dtrsv K CblasUpper CblasTrans CblasNonUnit R r)).
Qed.

(** Row [i] of the weighted copy of [X]. *)
Lemma weighted_rows_row (w : option (gsl_vector)) (n : nat) (X : gsl_matrix) i :
  i < n ->
  default [] (weighted_rows w n (rows X) !! i) =
  match w with
  | Some wv => gsl_vector_scale (gsl_matrix_row X i) (weight_factor wv i)
  | None => gsl_matrix_row X i
  end.
Proof.
  intros Hi. unfold gsl_matrix_row. destruct w as [wv|]; simpl; [|reflexivity].
  unfold weight_rows. rewrite list_lookup_imap.
  destruct (rows X !! i) as [r|]; simpl; [|reflexivity].
  replace (i <? n)%nat with true by (symmetry; apply Nat.ltb_lt; lia). reflexivity.
Qed.

Lemma wstdform2_tall (K : linalg) (L X : gsl_matrix) (w : option (gsl_vector))
    (y : gsl_vector) (Xs : gsl_matrix) (ys : gsl_vector) (M : gsl_matrix)
    (work : gsl_multifit_linear_workspace) (s : gsl_status) (qr : gsl_matrix)
    (tau : gsl_vector) :
  wstdform2_shapes_ok L X w y Xs ys M work ->
  size2 X <= size1 L ->
  gsl_linalg_QR_decomp K L
    (gsl_vector_subvector (work_xt work) 0 (GSL_MIN (size1 L) (size2 X))) = (s, qr, tau) ->
  let M' := put_submatrix (gsl_matrix_set_zero M) 0 0 qr in
  let work' := set_work_xt work (put_subvector (work_xt work) 0 tau) in
  let R := gsl_matrix_submatrix M' 0 0 (size2 X) (size2 X) in
  gsl_multifit_linear_wstdform2 K L X w y Xs ys M work =
  if is_success s then
    (GSL_SUCCESS,
     Stdform2Out
       (with_rows Xs
          (map_prefix (fun _ r => gsl_blas_dtrsv K CblasUpper CblasTrans CblasNonUnit R r)
             (size1 X) (weighted_rows w (size1 X) (rows X))))
       (weighted_entries w (size1 X) y) M' work')
  else (s, Stdform2Out Xs ys M' work').
Proof.
  intros Hok Htall Hqr M' work' R.
  destruct Hok as (Hn & Hp & HL & Hy & Hw & [Hb | Hb]); [|lia].
  destruct Hb as (_ & HXs1 & HXs2 & Hys & HM1 & HM2).
  unfold gsl_multifit_linear_wstdform2.
  replace (work_nmax work <? size1 X)%nat with false by (symmetry; apply Nat.ltb_ge; lia).
  replace (work_pmax work <? size2 X)%nat with false by (symmetry; apply Nat.ltb_ge; lia).
  rewrite HL, Hy, !Nat.eqb_refl. simpl.
  replace (match w with Some wv => negb (size1 X =? length wv)%nat | None => false end)
    with false.
  2:{ destruct w as [wv|]; [|reflexivity]. rewrite (Hw wv eq_refl), Nat.eqb_refl.
      reflexivity. }
  replace (size2 X <=? size1 L)%nat with true by (symmetry; apply Nat.leb_le; lia).
  rewrite HXs1, HXs2, Hys, HM1, HM2, !Nat.eqb_refl. simpl.
  rewrite <- HL at 1. rewrite memcpy_submatrix_whole, Hqr.
  fold M'. fold work'.
  destruct s; simpl; try reflexivity.
  destruct w as [wv|].
  - assert (Hok1 : wstdform1_shapes_ok None X (Some wv) y Xs ys work').
    { unfold wstdform1_shapes_ok. simpl.
      split; [lia|]. split; [lia|]. split; [discriminate|]. split; [lia|].
      split; [intros wv' Hwv'; injection Hwv' as <-; apply Hw; reflexivity|]. lia. }
    rewrite (wstdform1_accepted _ _ _ _ _ _ _ Hok1). simpl.
    fold R. unfold for_loop. rewrite Nat.sub_0_r, solve_row_loop. reflexivity.
  - unfold gsl_vector_memcpy, gsl_matrix_memcpy.
    rewrite Hys, Hy, HXs1, HXs2, !Nat.eqb_refl. simpl.
    fold R. unfold for_loop. rewrite Nat.sub_0_r, solve_row_loop. reflexivity.
Qed.

Lemma wstdform2_tall_shapes (L X : gsl_matrix) (w : option (gsl_vector)) (y : gsl_vector)
    (Xs : gsl_matrix) (ys : gsl_vector) (M : gsl_matrix)
    (work : gsl_multifit_linear_workspace) :
  size1 X <= work_nmax work -> size2 X <= work_pmax work ->
  size2 L = size2 X -> length y = size1 X ->
  (forall wv, w = Some wv -> length wv = size1 X) ->
  size2 X <= size1 L ->
  size1 Xs = size1 X -> size2 Xs = size2 X -> length ys = size1 X ->
  size1 M = size1 L -> size2 M = size2 X ->
  wstdform2_shapes_ok L X w y Xs ys M work.
Proof. unfold wstdform2_shapes_ok. intros. repeat (split; [assumption|]). left. tauto. Qed.

(** X14. For a square or tall [L] (m >= p) whose QR factorization
    succeeds, [gsl_multifit_linear_wstdform2] returns success; [M] is
    zeroed and then holds the packed factorization, [work->xt] its [tau],
    the rest of the workspace being untouched;
    with [R] the leading p-by-p block of that [M], row i of [Xs] is
    [gsl_blas_dtrsv] with [R^T] applied to row i of [X], scaled by
    [sqrt (max (w_i, 0))] first when weights are given; and [ys(i)] is
    [y(i)], times the same factor when weights are given. *)
Theorem wstdform2_tall_standard_form (K : linalg) (L X : gsl_matrix)
    (w : option (gsl_vector)) (y : gsl_vector) (Xs : gsl_matrix) (ys : gsl_vector)
    (M : gsl_matrix) (work : gsl_multifit_linear_workspace) (qr : gsl_matrix)
    (tau : gsl_vector) :
  matrix_wf X ->
  wstdform2_shapes_ok L X w y Xs ys M work ->
  size2 X <= size1 L ->
  gsl_linalg_QR_decomp K L
    (gsl_vector_subvector (work_xt work) 0 (GSL_MIN (size1 L) (size2 X)))
    = (GSL_SUCCESS, qr, tau) ->
  let R := gsl_matrix_submatrix (put_submatrix (gsl_matrix_set_zero M) 0 0 qr)
             0 0 (size2 X) (size2 X) in
  exists out,
    gsl_multifit_linear_wstdform2 K L X w y Xs ys M work = (GSL_SUCCESS, out) /\
    out_M out = put_submatrix (gsl_matrix_set_zero M) 0 0 qr /\
    out_work out = set_work_xt work (put_subvector (work_xt work) 0 tau) /\
    size1 (out_Xs out) = size1 X /\ size2 (out_Xs out) = size2 X /\
    length (rows (out_Xs out)) = size1 X /\
    (forall i, i < size1 X ->
       gsl_matrix_row (out_Xs out) i =
       gsl_blas_dtrsv K CblasUpper CblasTrans CblasNonUnit R
         match w with
         | Some wv => gsl_vector_scale (gsl_matrix_row X i) (weight_factor wv i)
         | None => gsl_matrix_row X i
         end) /\
    length (out_ys out) = size1 X /\
    (forall i, i < size1 X ->
       gsl_vector_get (out_ys out) i = apply_weight w i (gsl_vector_get y i)).
Proof.
  intros [Hrows _] Hok Htall Hqr R.
  rewrite (wstdform2_tall K L X w y Xs ys M work _ _ _ Hok Htall Hqr). simpl.
  destruct Hok as (Hn & Hp & HL & Hy & Hw & [Hb | Hb]); [|lia].
  destruct Hb as (_ & HXs1 & HXs2 & Hys & HM1 & HM2).
  assert (Hlenw : length (weighted_rows w (size1 X) (rows X)) = size1 X).
  { destruct w as [wv|]; simpl; [unfold weight_rows; rewrite length_imap|]; exact Hrows. }
  eexists. split; [reflexivity|]. simpl.
  split; [reflexivity|]. split; [reflexivity|].
  split; [exact HXs1|]. split; [exact HXs2|].
  split; [rewrite length_map_prefix; exact Hlenw|]. split; [|split].
  - intros i Hi. unfold gsl_matrix_row at 1. simpl.
    rewrite lookup_map_prefix.
    destruct (lookup_lt_is_Some_2 (weighted_rows w (size1 X) (rows X)) i) as [r Hr];
      [lia|].
    rewrite <- (weighted_rows_row w (size1 X) X i Hi), Hr. simpl.
    replace (i <? size1 X)%nat with true by (symmetry; apply Nat.ltb_lt; lia).
    reflexivity.
  - destruct w as [wv|]; simpl; [unfold weight_entries; rewrite length_imap|]; exact Hy.
  - intros i Hi.
    destruct (lookup_lt_is_Some_2 y i) as [x Hx]; [lia|].
    rewrite (gsl_vector_get_Some _ _ _ Hx).
    apply gsl_vector_get_Some. apply lookup_weighted_entries; assumption.
Qed.

Lemma wstdform2_tall_standard_form_witness :
  fst (gsl_multifit_linear_wstdform2 idle_linalg
         (Matrix 2 2 [[1; -1]; [0; 1]]%float) (Matrix 2 2 [[1; 2]; [3; 4]]%float)
         (Some [4; 1]%float) [1; 1]%float
         (gsl_matrix_alloc 2 2) [0; 0]%float (gsl_matrix_alloc 2 2)
         (fresh_workspace 2 2)) = GSL_SUCCESS.
Proof.
  destruct (wstdform2_tall_standard_form idle_linalg
              (Matrix 2 2 [[1; -1]; [0; 1]]%float) (Matrix 2 2 [[1; 2]; [3; 4]]%float)
              (Some [4; 1]%float) [1; 1]%float
              (gsl_matrix_alloc 2 2) [0; 0]%float (gsl_matrix_alloc 2 2)
              (fresh_workspace 2 2)
              (Matrix 2 2 [[1; -1]; [0; 1]]%float) [0; 0]%float)
    as (out & Heq & _).
  - split; [reflexivity|]. repeat constructor.
  - apply wstdform2_tall_shapes; simpl; try reflexivity; try lia.
    intros wv Hwv. injection Hwv as <-. reflexivity.
  - simpl. lia.
  - reflexivity.
  - rewrite Heq. reflexivity.
Defined.

(** X15. For a square or tall [L], a failing QR factorization is
    reported with its own status; [Xs] and [ys] are then untouched, while
    [M] has already been zeroed and overwritten with what the
    factorization left, and [work->xt] with its [tau]. *)
Theorem wstdform2_reports_QR_failure (K : linalg) (L X : gsl_matrix)
    (w : option (gsl_vector)) (y : gsl_vector) (Xs : gsl_matrix) (ys : gsl_vector)
    (M : gsl_matrix) (work : gsl_multifit_linear_workspace) (s : gsl_status)
    (qr : gsl_matrix) (tau : gsl_vector) :
  wstdform2_shapes_ok L X w y Xs ys M work ->
  size2 X <= size1 L ->
  gsl_linalg_QR_decomp K L
    (gsl_vector_subvector (work_xt work) 0 (GSL_MIN (size1 L) (size2 X))) = (s, qr, tau) ->
  s <> GSL_SUCCESS ->
  gsl_multifit_linear_wstdform2 K L X w y Xs ys M work =
  (s, Stdform2Out Xs ys (put_submatrix (gsl_matrix_set_zero M) 0 0 qr)
        (set_work_xt work (put_subvector (work_xt work) 0 tau))).
Proof.
  intros Hok Htall Hqr Hs.
  rewrite (wstdform2_tall K L X w y Xs ys M work _ _ _ Hok Htall Hqr).
  destruct s; simpl; congruence.
Qed.

Lemma wstdform2_reports_QR_failure_witness :
  gsl_multifit_linear_wstdform2 refusing_QR_linalg
    (Matrix 2 2 [[1; -1]; [0; 1]]%float) (Matrix 2 2 [[1; 2]; [3; 4]]%float)
    None [1; 1]%float
    (Matrix 2 2 [[9; 9]; [9; 9]]%float) [7; 7]%float (Matrix 2 2 [[5; 5]; [5; 5]]%float)
    (fresh_workspace 2 2)
  = (GSL_EBADLEN,
     Stdform2Out (Matrix 2 2 [[9; 9]; [9; 9]]%float) [7; 7]%float
       (put_submatrix (gsl_matrix_set_zero (Matrix 2 2 [[5; 5]; [5; 5]]%float)) 0 0
          (Matrix 2 2 [[1; -1]; [0; 1]]%float))
       (set_work_xt (fresh_workspace 2 2)
          (put_subvector (work_xt (fresh_workspace 2 2)) 0 [0; 0]%float))).
Proof.
  apply (wstdform2_reports_QR_failure refusing_QR_linalg
           (Matrix 2 2 [[1; -1]; [0; 1]]%float) (Matrix 2 2 [[1; 2]; [3; 4]]%float)
           None [1; 1]%float
           (Matrix 2 2 [[9; 9]; [9; 9]]%float) [7; 7]%float
           (Matrix 2 2 [[5; 5]; [5; 5]]%float) (fresh_workspace 2 2)).
  - apply wstdform2_tall_shapes; simpl; try reflexivity; try lia. discriminate.
  - simpl. lia.
  - reflexivity.
  - discriminate.
Defined.

(** X16. For a wide [L] (m < p), the status of
    [gsl_multifit_linear_stdform2] is the status of the first QR
    factorization (of [L^T]) and nothing else: the status of the second
    factorization and of both calls of [gsl_linalg_Q_unpack] is never
    looked at. When that first factorization fails, [Xs], [ys] and [M]
    are untouched and only [work->Q] and [work->xt] have been written. *)
Theorem stdform2_wide_status_is_first_QR (K : linalg) (L X : gsl_matrix)
    (y : gsl_vector) (Xs : gsl_matrix) (ys : gsl_vector) (M : gsl_matrix)
    (work : gsl_multifit_linear_workspace) (s : gsl_status) (lt : gsl_matrix)
    (tau : gsl_vector) :
  wstdform2_shapes_ok L X None y Xs ys M work ->
  size1 L < size2 X ->
  gsl_linalg_QR_decomp K
    (gsl_matrix_transpose_memcpy
       (gsl_matrix_submatrix (work_Q work) 0 0 (size2 X) (size1 L)) L)
    (gsl_vector_subvector (work_xt work) 0 (GSL_MIN (size2 X) (size1 L))) = (s, lt, tau) ->
  fst (gsl_multifit_linear_stdform2 K L X y Xs ys M work) = s /\
  (s <> GSL_SUCCESS ->
   gsl_multifit_linear_stdform2 K L X y Xs ys M work =
   (s, Stdform2Out Xs ys M
         (set_work_xt (set_work_Q work (put_submatrix (work_Q work) 0 0 lt))
            (put_subvector (work_xt work) 0 tau)))).
Proof.
  intros Hok Hwide Hqr.
  destruct Hok as (Hn & Hp & HL & Hy & Hw & [Hb | Hb]); [lia|].
  destruct Hb as (_ & HXs1 & HXs2 & Hys & HM1 & HM2).
  unfold gsl_multifit_linear_stdform2, gsl_multifit_linear_wstdform2.
  replace (work_nmax work <? size1 X)%nat with false by (symmetry; apply Nat.ltb_ge; lia).
  replace (work_pmax work <? size2 X)%nat with false by (symmetry; apply Nat.ltb_ge; lia).
  rewrite HL, Hy, !Nat.eqb_refl. simpl.
  replace (size2 X <=? size1 L)%nat with false by (symmetry; apply Nat.leb_gt; lia).
  rewrite <- HXs1, HXs2, !Nat.eqb_refl. simpl.
  rewrite HXs1, <- Hys, Nat.eqb_refl. simpl.
  rewrite HM1, HM2, !Nat.eqb_refl. simpl.
  rewrite Hqr.
  destruct s; simpl; try (split; [reflexivity|]; intros _; reflexivity).
  clear Hqr.
  match goal with
  | |- context [gsl_linalg_QR_decomp K ?a ?b] =>
      destruct (gsl_linalg_QR_decomp K a b) as [[s2 B] tau2]
  end.
  simpl. split; [reflexivity|]. intros Hne. congruence.
Qed.

Lemma wstdform2_wide_shapes (L X : gsl_matrix) (w : option (gsl_vector)) (y : gsl_vector)
    (Xs : gsl_matrix) (ys : gsl_vector) (M : gsl_matrix)
    (work : gsl_multifit_linear_workspace) :
  size1 X <= work_nmax work -> size2 X <= work_pmax work ->
  size2 L = size2 X -> length y = size1 X ->
  (forall wv, w = Some wv -> length wv = size1 X) ->
  size1 L < size2 X ->
  size1 Xs = size_sub (size1 X) (size2 X - size1 L) -> size2 Xs = size1 L ->
  length ys = size_sub (size1 X) (size2 X - size1 L) ->
  size1 M = size2 X -> size2 M = size1 X ->
  wstdform2_shapes_ok L X w y Xs ys M work.
Proof. unfold wstdform2_shapes_ok. intros. repeat (split; [assumption|]). right. tauto. Qed.

Lemma stdform2_wide_status_is_first_QR_witness :
  fst (gsl_multifit_linear_stdform2 refusing_QR_linalg
         (Matrix 1 2 [[1; -1]]%float) (Matrix 2 2 [[1; 2]; [3; 4]]%float)
         [1; 1]%float
         (gsl_matrix_alloc 1 1) [0]%float (gsl_matrix_alloc 2 2) (fresh_workspace 2 2))
  = GSL_EBADLEN.
Proof.
  apply (stdform2_wide_status_is_first_QR refusing_QR_linalg
           (Matrix 1 2 [[1; -1]]%float) (Matrix 2 2 [[1; 2]; [3; 4]]%float)
           [1; 1]%float
           (gsl_matrix_alloc 1 1) [0]%float (gsl_matrix_alloc 2 2) (fresh_workspace 2 2)
           GSL_EBADLEN
           (gsl_matrix_transpose_memcpy
              (gsl_matrix_submatrix (work_Q (fresh_workspace 2 2)) 0 0 2 1)
              (Matrix 1 2 [[1; -1]]%float))
           (gsl_vector_subvector (work_xt (fresh_workspace 2 2)) 0 (GSL_MIN 2 1))).
  - apply wstdform2_wide_shapes; simpl; try reflexivity; try lia. discriminate.
  - simpl. lia.
  - reflexivity.
Defined.

(** ** Back-transformation for a general regularization matrix *)

(** X17. When a shape check of [gsl_multifit_linear_genform2] fails,
    the call returns [GSL_EBADLEN] and has written neither [c] nor the
    workspace. *)
Theorem genform2_shape_errors_write_nothing (K : linalg)
    (dtrsv_status : CBLAS_UPLO -> CBLAS_TRANSPOSE -> CBLAS_DIAG -> gsl_matrix ->
                    gsl_vector -> gsl_status)
    (L X : gsl_matrix) (y cs : gsl_vector) (M : gsl_matrix)
    (c : gsl_vector) (work : gsl_multifit_linear_workspace) :
  ~ genform2_shapes_ok L X y cs M c work ->
  gsl_multifit_linear_genform2 K dtrsv_status L X y cs M c work = (GSL_EBADLEN, c, work).
Proof.
  intros Hbad. unfold gsl_multifit_linear_genform2.
  destruct (Nat.ltb_spec (work_nmax work) (size1 X)); [reflexivity|].
  destruct (Nat.ltb_spec (work_pmax work) (size2 X)); [reflexivity|]. simpl.
  destruct (Nat.eqb_spec (size2 X) (size2 L)); [|reflexivity]. simpl.
  destruct (Nat.eqb_spec (size2 X) (length c)); [|reflexivity]. simpl.
  destruct (Nat.eqb_spec (size1 X) (length y)); [|reflexivity]. simpl.
  destruct (Nat.leb_spec (size2 X) (size1 L)).
  - destruct (Nat.eqb_spec (size2 X) (length cs)); [|reflexivity]. simpl.
    destruct (Nat.eqb_spec (size1 L) (size1 M)); [|reflexivity].
    destruct (Nat.eqb_spec (size2 X) (size2 M)); [|reflexivity]. simpl.
    exfalso. apply Hbad. unfold genform2_shapes_ok.
    split; [lia|]. split; [lia|]. split; [lia|]. split; [lia|]. split; [lia|].
    left. lia.
  - destruct (Nat.eqb_spec (size1 L) (length cs)); [|reflexivity]. simpl.
    destruct (Nat.eqb_spec (size2 X) (size1 M)); [|reflexivity].
    destruct (Nat.eqb_spec (size1 X) (size2 M)); [|reflexivity]. simpl.
    exfalso. apply Hbad. unfold genform2_shapes_ok.
    split; [lia|]. split; [lia|]. split; [lia|]. split; [lia|]. split; [lia|].
    right. lia.
Qed.

Lemma genform2_shape_errors_write_nothing_witness :
  gsl_multifit_linear_genform2 idle_linalg (fun _ _ _ _ _ => GSL_SUCCESS)
    (Matrix 2 2 [[1; -1]; [0; 1]]%float) (Matrix 2 2 [[1; 2]; [3; 4]]%float)
    [1; 1]%float [1; 2; 3]%float (gsl_matrix_alloc 2 2) [9; 9]%float
    (fresh_workspace 2 2)
  = (GSL_EBADLEN, [9; 9]%float, fresh_workspace 2 2).
Proof.
  apply (genform2_shape_errors_write_nothing idle_linalg (fun _ _ _ _ _ => GSL_SUCCESS)
           (Matrix 2 2 [[1; -1]; [0; 1]]%float) (Matrix 2 2 [[1; 2]; [3; 4]]%float)
           [1; 1]%float [1; 2; 3]%float (gsl_matrix_alloc 2 2) [9; 9]%float
           (fresh_workspace 2 2)).
  unfold genform2_shapes_ok. simpl. lia.
Defined.

(** X18. For a square or tall [L] (m >= p),
    [gsl_multifit_linear_genform2] returns what [gsl_blas_dtrsv] returns,
    status included: [c] is the triangular solve of [cs] against the
    leading p-by-p block [R] of [M], whatever [c] held, and the workspace
    is not written. *)
Theorem genform2_tall_solves_against_R (K : linalg)
    (dtrsv_status : CBLAS_UPLO -> CBLAS_TRANSPOSE -> CBLAS_DIAG -> gsl_matrix ->
                    gsl_vector -> gsl_status)
    (L X : gsl_matrix) (y cs : gsl_vector) (M : gsl_matrix)
    (c : gsl_vector) (work : gsl_multifit_linear_workspace) :
  genform2_shapes_ok L X y cs M c work ->
  size2 X <= size1 L ->
  let R := gsl_matrix_submatrix M 0 0 (size2 X) (size2 X) in
  gsl_multifit_linear_genform2 K dtrsv_status L X y cs M c work =
  (dtrsv_status CblasUpper CblasNoTrans CblasNonUnit R cs,
   gsl_blas_dtrsv K CblasUpper CblasNoTrans CblasNonUnit R cs,
   work).
Proof.
  intros (Hn & Hp & HL & Hc & Hy & [Hb | Hb]) Htall R; [|lia].
  destruct Hb as (_ & Hcs & HM1 & HM2).
  unfold gsl_multifit_linear_genform2.
  replace (work_nmax work <? size1 X)%nat with false by (symmetry; apply Nat.ltb_ge; lia).
  replace (work_pmax work <? size2 X)%nat with false by (symmetry; apply Nat.ltb_ge; lia).
  rewrite HL, Hc, Hy, !Nat.eqb_refl. simpl.
  replace (size2 X <=? size1 L)%nat with true by (symmetry; apply Nat.leb_le; lia).
  rewrite Hcs, HM1, HM2, !Nat.eqb_refl. simpl.
  unfold gsl_vector_memcpy. rewrite Hc, Hcs, Nat.eqb_refl. reflexivity.
Qed.

Lemma genform2_tall_solves_against_R_witness :
  gsl_multifit_linear_genform2 idle_linalg (fun _ _ _ _ _ => GSL_ENOTSQR)
    (Matrix 2 2 [[1; -1]; [0; 1]]%float) (Matrix 2 2 [[1; 2]; [3; 4]]%float)
    [1; 1]%float [1; 2]%float (gsl_matrix_alloc 2 2) [9; 9]%float
    (fresh_workspace 2 2)
  = (GSL_ENOTSQR, [1; 2]%float, fresh_workspace 2 2).
Proof.
  apply (genform2_tall_solves_against_R idle_linalg (fun _ _ _ _ _ => GSL_ENOTSQR)
           (Matrix 2 2 [[1; -1]; [0; 1]]%float) (Matrix 2 2 [[1; 2]; [3; 4]]%float)
           [1; 1]%float [1; 2]%float (gsl_matrix_alloc 2 2) [9; 9]%float
           (fresh_workspace 2 2)).
  - unfold genform2_shapes_ok. simpl. lia.
  - simpl. lia.
Defined.

(** ** Unpacking the orthogonal factor *)

Lemma Q_unpack_loop_sizes (K : linalg) (QR : gsl_matrix) (tau : gsl_vector) (i : nat)
    (Q : gsl_matrix) :
  size1 (Q_unpack_loop K QR tau i Q) = size1 Q /\
  size2 (Q_unpack_loop K QR tau i Q) = size2 Q.
Proof.
  revert Q. induction i as [|i IH]; intros Q; simpl; [auto|].
  destruct (IH (put_submatrix Q i i
                  (gsl_linalg_householder_hm K (gsl_vector_get tau i)
                     (gsl_vector_subvector (gsl_matrix_column QR i) i (size1 QR - i))
                     (gsl_matrix_submatrix Q i i (size1 QR - i) (size1 QR - i)))))
    as [H1 H2].
  simpl in H1, H2. auto.
Qed.

(** X19. [gsl_linalg_Q_unpack] keeps the sizes of [Q] and leaves [Q]
    untouched on every error. It returns [GSL_ENOTSQR] exactly when [Q]
    is not M-by-M, and [GSL_EBADLEN] exactly when [Q] is M-by-M and the
    length of [tau] is not min (M, N): the squareness check comes first.
    For a factorization without columns, a successful call sets [Q] to
    the identity. *)
Theorem Q_unpack_checks_and_sizes (K : linalg) (QR : gsl_matrix) (tau : gsl_vector)
    (Q : gsl_matrix) :
  let r := gsl_linalg_Q_unpack K QR tau Q in
  size1 (snd r) = size1 Q /\ size2 (snd r) = size2 Q /\
  (fst r <> GSL_SUCCESS -> snd r = Q) /\
  (fst r = GSL_ENOTSQR <-> ~ (size1 Q = size1 QR /\ size2 Q = size1 QR)) /\
  (fst r = GSL_EBADLEN <->
   size1 Q = size1 QR /\ size2 Q = size1 QR /\
   length tau <> GSL_MIN (size1 QR) (size2 QR)) /\
  (size2 QR = 0 -> fst r = GSL_SUCCESS -> snd r = gsl_matrix_set_identity Q).
Proof.
  cbv zeta. unfold gsl_linalg_Q_unpack.
  destruct (Nat.eqb_spec (size1 Q) (size1 QR)) as [H1|H1];
    destruct (Nat.eqb_spec (size2 Q) (size1 QR)) as [H2|H2]; simpl;
    try (repeat split; auto; try discriminate; try tauto; try lia;
         intros; exfalso; tauto).
  destruct (Nat.eqb_spec (length tau) (GSL_MIN (size1 QR) (size2 QR))) as [H3|H3]; simpl.
  - destruct (Q_unpack_loop_sizes K QR tau (GSL_MIN (size1 QR) (size2 QR))
                (gsl_matrix_set_identity Q)) as [Hs1 Hs2].
    simpl in Hs1, Hs2.
    split; [exact Hs1|]. split; [exact Hs2|].
    split; [congruence|]. split; [split; [discriminate|tauto]|].
    split; [split; [discriminate|tauto]|].
    intros Hz _. unfold GSL_MIN. rewrite Hz.
    destruct (size1 QR <? 0)%nat eqn:Hlt; [apply Nat.ltb_lt in Hlt; lia|]. reflexivity.
  - split; [reflexivity|]. split; [reflexivity|].
    split; [reflexivity|]. split; [split; [discriminate|tauto]|].
    split; [tauto|]. discriminate.
Qed.

(** ** The Sobolev smoothing operator *)

Lemma get_set_zero (m : gsl_matrix) (a b j k : nat) :
  gsl_matrix_get (gsl_matrix_set m a b 0%float) j k =
  if ((j =? a) && (k =? b))%nat then 0%float else gsl_matrix_get m j k.
Proof.
  unfold gsl_matrix_get, gsl_matrix_set. simpl.
  destruct (Nat.eqb_spec j a) as [->|Hja]; simpl.
  - rewrite list_lookup_alter_eq. destruct (rows m !! a) as [r|]; simpl.
    + destruct (Nat.eqb_spec k b) as [->|Hkb].
      * destruct (decide (b < length r)) as [Hb|Hb].
        -- rewrite list_lookup_insert_eq by exact Hb. reflexivity.
        -- rewrite lookup_ge_None_2 by (rewrite length_insert; lia). reflexivity.
      * rewrite list_lookup_insert_ne by auto. reflexivity.
    + destruct (k =? b)%nat; reflexivity.
  - rewrite list_lookup_alter_ne by auto. reflexivity.
Qed.

Lemma zero_row_get (j : nat) (L : gsl_matrix) (a b : nat) :
  gsl_matrix_get (Lsobolev_zero_row j L) a b =
  if ((a =? j) && (b <? j))%nat then 0%float else gsl_matrix_get L a b.
Proof.
  unfold Lsobolev_zero_row, for_loop. rewrite Nat.sub_0_r.
  assert (Hgen : forall m,
            gsl_matrix_get
              (foldl (fun s k => gsl_matrix_set s j k 0%float) L (seq 0 m)) a b =
            if ((a =? j) && (b <? m))%nat then 0%float else gsl_matrix_get L a b).
  { induction m as [|m IH].
    - simpl. rewrite andb_false_r. reflexivity.
    - rewrite foldl_seq_S. simpl. rewrite get_set_zero, IH.
      destruct (Nat.eqb_spec a j), (Nat.eqb_spec b m), (Nat.ltb_spec b m),
        (Nat.ltb_spec b (S m)); simpl; try lia; reflexivity. }
  apply Hgen.
Qed.

Lemma zero_lower_triangle_get (p : nat) (L : gsl_matrix) (a b : nat) :
  gsl_matrix_get (for_loop 0 p Lsobolev_zero_row L) a b =
  if ((a <? p) && (b <? a))%nat then 0%float else gsl_matrix_get L a b.
Proof.
  unfold for_loop. rewrite Nat.sub_0_r.
  induction p as [|p IH].
  - reflexivity.
  - rewrite foldl_seq_S. simpl. rewrite zero_row_get, IH.
    destruct (Nat.eqb_spec a p), (Nat.ltb_spec a p), (Nat.ltb_spec a (S p)),
      (Nat.ltb_spec b p), (Nat.ltb_spec b a); simpl; try lia; reflexivity.
Qed.

Section SobolevFacts.

Variable dsyrk :
  CBLAS_UPLO -> CBLAS_TRANSPOSE -> float -> gsl_matrix -> float -> gsl_matrix -> gsl_matrix.
Variable cholesky : gsl_matrix -> gsl_status * gsl_matrix.

Lemma Lsobolev_rejected (p kmax : nat) (alpha : gsl_vector) (L : gsl_matrix)
    (work : gsl_multifit_linear_workspace) :
  ~ (Lsobolev_lengths_ok p kmax alpha L work /\ size2 L = size1 L) ->
  gsl_multifit_linear_Lsobolev dsyrk cholesky p kmax alpha L work =
  (if decide (Lsobolev_lengths_ok p kmax alpha L work) then GSL_ENOTSQR else GSL_EBADLEN,
   L, work).
Proof.
  intros Hbad. unfold gsl_multifit_linear_Lsobolev, Lsobolev_lengths_ok in *.
  destruct (Nat.ltb_spec (work_pmax work) p).
  { rewrite decide_False by lia. reflexivity. }
  destruct (Nat.leb_spec p kmax).
  { rewrite decide_False by lia. reflexivity. }
  destruct (Nat.eqb_spec (kmax + 1) (length alpha)); simpl.
  2:{ rewrite decide_False by lia. reflexivity. }
  destruct (Nat.eqb_spec p (size1 L)); simpl.
  2:{ rewrite decide_False by lia. reflexivity. }
  destruct (Nat.eqb_spec (size1 L) (size2 L)); simpl.
  { exfalso. apply Hbad. lia. }
  rewrite decide_True by lia. reflexivity.
Qed.

(** The loop over the derivative orders has not failed while the orders
    stay below the library's cap. *)
Lemma Lsobolev_loop_success (p : nat) (alpha : gsl_vector) (L0 : gsl_matrix)
    (work0 : gsl_multifit_linear_workspace) (m : nat) :
  m < p -> m + 1 < GSL_MULTIFIT_MAXK ->
  fst (fst (foldl (fun s k => Lsobolev_step dsyrk p alpha k s)
              (GSL_SUCCESS, L0, work0) (seq 1 m))) = GSL_SUCCESS.
Proof.
  induction m as [|m IH]; intros Hp Hmax; [reflexivity|].
  rewrite foldl_seq_S. simpl.
  destruct (foldl _ _ (seq 1 m)) as [[s L] work] eqn:Hst.
  simpl in IH. rewrite IH by lia. unfold Lsobolev_step. simpl.
  destruct (Lk_accepted p (S m) (gsl_matrix_submatrix (work_Linv work) 0 0 (p - S m) p))
    as (Lk' & Heq & _).
  { unfold Lk_args_ok. simpl. lia. }
  rewrite Heq. reflexivity.
Qed.

Lemma Lsobolev_loop_stuck (p : nat) (alpha : gsl_vector) (ks : list nat)
    (st : gsl_status * gsl_matrix * gsl_multifit_linear_workspace) :
  is_success (fst (fst st)) = false ->
  foldl (fun s k => Lsobolev_step dsyrk p alpha k s) st ks = st.
Proof.
  revert st. induction ks as [|k ks IH]; intros st Hst; [reflexivity|].
  simpl. assert (Hstep : Lsobolev_step dsyrk p alpha k st = st).
  { destruct st as [[s L] work]. simpl in Hst. unfold Lsobolev_step. rewrite Hst.
    reflexivity. }
  rewrite Hstep. apply IH, Hst.
Qed.

Lemma Lsobolev_loop_cap (p kmax : nat) (alpha : gsl_vector) (L0 : gsl_matrix)
    (work0 : gsl_multifit_linear_workspace) :
  kmax < p -> GSL_MULTIFIT_MAXK - 1 <= kmax ->
  fst (fst (for_loop 1 (kmax + 1) (Lsobolev_step dsyrk p alpha)
              (GSL_SUCCESS, L0, work0))) = GSL_EBADLEN.
Proof.
  intros Hp Hcap. unfold GSL_MULTIFIT_MAXK in Hcap. unfold for_loop.
  replace (kmax + 1 - 1) with (98 + S (kmax - 99)) by lia.
  rewrite seq_app, foldl_app.
  pose proof (Lsobolev_loop_success p alpha L0 work0 98) as H98.
  destruct (foldl _ _ (seq 1 98)) as [[s L] work] eqn:Hst.
  simpl in H98. rewrite H98 by (unfold GSL_MULTIFIT_MAXK; lia).
  change (1 + 98) with 99. rewrite <- cons_seq. cbn [foldl].
  assert (Hstep : Lsobolev_step dsyrk p alpha 99 (GSL_SUCCESS, L, work) =
                  (GSL_EBADLEN, L, work)).
  { unfold Lsobolev_step. simpl is_success. cbv iota.
    rewrite Lk_rejected; [reflexivity|].
    unfold Lk_args_ok, GSL_MULTIFIT_MAXK. lia. }
  rewrite Hstep, Lsobolev_loop_stuck by reflexivity. reflexivity.
Qed.

Lemma Lsobolev_accepted (p kmax : nat) (alpha : gsl_vector) (L : gsl_matrix)
    (work : gsl_multifit_linear_workspace) :
  Lsobolev_lengths_ok p kmax alpha L work -> size2 L = size1 L ->
  gsl_multifit_linear_Lsobolev dsyrk cholesky p kmax alpha L work =
  (let alpha0 := gsl_vector_get alpha 0 in
   let L := gsl_matrix_set_zero L in
   let d := gsl_matrix_diagonal L in
   let L := put_diagonal L (gsl_vector_add_constant d (alpha0 * alpha0)%float) in
   let '(s, L, work) :=
     for_loop 1 (kmax + 1) (Lsobolev_step dsyrk p alpha) (GSL_SUCCESS, L, work) in
   if negb (is_success s) then (s, L, work)
   else
     let '(s, L) := cholesky L in
     if negb (is_success s) then (s, L, work)
     else (GSL_SUCCESS, for_loop 0 p Lsobolev_zero_row L, work)).
Proof.
  intros (Hp & Hk & Ha & H1) H2. unfold gsl_multifit_linear_Lsobolev.
  replace (work_pmax work <? p)%nat with false by (symmetry; apply Nat.ltb_ge; lia).
  replace (p <=? kmax)%nat with false by (symmetry; apply Nat.leb_gt; lia).
  rewrite Ha, H2, H1, !Nat.eqb_refl. reflexivity.
Qed.

End SobolevFacts.

(** X20. When a check of [gsl_multifit_linear_Lsobolev] fails, [L] and
    the workspace are untouched. The status is [GSL_ENOTSQR] only when the
    four length checks pass and [L] is not square; when one of them fails
    it is [GSL_EBADLEN], also for an [L] that is not square. *)
Theorem Lsobolev_shape_errors (dsyrk :
      CBLAS_UPLO -> CBLAS_TRANSPOSE -> float -> gsl_matrix -> float -> gsl_matrix ->
      gsl_matrix)
    (cholesky : gsl_matrix -> gsl_status * gsl_matrix)
    (p kmax : nat) (alpha : gsl_vector) (L : gsl_matrix)
    (work : gsl_multifit_linear_workspace) :
  ~ (Lsobolev_lengths_ok p kmax alpha L work /\ size2 L = size1 L) ->
  exists s,
    gsl_multifit_linear_Lsobolev dsyrk cholesky p kmax alpha L work = (s, L, work) /\
    (s = GSL_ENOTSQR <-> Lsobolev_lengths_ok p kmax alpha L work) /\
    (s = GSL_EBADLEN <-> ~ Lsobolev_lengths_ok p kmax alpha L work).
Proof.
  intros Hbad. rewrite Lsobolev_rejected by exact Hbad.
  eexists. split; [reflexivity|].
  destruct (decide (Lsobolev_lengths_ok p kmax alpha L work)); split; split;
    intros; try tauto; try discriminate; try reflexivity.
Qed.

Lemma Lsobolev_shape_errors_witness :
  exists s,
    gsl_multifit_linear_Lsobolev (fun _ _ _ _ _ C => C) (fun A => (GSL_SUCCESS, A))
      3 1 [1; 1]%float (gsl_matrix_alloc 2 5) (fresh_workspace 3 3)
    = (s, gsl_matrix_alloc 2 5, fresh_workspace 3 3) /\
    (s = GSL_ENOTSQR <->
     Lsobolev_lengths_ok 3 1 [1; 1]%float (gsl_matrix_alloc 2 5) (fresh_workspace 3 3)) /\
    (s = GSL_EBADLEN <->
     ~ Lsobolev_lengths_ok 3 1 [1; 1]%float (gsl_matrix_alloc 2 5) (fresh_workspace 3 3)).
Proof.
  apply (Lsobolev_shape_errors (fun _ _ _ _ _ C => C) (fun A => (GSL_SUCCESS, A))
           3 1 [1; 1]%float (gsl_matrix_alloc 2 5) (fresh_workspace 3 3)).
  unfold Lsobolev_lengths_ok. simpl. lia.
Defined.

(** X21. Whenever [gsl_multifit_linear_Lsobolev] succeeds, the [L] it
    returns is what a successful [gsl_linalg_cholesky_decomp] left, with
    the entries below the diagonal in the rows 0 .. p-1 set to zero:
    the result is upper triangular. *)
Theorem Lsobolev_upper_triangle_of_cholesky (dsyrk :
      CBLAS_UPLO -> CBLAS_TRANSPOSE -> float -> gsl_matrix -> float -> gsl_matrix ->
      gsl_matrix)
    (cholesky : gsl_matrix -> gsl_status * gsl_matrix)
    (p kmax : nat) (alpha : gsl_vector) (L : gsl_matrix)
    (work : gsl_multifit_linear_workspace)
    (L' : gsl_matrix) (work' : gsl_multifit_linear_workspace) :
  gsl_multifit_linear_Lsobolev dsyrk cholesky p kmax alpha L work
    = (GSL_SUCCESS, L', work') ->
  exists A C,
    cholesky A = (GSL_SUCCESS, C) /\
    forall j k,
      gsl_matrix_get L' j k =
      if ((j <? p) && (k <? j))%nat then 0%float else gsl_matrix_get C j k.
Proof.
  intros Hcall.
  destruct (decide (Lsobolev_lengths_ok p kmax alpha L work /\ size2 L = size1 L))
    as [[Hok Hsq]|Hbad].
  2:{ rewrite Lsobolev_rejected in Hcall by exact Hbad.
      destruct (decide (Lsobolev_lengths_ok p kmax alpha L work)); discriminate. }
  rewrite Lsobolev_accepted in Hcall by assumption. cbv zeta in Hcall.
  destruct (for_loop 1 (kmax + 1) _ _) as [[s1 L1] work1].
  destruct s1; simpl in Hcall; try discriminate.
  destruct (cholesky L1) as [s2 C] eqn:Hchol.
  destruct s2; simpl in Hcall; try discriminate.
  injection Hcall as <- <-.
  exists L1, C. split; [exact Hchol|].
  intros j k. apply zero_lower_triangle_get.
Qed.

Lemma Lsobolev_upper_triangle_of_cholesky_witness :
  gsl_matrix_get
    (snd (fst (gsl_multifit_linear_Lsobolev
                 (fun _ _ _ _ _ _ => Matrix 2 2 [[4; 2]; [2; 5]]%float)
                 (fun A => (GSL_SUCCESS, A))
                 2 1 [1; 1]%float (gsl_matrix_alloc 2 2) (fresh_workspace 2 2)))) 1 0
  = 0%float.
Proof.
  destruct (Lsobolev_upper_triangle_of_cholesky
              (fun _ _ _ _ _ _ => Matrix 2 2 [[4; 2]; [2; 5]]%float)
              (fun A => (GSL_SUCCESS, A))
              2 1 [1; 1]%float (gsl_matrix_alloc 2 2) (fresh_workspace 2 2)
              (snd (fst (gsl_multifit_linear_Lsobolev
                   (fun _ _ _ _ _ _ => Matrix 2 2 [[4; 2]; [2; 5]]%float)
                   (fun A => (GSL_SUCCESS, A))
                   2 1 [1; 1]%float (gsl_matrix_alloc 2 2) (fresh_workspace 2 2))))
              (snd (gsl_multifit_linear_Lsobolev
                   (fun _ _ _ _ _ _ => Matrix 2 2 [[4; 2]; [2; 5]]%float)
                   (fun A => (GSL_SUCCESS, A))
                   2 1 [1; 1]%float (gsl_matrix_alloc 2 2) (fresh_workspace 2 2))))
    as (A & C & _ & Hent).
  - vm_compute. reflexivity.
  - rewrite Hent. reflexivity.
Defined.

(** X22. [gsl_multifit_linear_Lsobolev] cannot build an operator of
    order kmax >= 99: with every argument check passing it still returns
    [GSL_EBADLEN], the refusal of [gsl_multifit_linear_Lk] at order 99,
    raised from inside the loop after [L] has been reset and the lower
    orders accumulated. *)
Theorem Lsobolev_order_cap (dsyrk :
      CBLAS_UPLO -> CBLAS_TRANSPOSE -> float -> gsl_matrix -> float -> gsl_matrix ->
      gsl_matrix)
    (cholesky : gsl_matrix -> gsl_status * gsl_matrix)
    (p kmax : nat) (alpha : gsl_vector) (L : gsl_matrix)
    (work : gsl_multifit_linear_workspace) :
  Lsobolev_lengths_ok p kmax alpha L work -> size2 L = size1 L ->
  GSL_MULTIFIT_MAXK - 1 <= kmax ->
  fst (fst (gsl_multifit_linear_Lsobolev dsyrk cholesky p kmax alpha L work))
  = GSL_EBADLEN.
Proof.
  intros Hok Hsq Hcap. rewrite Lsobolev_accepted by assumption. cbv zeta.
  destruct Hok as (Hp & Hk & Ha & H1).
  pose proof (Lsobolev_loop_cap dsyrk p kmax alpha
                (put_diagonal (gsl_matrix_set_zero L)
                   (gsl_vector_add_constant (gsl_matrix_diagonal (gsl_matrix_set_zero L))
                      (gsl_vector_get alpha 0 * gsl_vector_get alpha 0)%float))
                work Hk Hcap) as Hloop.
  destruct (for_loop 1 (kmax + 1) _ _) as [[s1 L1] work1].
  simpl in Hloop. subst s1. reflexivity.
Qed.

Lemma Lsobolev_order_cap_witness :
  fst (fst (gsl_multifit_linear_Lsobolev
              (fun _ _ _ _ _ C => C) (fun A => (GSL_SUCCESS, A))
              100 99 (replicate 100 1%float) (gsl_matrix_alloc 100 100)
              (fresh_workspace 100 100)))
  = GSL_EBADLEN.
Proof.
  apply (Lsobolev_order_cap (fun _ _ _ _ _ C => C) (fun A => (GSL_SUCCESS, A))
           100 99 (replicate 100 1%float) (gsl_matrix_alloc 100 100)
           (fresh_workspace 100 100)).
  - unfold Lsobolev_lengths_ok.
    split; [vm_compute; lia|]. split; [lia|]. split; reflexivity.
  - reflexivity.
  - unfold GSL_MULTIFIT_MAXK. lia.
Defined.

(** X23. For kmax <= 98 and arguments that pass the checks, the loop
    over the derivative orders never fails: the status of
    [gsl_multifit_linear_Lsobolev] is the status of its one call of
    [gsl_linalg_cholesky_decomp]. *)
Theorem Lsobolev_fails_only_in_cholesky (dsyrk :
      CBLAS_UPLO -> CBLAS_TRANSPOSE -> float -> gsl_matrix -> float -> gsl_matrix ->
      gsl_matrix)
    (cholesky : gsl_matrix -> gsl_status * gsl_matrix)
    (p kmax : nat) (alpha : gsl_vector) (L : gsl_matrix)
    (work : gsl_multifit_linear_workspace) :
  Lsobolev_lengths_ok p kmax alpha L work -> size2 L = size1 L ->
  kmax + 1 < GSL_MULTIFIT_MAXK ->
  exists A,
    fst (fst (gsl_multifit_linear_Lsobolev dsyrk cholesky p kmax alpha L work))
    = fst (cholesky A).
Proof.
  intros Hok Hsq Hcap. rewrite Lsobolev_accepted by assumption. cbv zeta.
  destruct Hok as (Hp & Hk & Ha & H1).
  pose proof (Lsobolev_loop_success dsyrk p alpha
                (put_diagonal (gsl_matrix_set_zero L)
                   (gsl_vector_add_constant (gsl_matrix_diagonal (gsl_matrix_set_zero L))
                      (gsl_vector_get alpha 0 * gsl_vector_get alpha 0)%float))
                work kmax Hk Hcap) as Hloop.
  unfold for_loop. replace (kmax + 1 - 1) with kmax by lia.
  destruct (foldl _ _ (seq 1 kmax)) as [[s1 L1] work1].
  simpl in Hloop. subst s1. simpl.
  exists L1. destruct (cholesky L1) as [s2 C]. destruct s2; reflexivity.
Qed.

Lemma Lsobolev_fails_only_in_cholesky_witness :
  fst (fst (gsl_multifit_linear_Lsobolev
              (fun _ _ _ _ _ C => C) (fun A => (GSL_EDOM, A))
              3 2 [1; 1; 1]%float (gsl_matrix_alloc 3 3) (fresh_workspace 3 3)))
  = GSL_EDOM.
Proof.
  destruct (Lsobolev_fails_only_in_cholesky
              (fun _ _ _ _ _ C => C) (fun A => (GSL_EDOM, A))
              3 2 [1; 1; 1]%float (gsl_matrix_alloc 3 3) (fresh_workspace 3 3))
    as [A HA].
  - unfold Lsobolev_lengths_ok. simpl. lia.
  - reflexivity.
  - unfold GSL_MULTIFIT_MAXK. lia.
  - rewrite HA. reflexivity.
Defined.

(** ** Repeated points and signs in the corner detectors

    When the first point of a triple comes back as the second or as the
    third, the differences [x21], [y21] (or [x31], [y31]) are themselves
    zeros, or NaNs for coordinates that are not finite. Every product in
    the determinant [x21*y31 - x31*y21] is then a product by such a
    value, and so is one factor under the root: the radius is the NaN
    0/0, and no rounding of a product enters. The third way of repeating
    a point, the second by the third, is left out: there the determinant
    vanishes only because two equal rounded products cancel. *)

Lemma sub_diag_zero_or_nan (x : float) : zero_or_nan (x - x).
Proof.
  unfold zero_or_nan. rewrite FloatAxioms.sub_spec. unfold SF64sub, SFsub.
  destruct (Prim2SF x) as [s|s| |s m e]; simpl; auto.
  - destruct s; exact I.
  - destruct s; exact I.
  - rewrite Z.sub_diag. exact I.
Qed.

Lemma mul_zero_or_nan_l (x y : float) : zero_or_nan x -> zero_or_nan (x * y).
Proof.
  unfold zero_or_nan. rewrite FloatAxioms.mul_spec. unfold SF64mul, SFmul.
  destruct (Prim2SF x) as [s|s| |s m e]; simpl; try tauto; intros _;
    destruct (Prim2SF y); exact I.
Qed.

Lemma mul_zero_or_nan_r (x y : float) : zero_or_nan y -> zero_or_nan (x * y).
Proof.
  unfold zero_or_nan. rewrite FloatAxioms.mul_spec. unfold SF64mul, SFmul.
  destruct (Prim2SF y) as [s|s| |s m e]; simpl; try tauto; intros _;
    destruct (Prim2SF x); exact I.
Qed.

Lemma add_zero_or_nan (x y : float) :
  zero_or_nan x -> zero_or_nan y -> zero_or_nan (x + y).
Proof.
  unfold zero_or_nan. rewrite FloatAxioms.add_spec. unfold SF64add, SFadd.
  destruct (Prim2SF x) as [s|s| |s m e]; simpl; try tauto; intros _;
    destruct (Prim2SF y) as [s'|s'| |s' m' e']; simpl; try tauto; intros _;
    destruct s, s'; exact I.
Qed.

Lemma sub_zero_or_nan (x y : float) :
  zero_or_nan x -> zero_or_nan y -> zero_or_nan (x - y).
Proof.
  unfold zero_or_nan. rewrite FloatAxioms.sub_spec. unfold SF64sub, SFsub.
  destruct (Prim2SF x) as [s|s| |s m e]; simpl; try tauto; intros _;
    destruct (Prim2SF y) as [s'|s'| |s' m' e']; simpl; try tauto; intros _;
    destruct s, s'; exact I.
Qed.

Lemma sqrt_zero_or_nan (x : float) : zero_or_nan x -> zero_or_nan (PrimFloat.sqrt x).
Proof.
  unfold zero_or_nan. rewrite FloatAxioms.sqrt_spec. unfold SF64sqrt, SFsqrt.
  destruct (Prim2SF x) as [s|s| |s m e]; simpl; tauto.
Qed.

Lemma abs_zero_or_nan (x : float) : zero_or_nan x -> zero_or_nan (abs x).
Proof.
  unfold zero_or_nan. rewrite FloatAxioms.abs_spec.
  destruct (Prim2SF x) as [s|s| |s m e]; simpl; tauto.
Qed.

Lemma div_zero_or_nan_not_finite (x y : float) :
  zero_or_nan x -> zero_or_nan y -> gsl_finite (x / y) = false.
Proof.
  unfold zero_or_nan, gsl_finite. rewrite is_finite_spec, FloatAxioms.div_spec.
  unfold SF64div, SFdiv.
  destruct (Prim2SF x) as [s|s| |s m e]; simpl; try tauto; intros _;
    destruct (Prim2SF y) as [s'|s'| |s' m' e']; simpl; try tauto; reflexivity.
Qed.

(** Three points of which the first is repeated have no circumradius:
    the quotient the loop computes is a NaN. *)
Lemma circle_radius_repeated_first_point (x1 y1 x2 y2 x3 y3 : float) :
  (x1, y1) = (x2, y2) \/ (x1, y1) = (x3, y3) ->
  gsl_finite (circle_radius x1 y1 x2 y2 x3 y3) = false.
Proof.
  intros [H|H]; injection H as -> ->; unfold circle_radius; cbv zeta;
    apply div_zero_or_nan_not_finite.
  - apply sqrt_zero_or_nan, mul_zero_or_nan_l, mul_zero_or_nan_l.
    apply add_zero_or_nan; apply mul_zero_or_nan_l, sub_diag_zero_or_nan.
  - apply abs_zero_or_nan, mul_zero_or_nan_r.
    apply sub_zero_or_nan;
      [apply mul_zero_or_nan_l | apply mul_zero_or_nan_r]; apply sub_diag_zero_or_nan.
  - apply sqrt_zero_or_nan, mul_zero_or_nan_l, mul_zero_or_nan_r.
    apply add_zero_or_nan; apply mul_zero_or_nan_l, sub_diag_zero_or_nan.
  - apply abs_zero_or_nan, mul_zero_or_nan_r.
    apply sub_zero_or_nan;
      [apply mul_zero_or_nan_r | apply mul_zero_or_nan_l]; apply sub_diag_zero_or_nan.
Qed.

Lemma radius_at_repeats_previous (pt : nat -> float * float) (i : nat) :
  pt (i - 1) = pt i \/ pt (i - 1) = pt (i + 1) ->
  gsl_finite (radius_at pt i) = false.
Proof.
  intros Hrep. unfold radius_at. apply circle_radius_repeated_first_point.
  rewrite <- !surjective_pairing. exact Hrep.
Qed.

Lemma finite_radius_apart_from_previous (pt : nat -> float * float) (i : nat) :
  gsl_finite (radius_at pt i) = true -> apart_from_previous pt i.
Proof.
  intros Hfin. unfold apart_from_previous.
  split; intros Heq;
    rewrite radius_at_repeats_previous in Hfin by auto; discriminate.
Qed.

(** X24. Whenever [gsl_multifit_linear_lcorner] or
    [gsl_multifit_linear_lcorner2] succeeds, the index i it returns is
    interior and the curve point at i-1 is repeated neither at i nor at
    i+1: a triple whose first point comes back has the NaN radius 0/0
    and is never selected. *)
Theorem lcorner_selection_leaves_previous_point (v : corner_variant)
    (a eta : gsl_vector) (idx0 i : nat) :
  lcorner_variant v a eta idx0 = (GSL_SUCCESS, i) ->
  interior (length a) i /\ apart_from_previous (corner_point v a eta) i.
Proof.
  intros Hcall.
  destruct (decide (length a < 3)) as [Hshort|Hlong].
  { rewrite lcorner_variant_short in Hcall by assumption. discriminate. }
  destruct (decide (length a = length eta)) as [Hlen|Hne].
  2: { rewrite lcorner_variant_mismatch in Hcall by (auto; lia). discriminate. }
  rewrite lcorner_variant_loop in Hcall by (auto; lia).
  pose proof (corner_inv_loop (corner_point v a eta) idx0 (length a - 2)) as Hinv.
  destruct Hinv as (_ & _ & _ & _ & [(Hnone & Hrmin & Hidx) | (Hfirst & Hrmin)]).
  - unfold corner_result in Hcall. rewrite Hrmin in Hcall.
    change ((-1 <? 0)%float) with true in Hcall. discriminate.
  - unfold corner_result in Hcall. rewrite Hrmin, radius_not_lt_zero in Hcall.
    injection Hcall as <-.
    destruct Hfirst as (Hrange & Hfin & _).
    split; [unfold interior; lia|]. apply finite_radius_apart_from_previous, Hfin.
Qed.

Lemma lcorner_selection_leaves_previous_point_witness :
  interior 4 1 /\
  apart_from_previous
    (corner_point SquaredCurve [1; 2; 3; 4]%float [4; 2; 1.5; 1.25]%float) 1.
Proof.
  apply (lcorner_selection_leaves_previous_point SquaredCurve
           [1; 2; 3; 4]%float [4; 2; 1.5; 1.25]%float 7 1).
  vm_compute. reflexivity.
Defined.

(** X25. On a curve of n >= 3 points in which every interior index i has
    the point at i-1 repeated at i or at i+1 (a constant curve, for
    instance), both corner detectors return [GSL_EINVAL] and leave
    [*idx] alone, for any [log]. *)
Theorem lcorner_rejects_curve_repeating_previous_point (v : corner_variant)
    (a eta : gsl_vector) (idx0 : nat) :
  3 <= length a ->
  length a = length eta ->
  (forall i, interior (length a) i ->
     let pt := corner_point v a eta in
     pt (i - 1) = pt i \/ pt (i - 1) = pt (i + 1)) ->
  lcorner_variant v a eta idx0 = (GSL_EINVAL, idx0).
Proof.
  intros H3 Hlen Hrep.
  rewrite lcorner_variant_loop by assumption.
  pose proof (corner_inv_loop (corner_point v a eta) idx0 (length a - 2)) as Hinv.
  destruct Hinv as (_ & _ & _ & _ & [(Hnone & Hrmin & Hidx) | (Hfirst & Hrmin)]).
  - unfold corner_result. rewrite Hrmin, Hidx. reflexivity.
  - destruct Hfirst as (Hrange & Hfin & _).
    rewrite radius_at_repeats_previous in Hfin; [discriminate|].
    apply Hrep. unfold interior. lia.
Qed.

Lemma lcorner_rejects_curve_repeating_previous_point_witness :
  lcorner_variant (LogCurve (fun x => x)) [3; 3; 3; 3]%float [2; 2; 2; 2]%float 7
  = (GSL_EINVAL, 7).
Proof.
  apply (lcorner_rejects_curve_repeating_previous_point (LogCurve (fun x => x))
           [3; 3; 3; 3]%float [2; 2; 2; 2]%float 7).
  - simpl. lia.
  - reflexivity.
  - intros i [Hi1 Hi2]. simpl in Hi2. cbv zeta. left.
    assert (Hi : i = 1 \/ i = 2) by lia. destruct Hi as [-> | ->]; reflexivity.
Defined.

(** The squares do not see the signs. *)

Lemma mul_opp_opp (x : float) : (- x * - x)%float = (x * x)%float.
Proof.
  apply FloatAxioms.Prim2SF_inj.
  rewrite !FloatAxioms.mul_spec, FloatAxioms.opp_spec. unfold SF64mul, SFmul.
  destruct (Prim2SF x) as [s|s| |s m e]; simpl; try reflexivity;
    destruct s; reflexivity.
Qed.

Lemma square_same_magnitude (x y : float) :
  x = y \/ x = (- y)%float -> (x * x)%float = (y * y)%float.
Proof. intros [-> | ->]; [reflexivity | apply mul_opp_opp]. Qed.

Lemma corner_loop_ext (pt pt' : nat -> float * float) (ks : list nat)
    (st : corner_state) :
  (forall i, pt i = pt' i) ->
  foldl (fun s i => corner_loop_body pt i s) st ks =
  foldl (fun s i => corner_loop_body pt' i s) st ks.
Proof.
  intros Hpt. revert st. induction ks as [|k ks IH]; intros st; [reflexivity|].
  simpl. unfold corner_loop_body at 2 4. rewrite Hpt. apply IH.
Qed.

(** X26. [gsl_multifit_linear_lcorner2] depends on [reg_param] and
    [eta] only through the magnitudes of their entries: changing the sign
    of any entries changes neither the status nor the index. *)
Theorem lcorner2_ignores_signs (reg_param reg_param' eta eta' : gsl_vector)
    (idx0 : nat) :
  same_magnitudes reg_param' reg_param ->
  same_magnitudes eta' eta ->
  gsl_multifit_linear_lcorner2 reg_param' eta' idx0 =
  gsl_multifit_linear_lcorner2 reg_param eta idx0.
Proof.
  intros [Hlr Hr] [Hle He].
  change (lcorner_variant SquaredCurve reg_param' eta' idx0 =
          lcorner_variant SquaredCurve reg_param eta idx0).
  destruct (decide (length reg_param < 3)) as [Hshort|Hlong].
  { rewrite !lcorner_variant_short by lia. reflexivity. }
  destruct (decide (length reg_param = length eta)) as [Hlen|Hne].
  2: { rewrite !lcorner_variant_mismatch by lia. reflexivity. }
  rewrite !lcorner_variant_loop by lia.
  assert (Hpt : forall i, corner_point SquaredCurve reg_param' eta' i =
                          corner_point SquaredCurve reg_param eta i).
  { intros i. simpl.
    rewrite (square_same_magnitude _ _ (Hr i)), (square_same_magnitude _ _ (He i)).
    reflexivity. }
  rewrite Hlr. unfold corner_init. rewrite !Hpt.
  f_equal. apply corner_loop_ext, Hpt.
Qed.

Lemma lcorner2_ignores_signs_witness :
  gsl_multifit_linear_lcorner2 [-1; 2; -3; 4]%float [4; -2; 1.5; -1.25]%float 7 =
  gsl_multifit_linear_lcorner2 [1; 2; 3; 4]%float [4; 2; 1.5; 1.25]%float 7.
Proof.
  apply lcorner2_ignores_signs; (split; [reflexivity|]); intros i;
    (destruct i as [|[|[|[|i]]]]; [ | | | | left; reflexivity]);
    first [left; reflexivity | right; reflexivity].
Defined.
